(** * thrift-decoder: a shallow embedding of [thrift-decoder.py]

    The development follows the Python source top to bottom: the byte-level
    services the program obtains from the runtime ([struct.unpack],
    [bytes.decode('utf-8')], a buffered binary file), then the class
    [ThriftDecoder] with its class-level dictionaries and per-instance
    attributes, from [__init__] to [decode], and finally the theorems about
    decoding. The rendering of a decoder as text ([__str__],
    [_format_field]) and the command line ([DecoderApp]) are not
    embedded. *)

From Stdlib Require Import ZArith Lia.
From Stdlib Require Import Strings.Ascii Strings.Byte.
From stdpp Require Import base option list gmap strings pretty.

Local Open Scope Z_scope.

(** ** Bytes and big-endian integers *)

Module Bytes.

(** The numeric value of a byte, [0 .. 255]. *)
Definition byte_val (b : byte) : Z := Z.of_N (Byte.to_N b).

(** The byte whose value is [z]; [x00] outside [0 .. 255]. *)
Definition byte_of (z : Z) : byte :=
  match Byte.of_N (Z.to_N z) with
  | Some b => b
  | None => x00
  end.

(** Big-endian value of a byte string, most significant byte first. *)
Definition be_unsigned (bs : list byte) : Z :=
  fold_left (fun acc b => acc * 256 + byte_val b) bs 0.

(** Two's-complement reading of an unsigned [8 * n]-bit quantity. *)
Definition to_signed (n : nat) (u : Z) : Z :=
  if u <? 2 ^ (8 * Z.of_nat n - 1) then u else u - 2 ^ (8 * Z.of_nat n).

(** The [n] big-endian bytes of [u mod 256 ^ n]. *)
Fixpoint be_bytes (n : nat) (u : Z) : list byte :=
  match n with
  | O => []
  | S n' => be_bytes n' (u / 256) ++ [byte_of (u mod 256)]
  end.

End Bytes.
Import Bytes.

(** ** Exceptions and outcomes

    Exceptions are modelled by their Python class; [KeyError] also carries
    the key that was looked up. *)

Inductive exn : Type :=
| struct_error                (* struct.error *)
| ValueError
| UnicodeDecodeError
| KeyError (key : Z)
| NotImplementedError
| AttributeError
| FileNotFoundError.

(** What running a piece of code yields: a value, a raised exception, or
    no answer within the recursion budget of the model. *)
Inductive outcome (A : Type) : Type :=
| Return (a : A)
| Raise (e : exn)
| OutOfFuel.
Arguments Return {A} a.
Arguments Raise {A} e.
Arguments OutOfFuel {A}.

(** ** [struct.unpack]

    The program uses five format strings: ['!B'], ['!h'], ['!i'], ['!q']
    and ['{}s'.format(length)]. *)

Inductive int_format : Type :=
| fmt_B    (* '!B' unsigned char  *)
| fmt_h    (* '!h' short          *)
| fmt_i    (* '!i' int            *)
| fmt_q.   (* '!q' long long      *)

Definition calcsize (f : int_format) : nat :=
  match f with
  | fmt_B => 1
  | fmt_h => 2
  | fmt_i => 4
  | fmt_q => 8
  end%nat.

Definition is_signed (f : int_format) : bool :=
  match f with
  | fmt_B => false
  | _ => true
  end.

(** [unpack_one(fmt, bytes)] for the four integer formats: the buffer must
    have exactly the size of the format. *)
Definition unpack_one (f : int_format) (bs : list byte) : outcome Z :=
  if Nat.eqb (length bs) (calcsize f)
  then Return (if is_signed f
               then to_signed (calcsize f) (be_unsigned bs)
               else be_unsigned bs)
  else Raise struct_error.

(** [unpack_one('{}s'.format(n), bytes)]: for negative [n] the text
    ["-5s"] is not a format ("bad char in struct format"); otherwise the
    buffer must have exactly [n] bytes, which are returned as they are. *)
Definition unpack_one_s (n : Z) (bs : list byte) : outcome (list byte) :=
  if n <? 0 then Raise struct_error
  else if Z.of_nat (length bs) =? n then Return bs
  else Raise struct_error.

(** ** Text

    A Python [str] is a sequence of code points. *)

Definition str : Type := list Z.

(** The [str] written as an ASCII literal. *)
Fixpoint str_of (s : string) : str :=
  match s with
  | EmptyString => []
  | String a s' => Z.of_N (N_of_ascii a) :: str_of s'
  end.

(** ** [bytes.decode('utf-8')]

    Strict decoding: shortest-form sequences only, no surrogates, nothing
    above U+10FFFF. *)

Module Utf8.

Definition is_cont (b : Z) : bool := (0x80 <=? b) && (b <=? 0xBF).

Definition between (lo hi b : Z) : bool := (lo <=? b) && (b <=? hi).

Fixpoint decode (bs : list Z) : option str :=
  match bs with
  | [] => Some []
  | b0 :: r0 =>
    if b0 <? 0x80 then cons b0 <$> decode r0
    else if between 0xC2 0xDF b0 then
      match r0 with
      | b1 :: r1 =>
        if is_cont b1
        then cons ((b0 - 0xC0) * 64 + (b1 - 0x80)) <$> decode r1
        else None
      | _ => None
      end
    else if between 0xE0 0xEF b0 then
      match r0 with
      | b1 :: b2 :: r2 =>
        if between (if b0 =? 0xE0 then 0xA0 else 0x80)
                   (if b0 =? 0xED then 0x9F else 0xBF) b1
           && is_cont b2
        then cons ((b0 - 0xE0) * 4096 + (b1 - 0x80) * 64 + (b2 - 0x80))
               <$> decode r2
        else None
      | _ => None
      end
    else if between 0xF0 0xF4 b0 then
      match r0 with
      | b1 :: b2 :: b3 :: r3 =>
        if between (if b0 =? 0xF0 then 0x90 else 0x80)
                   (if b0 =? 0xF4 then 0x8F else 0xBF) b1
           && is_cont b2 && is_cont b3
        then cons ((b0 - 0xF0) * 262144 + (b1 - 0x80) * 4096
                   + (b2 - 0x80) * 64 + (b3 - 0x80))
               <$> decode r3
        else None
      | _ => None
      end
    else None
  end.

(** A code point that UTF-8 can carry: a Unicode scalar value. *)
Definition scalar (c : Z) : Prop :=
  0 <= c <= 0x10FFFF /\ ~ (0xD800 <= c <= 0xDFFF).

(** The UTF-8 bytes of a scalar value (as numbers). *)
Definition encode_cp (c : Z) : list Z :=
  if c <? 0x80 then [c]
  else if c <? 0x800 then [0xC0 + c / 64; 0x80 + c mod 64]
  else if c <? 0x10000 then
    [0xE0 + c / 4096; 0x80 + (c / 64) mod 64; 0x80 + c mod 64]
  else
    [0xF0 + c / 262144; 0x80 + (c / 4096) mod 64;
     0x80 + (c / 64) mod 64; 0x80 + c mod 64].

Definition encode (s : str) : list Z := flat_map encode_cp s.

End Utf8.

(** [b.decode('utf-8')] on a byte string. *)
Definition decode_utf8 (bs : list byte) : outcome str :=
  match Utf8.decode (byte_val <$> bs) with
  | Some s => Return s
  | None => Raise UnicodeDecodeError
  end.

(** ** The file object returned by [open(fn, 'rb')] *)

Record BufferedReader : Type := mkReader {
  raw : list byte;      (* the content of the file *)
  pos : nat             (* the read position *)
}.

(** [fp.read(n)]: up to [n] bytes from the current position; [n = -1]
    reads to the end of the file; any other negative [n] is refused
    ("read length must be non-negative or -1"). *)
Definition fp_read (n : Z) (f : BufferedReader)
  : outcome (list byte) * BufferedReader :=
  if n <? -1 then (Raise ValueError, f)
  else
    let rest := drop (pos f) (raw f) in
    let got := if n =? -1 then rest else take (Z.to_nat n) rest in
    (Return got, mkReader (raw f) (pos f + length got)%nat).

(** Bytes not yet read. *)
Definition remaining (f : BufferedReader) : nat :=
  (length (raw f) - pos f)%nat.

(** ** Python values held by the decoder *)

(** What a handler returns: [bool], [int], [str], or the tuple of field
    triples [(field_id, t, data)] that [read_struct] builds. *)
#[warnings="-register-all"]
Inductive value : Type :=
| VBool (b : bool)
| VInt (z : Z)
| VStr (s : str)
| VTuple (fs : list (Z * Z * value)).

Definition field : Type := Z * Z * value.

(** The twelve reader methods that [__init__] registers as handlers. *)
Inductive method : Type :=
| read_bool_m | read_byte_m | read_double_m
| read_i16_m | read_i32_m | read_i64_m
| read_string_m | read_struct_m | read_map_m
| read_set_m | read_list_m | read_enum_m.

#[export] Instance method_eq_dec : EqDecision method.
Proof. solve_decision. Defined.

(** ** Objects

    A [ThriftDecoder] instance with the attributes [__init__] sets. *)
Record ThriftDecoder : Type := mkDecoder {
  structs : list (str * value);      (* OrderedDict, in insertion order *)
  fields : list field;
  fp : option BufferedReader;        (* None until decode opens a file *)
  version : option Z;
  message_type : option Z;
  method_name : option str;
  sequence_id : option Z;
  struct_name_counter : nat
}.

(** The state of the running program: the three dictionaries that are
    attributes of the class (one object each, shared by every instance),
    the instances by address, what was printed to standard error, and the
    files that [open] can find. A bound method [self.read_bool] is the pair
    of the instance and the method. *)
Record World : Type := mkWorld {
  type_handlers : gmap Z (nat * method);
  type_names : gmap Z str;
  message_types : gmap Z str;
  heap : list ThriftDecoder;
  stderr : list str;
  files : gmap string (list byte)
}.

(** The program after the class statement has run: empty dictionaries, no
    instance. *)
Definition initial_world (fs : gmap string (list byte)) : World :=
  mkWorld ∅ ∅ ∅ [] [] fs.

(** ** Computations over the world *)

Definition M (A : Type) : Type := World -> outcome A * World.

Definition ret {A} (a : A) : M A := fun w => (Return a, w).

Definition raise {A} (e : exn) : M A := fun w => (Raise e, w).

Definition bind {A B} (c : M A) (k : A -> M B) : M B :=
  fun w =>
    match c w with
    | (Return a, w') => k a w'
    | (Raise e, w') => (Raise e, w')
    | (OutOfFuel, w') => (OutOfFuel, w')
    end.

Notation "x <- c ;; k" := (bind c (fun x => k))
  (at level 100, c at next level, right associativity).
Notation "c ;;; k" := (bind c (fun _ => k))
  (at level 100, right associativity).

(** Attribute access on an instance; an address that holds no object has
    no attributes. *)
Definition get_self (self : nat) : M ThriftDecoder :=
  fun w =>
    match heap w !! self with
    | Some d => (Return d, w)
    | None => (Raise AttributeError, w)
    end.

Definition set_heap (h : list ThriftDecoder) (w : World) : World :=
  mkWorld (type_handlers w) (type_names w) (message_types w) h
          (stderr w) (files w).

Definition update_self (self : nat) (f : ThriftDecoder -> ThriftDecoder)
  : M unit :=
  d <- get_self self ;;
  fun w => (Return tt, set_heap (<[self := f d]> (heap w)) w).

Definition set_fp (r : option BufferedReader) (d : ThriftDecoder) :=
  mkDecoder (structs d) (fields d) r (version d) (message_type d)
            (method_name d) (sequence_id d) (struct_name_counter d).
Definition set_version (v : option Z) (d : ThriftDecoder) :=
  mkDecoder (structs d) (fields d) (fp d) v (message_type d)
            (method_name d) (sequence_id d) (struct_name_counter d).
Definition set_message_type (v : option Z) (d : ThriftDecoder) :=
  mkDecoder (structs d) (fields d) (fp d) (version d) v
            (method_name d) (sequence_id d) (struct_name_counter d).
Definition set_method_name (v : option str) (d : ThriftDecoder) :=
  mkDecoder (structs d) (fields d) (fp d) (version d) (message_type d)
            v (sequence_id d) (struct_name_counter d).
Definition set_sequence_id (v : option Z) (d : ThriftDecoder) :=
  mkDecoder (structs d) (fields d) (fp d) (version d) (message_type d)
            (method_name d) v (struct_name_counter d).
Definition set_fields (v : list field) (d : ThriftDecoder) :=
  mkDecoder (structs d) v (fp d) (version d) (message_type d)
            (method_name d) (sequence_id d) (struct_name_counter d).
Definition set_structs (v : list (str * value)) (d : ThriftDecoder) :=
  mkDecoder v (fields d) (fp d) (version d) (message_type d)
            (method_name d) (sequence_id d) (struct_name_counter d).
Definition set_struct_name_counter (v : nat) (d : ThriftDecoder) :=
  mkDecoder (structs d) (fields d) (fp d) (version d) (message_type d)
            (method_name d) (sequence_id d) v.

(** [print(s, file=sys.stderr)] *)
Definition print_stderr (s : str) : M unit :=
  fun w => (Return tt,
            mkWorld (type_handlers w) (type_names w) (message_types w)
                    (heap w) (stderr w ++ [s]) (files w)).

(** [d[k] = v] on an [OrderedDict]: a present key keeps its place and takes
    the new value, a new key goes to the end. *)
Fixpoint odict_set (k : str) (v : value) (d : list (str * value))
  : list (str * value) :=
  match d with
  | [] => [(k, v)]
  | (k', v') :: d' =>
    if decide (k' = k) then (k, v) :: d' else (k', v') :: odict_set k v d'
  end.

(** ** The class [ThriftDecoder] *)

(** [ThriftDecoder()]: allocate the instance and run [__init__], which
    sets the instance attributes and then writes the three message types,
    the twelve handlers (methods bound to the new instance) and the twelve
    names into the dictionaries of the class. *)
Definition new_ThriftDecoder : M nat :=
  fun w =>
    let self := length (heap w) in
    let d := mkDecoder [] [] None None None None None 0 in
    let mt :=
      <[3 := str_of "oneway"]>
        (<[2 := str_of "reply"]> (<[1 := str_of "call"]> (message_types w))) in
    let th :=
      <[16 := (self, read_enum_m)]> (<[15 := (self, read_list_m)]>
      (<[14 := (self, read_set_m)]> (<[13 := (self, read_map_m)]>
      (<[12 := (self, read_struct_m)]> (<[11 := (self, read_string_m)]>
      (<[10 := (self, read_i64_m)]> (<[8 := (self, read_i32_m)]>
      (<[6 := (self, read_i16_m)]> (<[4 := (self, read_double_m)]>
      (<[3 := (self, read_byte_m)]> (<[2 := (self, read_bool_m)]>
        (type_handlers w)))))))))))) in
    let tn :=
      <[16 := str_of "enum"]> (<[15 := str_of "list"]>
      (<[14 := str_of "set"]> (<[13 := str_of "map"]>
      (<[12 := str_of "struct"]> (<[11 := str_of "string"]>
      (<[10 := str_of "i64"]> (<[8 := str_of "i32"]>
      (<[6 := str_of "i16"]> (<[4 := str_of "double"]>
      (<[3 := str_of "byte"]> (<[2 := str_of "bool"]>
        (type_names w)))))))))))) in
    (Return self, mkWorld th tn mt (heap w ++ [d]) (stderr w) (files w)).

(** A result computed outside the world: [unpack_one], [decode]. *)
Definition lift {A} (r : outcome A) : M A := fun w => (r, w).

(** [self.fp.read(n)]: [None] has no attribute [read]; the file moves
    only when the read succeeds. *)
Definition self_fp_read (self : nat) (n : Z) : M (list byte) :=
  d <- get_self self ;;
  match fp d with
  | None => raise AttributeError
  | Some f =>
    let '(r, f') := fp_read n f in
    match r with
    | Return _ => update_self self (set_fp (Some f')) ;;; lift r
    | _ => lift r
    end
  end.

Definition read_byte (self : nat) : M Z :=
  bs <- self_fp_read self 1 ;; lift (unpack_one fmt_B bs).

Definition read_type (self : nat) : M Z := read_byte self.

Definition read_bool (self : nat) : M bool :=
  b <- read_byte self ;; ret (negb (b =? 0)).

Definition read_double (self : nat) : M value := raise NotImplementedError.

Definition read_i16 (self : nat) : M Z :=
  bs <- self_fp_read self 2 ;; lift (unpack_one fmt_h bs).

Definition read_field_id (self : nat) : M Z := read_i16 self.

Definition read_i32 (self : nat) : M Z :=
  bs <- self_fp_read self 4 ;; lift (unpack_one fmt_i bs).

Definition read_i64 (self : nat) : M Z :=
  bs <- self_fp_read self 8 ;; lift (unpack_one fmt_q bs).

Definition read_string (self : nat) : M str :=
  length <- read_i32 self ;;
  bs <- self_fp_read self length ;;
  s <- lift (unpack_one_s length bs) ;;
  lift (decode_utf8 s).

Definition read_map (self : nat) : M value := raise NotImplementedError.
Definition read_set (self : nat) : M value := raise NotImplementedError.
Definition read_list (self : nat) : M value := raise NotImplementedError.
Definition read_enum (self : nat) : M value := raise NotImplementedError.

(** ['UnknownStruct{}'.format(n)] *)
Definition struct_name (n : nat) : str :=
  str_of ("UnknownStruct" +:+ pretty n).

(** [self.type_handlers[t]] *)
Definition lookup_handler (t : Z) : M (nat * method) :=
  fun w =>
    match type_handlers w !! t with
    | Some h => (Return h, w)
    | None => (Raise (KeyError t), w)
    end.

(** Calling the bound method [(o, m)]; [rs] is [read_struct]. *)
Definition call_handler (rs : nat -> M (list field)) (h : nat * method)
  : M value :=
  let o := fst h in
  match snd h with
  | read_bool_m => b <- read_bool o ;; ret (VBool b)
  | read_byte_m => z <- read_byte o ;; ret (VInt z)
  | read_double_m => read_double o
  | read_i16_m => z <- read_i16 o ;; ret (VInt z)
  | read_i32_m => z <- read_i32 o ;; ret (VInt z)
  | read_i64_m => z <- read_i64 o ;; ret (VInt z)
  | read_string_m => s <- read_string o ;; ret (VStr s)
  | read_struct_m => fs <- rs o ;; ret (VTuple fs)
  | read_map_m => read_map o
  | read_set_m => read_set o
  | read_list_m => read_list o
  | read_enum_m => read_enum o
  end.

(** The [t == 12] branch and its [else] in [read_struct]: the field that
    is appended to [fields]. *)
Definition record_field (self : nat) (field_id t : Z) (field_data : value)
  : M field :=
  if t =? 12 then
    d <- get_self self ;;
    let name := struct_name (struct_name_counter d) in
    update_self self
      (fun d => set_struct_name_counter (S (struct_name_counter d)) d) ;;;
    update_self self
      (fun d => set_structs (odict_set name field_data (structs d)) d) ;;;
    ret (field_id, t, VStr name)
  else ret (field_id, t, field_data).

(** The [while t != 0] loop of [read_struct], entered with the tag [t]
    just read and the fields gathered so far. [fuel] bounds the number of
    iterations, nested ones included. *)
Fixpoint read_struct_loop (fuel : nat) (self : nat) (fields : list field)
    (t : Z) : M (list field) :=
  if t =? 0 then ret fields
  else
    match fuel with
    | O => fun w => (OutOfFuel, w)
    | S fuel' =>
      field_id <- read_field_id self ;;
      h <- lookup_handler t ;;
      field_data <-
        call_handler
          (fun o => t0 <- read_type o ;; read_struct_loop fuel' o [] t0) h ;;
      f <- record_field self field_id t field_data ;;
      t' <- read_type self ;;
      read_struct_loop fuel' self (fields ++ [f]) t'
    end.

Definition read_struct_fuel (fuel : nat) (self : nat) : M (list field) :=
  t <- read_type self ;; read_struct_loop fuel self [] t.

(** Every iteration of the loop reads at least the two bytes of a field
    id from some open file, so the bytes still unread in all open files
    bound the number of iterations.

    The calls of [read_struct] nest as deep as the structs in the file.
    The interpreter bounds the depth of calls and raises [RecursionError]
    beyond it; that bound is not part of the model, in which a struct of
    any depth is read. *)
Definition unread (d : ThriftDecoder) : nat :=
  match fp d with
  | Some f => remaining f
  | None => 0
  end.

Definition total_unread (w : World) : nat := sum_list (unread <$> heap w).

Definition read_struct (self : nat) : M (list field) :=
  fun w => read_struct_fuel (S (total_unread w)) self w.

Definition VERSION_1 : list byte := [x80; x01].

Definition read_header (self : nat) : M unit :=
  v <- read_i16 self ;;
  update_self self (set_version (Some v)) ;;;
  expected <- lift (unpack_one fmt_h VERSION_1) ;;
  (if negb (v =? expected)
   then print_stderr (str_of "Warning: unexpected version {}")
   else ret tt) ;;;
  mt <- read_i16 self ;;
  update_self self (set_message_type (Some mt)) ;;;
  name <- read_string self ;;
  update_self self (set_method_name (Some name)) ;;;
  seq <- read_i32 self ;;
  update_self self (set_sequence_id (Some seq)) ;;;
  fs <- read_struct self ;;
  update_self self (set_fields fs).

(** [open(fn, 'rb')]: a name is that of a file with a content, or of
    nothing.  The other ways in which [open] can fail (a directory, a file
    that may not be read) are not part of the model. *)
Definition open_rb (fn : string) : M BufferedReader :=
  fun w =>
    match files w !! fn with
    | Some content => (Return (mkReader content 0), w)
    | None => (Raise FileNotFoundError, w)
    end.

Definition decode (self : nat) (fn : string) : M unit :=
  f <- open_rb fn ;;
  update_self self (set_fp (Some f)) ;;;
  read_header self.

(** A test run: in a program that has just loaded the class and where the
    file ["in"] holds [buf], construct a decoder and decode the file. *)
Definition input (buf : list byte) : gmap string (list byte) :=
  {[ "in"%string := buf ]}.

Definition decode_fresh (buf : list byte) : outcome unit * World :=
  (d <- new_ThriftDecoder ;; decode d "in") (initial_world (input buf)).

(** ** Vocabulary for the statements *)

(** The bytes the instance [self] has still to read, if it has a file. *)
Definition pending (self : nat) (w : World) : option (list byte) :=
  match heap w !! self with
  | Some d =>
    match fp d with
    | Some f => Some (drop (pos f) (raw f))
    | None => None
    end
  | None => None
  end.

(** The world in which the file of [self] is [k] bytes further on and
    nothing else has changed. *)
Definition advance (self : nat) (k : nat) (w : World) : World :=
  match heap w !! self with
  | Some d =>
    match fp d with
    | Some f =>
      set_heap
        (<[self := set_fp (Some (mkReader (raw f) (pos f + k)%nat)) d]>
           (heap w)) w
    | None => w
    end
  | None => w
  end.

(** The reader for each integer format. *)
Definition read_int (f : int_format) (self : nat) : M Z :=
  bs <- self_fp_read self (Z.of_nat (calcsize f)) ;; lift (unpack_one f bs).

(** The header of a call to ["ping"] with sequence id 42, and the whole
    message with an empty argument struct. *)
Definition ping_header : list byte :=
  [x80; x01; x00; x01; x00; x00; x00; x04; x70; x69; x6e; x67;
   x00; x00; x00; x2a].

Definition ping : list byte := ping_header ++ [x00].

(** ** Properties of computations *)

(** [c] leaves the observation [phi] of the world as it found it, whatever
    its outcome. *)
Definition preserves {A X : Type} (phi : World -> X) (c : M A) : Prop :=
  forall w, phi (snd (c w)) = phi w.

(** [c] never moves a file backwards or reopens one. *)
Definition shrinks {A : Type} (c : M A) : Prop :=
  forall w, (total_unread (snd (c w)) <= total_unread w)%nat.

(** [c] gives an answer: it never exhausts the recursion budget. *)
Definition halts {A : Type} (c : M A) : Prop :=
  forall w, fst (c w) <> OutOfFuel.

(** Whenever [c1] gives an answer, [c2] gives the same one. *)
Definition refines {A : Type} (c1 c2 : M A) : Prop :=
  forall w, fst (c1 w) <> OutOfFuel -> c2 w = c1 w.

(** Everything in the world but the instances. *)
Definition frame (w : World) :=
  (type_handlers w, type_names w, message_types w, stderr w, files w,
   length (heap w)).

(** ** Test scenes *)

(** The world in which a decoder, the only instance, has just opened a
    file with content [buf]: the state in which [decode] calls
    [read_header]. The instance has address 0. *)
Definition opened (buf : list byte) : World :=
  snd ((d <- new_ThriftDecoder ;;
        f <- open_rb "in" ;;
        update_self d (set_fp (Some f)))
         (initial_world (input buf))).

(** The ["ping"] header followed by a struct with two struct fields
    (ids 1 and 2), each of which holds one empty struct (id 1). *)
Definition nested : list byte :=
  ping_header
  ++ [x0c; x00; x01;  x0c; x00; x01;  x00;  x00]
  ++ [x0c; x00; x02;  x0c; x00; x01;  x00;  x00]
  ++ [x00].

(** ** Canonical encodings of scalars

    The program has no encoder; these are the big-endian encodings of the
    Thrift binary protocol that the round-trip statement is about. *)

Inductive wire_value : Type :=
| WBool (b : bool)
| WByte (v : Z)
| WI16 (v : Z)
| WI32 (v : Z)
| WI64 (v : Z)
| WString (s : str).

Definition utf8_bytes (s : str) : list byte := byte_of <$> Utf8.encode s.

Definition representable (v : wire_value) : Prop :=
  match v with
  | WBool _ => True
  | WByte v => 0 <= v < 2 ^ 8
  | WI16 v => - 2 ^ 15 <= v < 2 ^ 15
  | WI32 v => - 2 ^ 31 <= v < 2 ^ 31
  | WI64 v => - 2 ^ 63 <= v < 2 ^ 63
  | WString s =>
    Forall Utf8.scalar s /\ Z.of_nat (length (utf8_bytes s)) < 2 ^ 31
  end.

Definition canonical (v : wire_value) : list byte :=
  match v with
  | WBool b => [if b then x01 else x00]
  | WByte v => be_bytes 1 v
  | WI16 v => be_bytes 2 v
  | WI32 v => be_bytes 4 v
  | WI64 v => be_bytes 8 v
  | WString s =>
    be_bytes 4 (Z.of_nat (length (utf8_bytes s))) ++ utf8_bytes s
  end.

(** The Python object the value decodes to. *)
Definition python_value (v : wire_value) : value :=
  match v with
  | WBool b => VBool b
  | WByte v | WI16 v | WI32 v | WI64 v => VInt v
  | WString s => VStr s
  end.

(** The reader that [__init__] registers for the tag of the value. *)
Definition reader_of (v : wire_value) : method :=
  match v with
  | WBool _ => read_bool_m
  | WByte _ => read_byte_m
  | WI16 _ => read_i16_m
  | WI32 _ => read_i32_m
  | WI64 _ => read_i64_m
  | WString _ => read_string_m
  end.

(** The type tags that [__init__] registers. *)
Definition registered : list Z := [2; 3; 4; 6; 8; 10; 11; 12; 13; 14; 15; 16].

(** Two files on disk. *)
Definition two_files (a b : list byte) : gmap string (list byte) :=
  <["other"%string := b]> (input a).

(** The ping message with message type 7. *)
Definition ping_of_type_7 : list byte :=
  [x80; x01; x00; x07] ++ drop 4 ping.

(** A bool field with id 1 and value true, then the stop byte. *)
Definition one_bool : list byte := ping_header ++ [x02; x00; x01; x01; x00].

(** A bool field with id 1 whose value byte is missing, then the stop
    byte. *)
Definition short_bool : list byte := ping_header ++ [x02; x00; x01; x00].

(** ** Numbering of nested structs *)

(** The values of the fields of type struct (tag 12), in field order. *)
Fixpoint struct_refs (fs : list field) : list value :=
  match fs with
  | [] => []
  | (_, t, v) :: fs' =>
    if t =? 12 then v :: struct_refs fs' else struct_refs fs'
  end.

(** [ns] increases strictly and lies in [lo, hi). *)
Fixpoint increasing (lo hi : nat) (ns : list nat) : Prop :=
  match ns with
  | [] => True
  | n :: ns' => (lo <= n < hi)%nat /\ increasing (S n) hi ns'
  end.

(** The struct fields of [fs] hold synthetic names whose numbers increase
    along [fs] and are below [hi]. *)
Definition numbered (hi : nat) (fs : list field) : Prop :=
  exists ns,
    struct_refs fs = (fun n => VStr (struct_name n)) <$> ns
    /\ increasing 0 hi ns.

(** A table of structs whose keys are the first [c] synthetic names in
    order and whose [i]-th struct refers only to structs numbered below
    [i]. *)
Definition table_ok (tbl : list (str * value)) (c : nat) : Prop :=
  fst <$> tbl = struct_name <$> seq 0 c
  /\ forall i k v, tbl !! i = Some (k, v) ->
       exists fs, v = VTuple fs /\ numbered i fs.

(** The handler table when every handler is a method of [self]. *)
Definition handlers_of (self : nat) : gmap Z (nat * method) :=
  <[16 := (self, read_enum_m)]> (<[15 := (self, read_list_m)]>
  (<[14 := (self, read_set_m)]> (<[13 := (self, read_map_m)]>
  (<[12 := (self, read_struct_m)]> (<[11 := (self, read_string_m)]>
  (<[10 := (self, read_i64_m)]> (<[8 := (self, read_i32_m)]>
  (<[6 := (self, read_i16_m)]> (<[4 := (self, read_double_m)]>
  (<[3 := (self, read_byte_m)]> (<[2 := (self, read_bool_m)]> ∅))))))))))).

(** What the naming of structs by [self] depends on: the handler table,
    and the table of structs and the counter of [self]. *)
Definition own (self : nat) (w : World) :=
  (type_handlers w,
   (fun d => (structs d, struct_name_counter d)) <$> heap w !! self).

(** [self] dispatches to itself, its counter is [c] and its table is in
    order. *)
Definition good (self : nat) (w : World) (c : nat) : Prop :=
  exists tbl,
    own self w = (handlers_of self, Some (tbl, c)) /\ table_ok tbl c.

(** ** Observations of a decode *)

(** An attribute (or several) of the instance [self]. *)
Definition obs {X : Type} (p : ThriftDecoder -> X) (self : nat) (w : World)
  : option X :=
  p <$> heap w !! self.

(** What a decode leaves in the decoder besides version and message
    type. *)
Definition envelope (d : ThriftDecoder) :=
  (method_name d, sequence_id d, fields d, structs d, struct_name_counter d).

(** A file seen from its read position: the bytes before it are gone. *)
Definition rebase (f : BufferedReader) : BufferedReader :=
  mkReader (drop (pos f) (raw f)) 0.

(** The part of the world that the decode after the version (and, unless
    [keep_type], after the message type) can depend on: files are seen from
    their read position, the version (and message type) of each instance is
    blanked, and so are standard error and the file system. *)
Definition forget_decoder (keep_type : bool) (d : ThriftDecoder)
  : ThriftDecoder :=
  mkDecoder (structs d) (fields d) (rebase <$> fp d) None
            (if keep_type then message_type d else None)
            (method_name d) (sequence_id d) (struct_name_counter d).

Definition forget (keep_type : bool) (w : World) : World :=
  mkWorld (type_handlers w) (type_names w) (message_types w)
          (forget_decoder keep_type <$> heap w) [] ∅.

(** [c] behaves the same on a world and on what [forget] keeps of it. *)
Definition respects (keep_type : bool) {A : Type} (c : M A) : Prop :=
  forall w,
    fst (c (forget keep_type w)) = fst (c w)
    /\ forget keep_type (snd (c (forget keep_type w)))
       = forget keep_type (snd (c w)).

(** ** The three parts of [read_header]

    The statements of [read_header] in three groups, to speak of the world
    between them: the version and its check, the message type, and the
    rest. [read_header] is the three in sequence. *)

Definition warning : str := str_of "Warning: unexpected version {}".

Definition read_header_version (self : nat) : M unit :=
  v <- read_i16 self ;;
  update_self self (set_version (Some v)) ;;;
  expected <- lift (unpack_one fmt_h VERSION_1) ;;
  (if negb (v =? expected) then print_stderr warning else ret tt).

Definition read_header_type (self : nat) : M unit :=
  mt <- read_i16 self ;;
  update_self self (set_message_type (Some mt)).

Definition read_header_body (self : nat) : M unit :=
  name <- read_string self ;;
  update_self self (set_method_name (Some name)) ;;;
  seq <- read_i32 self ;;
  update_self self (set_sequence_id (Some seq)) ;;;
  fs <- read_struct self ;;
  update_self self (set_fields fs).

(** The value of two bytes read with ['!h']. *)
Definition i16_of (b0 b1 : byte) : Z := to_signed 2 (be_unsigned [b0; b1]).

(** * Further vocabulary, for properties beyond the specification *)

(** ** Files and tables over a decode *)

(** [w'] is [w] read further: every file that is open in [w] with its
    position inside its content is open in [w'] with the same content, at
    a position that is not before the old one and not past the end. *)
Definition forward (w w' : World) : Prop :=
  forall o d f,
    heap w !! o = Some d -> fp d = Some f ->
    (pos f <= length (raw f))%nat ->
    exists d' f',
      heap w' !! o = Some d' /\ fp d' = Some f'
      /\ raw f' = raw f /\ (pos f <= pos f' <= length (raw f))%nat.

(** The table of structs and the counter of [self]. *)
Definition table_of (self : nat) (w : World)
  : option (list (str * value) * nat) :=
  obs (fun d => (structs d, struct_name_counter d)) self w.

(** The table of [self] in [w'] continues the one in [w]: if the keys in
    [w] are the first synthetic names in order, so are they in [w'], the
    counter has not gone back, and the old table is the beginning of the
    new one, entry by entry. *)
Definition extends (self : nat) (w w' : World) : Prop :=
  forall tbl c,
    table_of self w = Some (tbl, c) ->
    fst <$> tbl = struct_name <$> seq 0 c ->
    exists tbl' c',
      table_of self w' = Some (tbl', c')
      /\ fst <$> tbl' = struct_name <$> seq 0 c'
      /\ (c <= c')%nat /\ tbl `prefix_of` tbl'.

(** [c] leaves of the unread bytes of [self] a final part. *)
Definition consumes (self : nat) {A : Type} (c : M A) : Prop :=
  forall w bs, pending self w = Some bs ->
    exists k, pending self (snd (c w)) = Some (drop k bs).

(** [c] only reads further. *)
Definition reads_on {A : Type} (c : M A) : Prop :=
  forall w, forward w (snd (c w)).

(** [c] only adds to the table of [self]. *)
Definition appends (self : nat) {A : Type} (c : M A) : Prop :=
  forall w, extends self w (snd (c w)).

(** ** Types of decoded fields *)

(** A field [(id, tag, value)] as a registered reader produces it: the id
    is an i16, and the value is a bool under tag 2, an integer in the range
    of its tag (3: one unsigned byte; 6, 8, 10: signed 16, 32, 64 bits), a
    text of Unicode scalar values under tag 11, or the synthetic name of a
    struct under tag 12.  A field never holds a tuple. *)
Definition well_typed (f : field) : Prop :=
  let '(i, t, v) := f in
  - 2 ^ 15 <= i < 2 ^ 15
  /\ match v with
     | VBool _ => t = 2
     | VInt z =>
       (t = 3 /\ 0 <= z < 2 ^ 8)
       \/ (t = 6 /\ - 2 ^ 15 <= z < 2 ^ 15)
       \/ (t = 8 /\ - 2 ^ 31 <= z < 2 ^ 31)
       \/ (t = 10 /\ - 2 ^ 63 <= z < 2 ^ 63)
     | VStr s =>
       (t = 11 /\ Forall Utf8.scalar s)
       \/ (t = 12 /\ exists n, s = struct_name n)
     | VTuple _ => False
     end.

(** An entry of the struct table: a tuple of such fields. *)
Definition struct_typed (kv : str * value) : Prop :=
  exists fs, snd kv = VTuple fs /\ Forall well_typed fs.

(** [self] dispatches to itself and its struct table holds typed
    entries. *)
Definition typed (self : nat) (w : World) : Prop :=
  exists tbl c,
    own self w = (handlers_of self, Some (tbl, c)) /\ Forall struct_typed tbl.

(** The program after [ThriftDecoder()] has run once, with the file
    ["in"] holding [buf]: the instance has address 0 and no file yet. *)
Definition constructed (buf : list byte) : World :=
  snd (new_ThriftDecoder (initial_world (input buf))).

(** * Rendering and the command line

    [__str__], [_format_field] and [DecoderApp.run_app]. *)

(** The exceptions of the whole program: those of decoding (a [KeyError]
    on an integer key among them), [KeyError(None)], and the [TypeError]
    and [IndexError] of iterating and indexing. *)
Inductive exception : Type :=
| Exn (e : exn)
| KeyError_None
| TypeError
| IndexError.

Inductive result (A : Type) : Type :=
| Done (a : A)
| Fails (e : exception)
| NoAnswer.
Arguments Done {A} a.
Arguments Fails {A} e.
Arguments NoAnswer {A}.

Definition of_outcome {A} (r : outcome A) : result A :=
  match r with
  | Return a => Done a
  | Raise e => Fails (Exn e)
  | OutOfFuel => NoAnswer
  end.

Definition and_then {A B} (r : result A) (k : A -> result B) : result B :=
  match r with
  | Done a => k a
  | Fails e => Fails e
  | NoAnswer => NoAnswer
  end.

(** [[f(x) for x in xs]]: the results in order, or the first exception. *)
Fixpoint collect {A B} (f : A -> result B) (xs : list A) : result (list B) :=
  match xs with
  | [] => Done []
  | x :: xs' =>
    and_then (f x) (fun y => and_then (collect f xs') (fun ys => Done (y :: ys)))
  end.

(** [sep.join(lines)] *)
Definition join (sep : str) (lines : list str) : str :=
  match lines with
  | [] => []
  | l :: ls => l ++ concat ((fun x => sep ++ x) <$> ls)
  end.

(** [' ' * n] *)
Definition spaces (n : nat) : str := replicate n 32.

(** ['{:4}'.format(i)] pads a number on the left, ['{:10}'.format(s)] a
    string on the right; neither cuts. *)
Definition align_right (width : nat) (s : str) : str :=
  spaces (width - length s) ++ s.
Definition align_left (width : nat) (s : str) : str :=
  s ++ spaces (width - length s).

(** ['{}'.format(x)] for an integer, and for an attribute that is [None]
    until the header is read. *)
Definition str_int (z : Z) : str := str_of (pretty z).

Definition str_opt_int (o : option Z) : str :=
  match o with
  | Some z => str_int z
  | None => str_of "None"
  end.

Definition str_opt_str (o : option str) : str :=
  match o with
  | Some s => s
  | None => str_of "None"
  end.

Section Rendering.

(** [str] of a tuple of fields: Python's [repr] of tuples and strings is
    not modelled; the readers never put a tuple into a field. *)
Variable tuple_str : list field -> str.

Definition str_value (v : value) : str :=
  match v with
  | VBool true => str_of "True"
  | VBool false => str_of "False"
  | VInt z => str_int z
  | VStr s => s
  | VTuple fs => tuple_str fs
  end.

(** [self._format_field(f, indent)]: only the look-up of the type name
    can fail. *)
Definition _format_field (w : World) (f : field) (indent : nat)
  : result str :=
  let '(i, t, v) := f in
  match type_names w !! t with
  | Some name =>
    Done (spaces indent ++ str_of "id: " ++ align_right 4 (str_int i)
          ++ str_of "     type: " ++ align_left 10 name
          ++ str_of " value: " ++ str_value v)
  | None => Fails (Exn (KeyError t))
  end.

(** [[self._format_field(f) for f in struct_fields]] for a value of the
    struct table: a tuple gives its fields; a non-empty string gives
    one-character strings, whose index 1 does not exist; a number cannot
    be iterated. *)
Definition struct_lines (w : World) (v : value) : result (list str) :=
  match v with
  | VTuple fs => collect (fun f => _format_field w f 2) fs
  | VStr [] => Done []
  | VStr (_ :: _) => Fails IndexError
  | VBool _ | VInt _ => Fails TypeError
  end.

(** The [for] loop over [self.structs.items()]. *)
Fixpoint structs_lines (w : World) (tbl : list (str * value))
  : result (list str) :=
  match tbl with
  | [] => Done []
  | (struct_name, struct_fields) :: tbl' =>
    and_then (struct_lines w struct_fields) (fun ls =>
    and_then (structs_lines w tbl') (fun rest =>
    Done ([struct_name ++ str_of ":"; []] ++ ls ++ rest)))
  end.

(** The six lines of the header. *)
Definition header_lines (d : ThriftDecoder) (mt : Z) (kind : str)
  : list str :=
  [str_of "version: " ++ str_opt_int (version d);
   str_of "type:    " ++ str_int mt ++ str_of " (" ++ kind ++ str_of ")";
   str_of "method:  " ++ str_opt_str (method_name d);
   str_of "seq id:  " ++ str_opt_int (sequence_id d);
   [];
   str_of "Message:"].

Definition __str__ (w : World) (d : ThriftDecoder) : result str :=
  match message_type d with
  | None => Fails KeyError_None
  | Some mt =>
    match message_types w !! mt with
    | None => Fails (Exn (KeyError mt))
    | Some kind =>
      and_then (collect (fun f => _format_field w f 2) (fields d))
        (fun field_lines =>
           let lines := header_lines d mt kind ++ field_lines in
           match structs d with
           | [] => Done (join [10] lines)
           | _ :: _ =>
             and_then (structs_lines w (structs d)) (fun ls =>
               Done (join [10] (lines ++ [[]; str_of "Structs:"] ++ ls)))
           end)
    end
  end.

(** [str(d)] for the object at an address. *)
Definition str_self (self : nat) (w : World) : result str :=
  match heap w !! self with
  | Some d => __str__ w d
  | None => Fails (Exn AttributeError)
  end.

(** ** [DecoderApp.run_app] *)

(** The body of the loop over the input files: the text appended to
    [decoded]. *)
Definition decode_file (fn : string) (w : World) : result str * World :=
  match (d <- new_ThriftDecoder ;; decode d fn ;;; ret d) w with
  | (Return d, w') => (str_self d w', w')
  | (Raise e, w') => (Fails (Exn e), w')
  | (OutOfFuel, w') => (NoAnswer, w')
  end.

Fixpoint run_files (fns : list string) (decoded : list str) (w : World)
  : result (list str) * World :=
  match fns with
  | [] => (Done decoded, w)
  | fn :: fns' =>
    match decode_file fn w with
    | (Done s, w') => run_files fns' (decoded ++ [s]) w'
    | (Fails e, w') => (Fails e, w')
    | (NoAnswer, w') => (NoAnswer, w')
    end
  end.

Definition usage (prog : string) : str :=
  str_of "usage: " ++ str_of prog ++ str_of " <file> [file, ...]".

(** [run_app(args)]: the text written to standard output, the newline of
    [print] included; the output is text, the encoding of the terminal is
    not modelled.  With no argument at all, [args[0]] does not exist. *)
Definition run_app (args : list string) (w : World) : result str * World :=
  match args with
  | [] => (Fails IndexError, w)
  | prog :: input_files =>
    if bool_decide (input_files = [])
       || bool_decide ("-h"%string ∈ input_files)
       || bool_decide ("--help"%string ∈ input_files)
    then (Done (usage prog ++ [10]), w)
    else
      match run_files input_files [] w with
      | (Done decoded, w') => (Done (join [10; 10] decoded ++ [10]), w')
      | (Fails e, w') => (Fails e, w')
      | (NoAnswer, w') => (NoAnswer, w')
      end
  end.

(** The program run as a script: [DecoderApp().run_app(sys.argv)]. *)
Definition main (argv : list string) (fs : gmap string (list byte))
  : result str * World :=
  run_app argv (initial_world fs).

End Rendering.

(** ** Vocabulary for the command line *)

(** The dictionaries of the class, the file system and the number of
    instances: what a decode leaves alone. *)
Definition tables (w : World) :=
  (type_handlers w, type_names w, message_types w, files w,
   length (heap w)).

(** Every registered tag has a name. *)
Definition named (w : World) : Prop :=
  forall t, t ∈ registered -> is_Some (type_names w !! t).

(** The dictionaries of the class hold nothing but what [__init__]
    writes: true when the program starts, and kept by every constructor
    call and every decode. *)
Definition pristine (w : World) : Prop :=
  (forall t, t ∉ registered -> type_handlers w !! t = None)
  /\ (forall t, t ∉ registered -> type_names w !! t = None)
  /\ (forall mt, mt ∉ [1; 2; 3] -> message_types w !! mt = None).

(** ** One decoder seen from two programs

    The instance at [k] in [w] and the instance at [k'] in [w'] are the
    same object behind handlers that dispatch to it, under the same names,
    message types and files. *)
Definition alike (k k' : nat) (w w' : World) : Prop :=
  type_handlers w = handlers_of k /\ type_handlers w' = handlers_of k'
  /\ type_names w = type_names w' /\ message_types w = message_types w'
  /\ files w = files w'
  /\ heap w !! k = heap w' !! k'.

(** [c] on the one and [c'] on the other give the same answer, write the
    same lines to standard error, and leave the two alike. *)
Definition simulates (k k' : nat) {A : Type} (c c' : M A) : Prop :=
  forall w w', alike k k' w w' ->
    fst (c w) = fst (c' w')
    /\ alike k k' (snd (c w)) (snd (c' w'))
    /\ exists out, stderr (snd (c w)) = stderr w ++ out
                   /\ stderr (snd (c' w')) = stderr w' ++ out.

(** * The wire format of a struct

    The program has no encoder.  This is the layout of the Thrift binary
    protocol that the decoder is written against, for the types it
    supports: a struct is a sequence of fields, each a tag byte, an i16 id
    and the encoding of the value (for a struct field, a struct), closed by
    the stop byte 0.

    [wire c bs fs tbl c'] reads: the bytes [bs] are such a struct; decoded
    by a decoder whose counter of struct names is [c], it gives the fields
    [fs], adds the entries [tbl] to the table of structs and leaves the
    counter at [c']. *)

Definition tag_of (v : wire_value) : Z :=
  match v with
  | WBool _ => 2
  | WByte _ => 3
  | WI16 _ => 6
  | WI32 _ => 8
  | WI64 _ => 10
  | WString _ => 11
  end.

Inductive wire
  : nat -> list byte -> list field -> list (str * value) -> nat -> Prop :=
| wire_stop c : wire c [x00] [] [] c
| wire_scalar c i v bs fs tbl c' :
    - 2 ^ 15 <= i < 2 ^ 15 -> representable v ->
    wire c bs fs tbl c' ->
    wire c (be_bytes 1 (tag_of v) ++ be_bytes 2 i ++ canonical v ++ bs)
         ((i, tag_of v, python_value v) :: fs) tbl c'
| wire_struct c i inner fs_in tbl_in c1 bs fs tbl c' :
    - 2 ^ 15 <= i < 2 ^ 15 ->
    wire c inner fs_in tbl_in c1 ->
    wire (S c1) bs fs tbl c' ->
    wire c (be_bytes 1 12 ++ be_bytes 2 i ++ inner ++ bs)
         ((i, 12, VStr (struct_name c1)) :: fs)
         (tbl_in ++ (struct_name c1, VTuple fs_in) :: tbl) c'.

(** The header of a message, then its struct. *)
Definition wire_header (v mt : Z) (name : str) (seq : Z) : list byte :=
  canonical (WI16 v) ++ canonical (WI16 mt) ++ canonical (WString name)
  ++ canonical (WI32 seq).

(** [read_type] followed by the loop: how [read_struct] starts and how
    every iteration of its loop ends. *)
Definition read_fields (fuel : nat) (self : nat) (fields : list field)
  : M (list field) :=
  t <- read_type self ;; read_struct_loop fuel self fields t.

(** A reply to ["get"] with sequence id 5: a struct field (id 1) that
    holds the string "hé" (id 7), then the bool true (id 2). *)
Definition sample_struct : list byte :=
  be_bytes 1 12 ++ be_bytes 2 1
  ++ (be_bytes 1 (tag_of (WString [104; 233])) ++ be_bytes 2 7
      ++ canonical (WString [104; 233]) ++ [x00])
  ++ be_bytes 1 (tag_of (WBool true)) ++ be_bytes 2 2
  ++ canonical (WBool true) ++ [x00].

Definition sample_message : list byte :=
  wire_header (-32767) 2 (str_of "get") 5 ++ sample_struct ++ [].

(** A call of ["put"] with sequence id 6: the i16 -2 (id 1) and the string
    "hé" (id 2). *)
Definition sample_flat : list byte :=
  wire_header (-32767) 1 (str_of "put") 6
  ++ (be_bytes 1 (tag_of (WI16 (-2))) ++ be_bytes 2 1
      ++ canonical (WI16 (-2))
      ++ be_bytes 1 (tag_of (WString [104; 233])) ++ be_bytes 2 2
      ++ canonical (WString [104; 233]) ++ [x00])
  ++ [].

(** * How a decode can fail *)

(** The exceptions of a decode once the file is open: a short read or a
    negative string length ([struct.error]), a string length below -1
    ([ValueError]), bytes that are not UTF-8, a tag whose reader is not
    implemented, and a tag byte that is not registered. *)
Definition decode_error (e : exn) : Prop :=
  match e with
  | struct_error | ValueError | UnicodeDecodeError | NotImplementedError =>
    True
  | KeyError t => 0 < t < 256 /\ t ∉ registered
  | AttributeError | FileNotFoundError => False
  end.

Definition errors_ok {A : Type} (r : outcome A) : Prop :=
  match r with
  | Raise e => decode_error e
  | _ => True
  end.

(** [self] dispatches to itself and has an open file. *)
Definition ready (self : nat) (w : World) : Prop :=
  type_handlers w = handlers_of self /\ is_Some (pending self w).

Definition keeps (self : nat) {A : Type} (c : M A) : Prop :=
  forall w, ready self w -> ready self (snd (c w)).

(** * Standard error on the command line *)

(** What decoding a file writes to standard error: the warning, when the
    file has two bytes that are not the version marker. *)
Definition warnings_of (content : option (list byte)) : list str :=
  match content with
  | Some (b0 :: b1 :: _) => if i16_of b0 b1 =? -32767 then [] else [warning]
  | _ => []
  end.

(** The files the loop of [run_app] starts on: all up to the first that
    fails, that one included. *)
Fixpoint attempted {A : Type} (f : string -> result A) (fns : list string)
  : list string :=
  match fns with
  | [] => []
  | fn :: fns' =>
    fn :: match f fn with
          | Done _ => attempted f fns'
          | _ => []
          end
  end.

(** * Runs of a program that uses the class *)

(** The states a program can reach from its start by constructing
    decoders and decoding files with any of them. *)
Inductive reachable (fs : gmap string (list byte)) : World -> Prop :=
| reach_start : reachable fs (initial_world fs)
| reach_new w :
    reachable fs w -> reachable fs (snd (new_ThriftDecoder w))
| reach_decode w self fn :
    reachable fs w -> reachable fs (snd (decode self fn w)).

(** * The fields before a field

    [upto c pre tbl c' k] reads: the bytes [pre] are what the wire format
    puts between the start of a struct and the tag of one of its fields,
    or of a field of a struct nested in it: complete scalar fields,
    complete struct fields, and the tag and id of each of the [k] struct
    fields that are open at that point.  Decoded from the counter [c],
    the complete structs add the entries [tbl] to the table and leave the
    counter at [c']. *)
Inductive upto
  : nat -> list byte -> list (str * value) -> nat -> nat -> Prop :=
| upto_here c : upto c [] [] c 0
| upto_scalar c i v pre tbl c' k :
    - 2 ^ 15 <= i < 2 ^ 15 -> representable v ->
    upto c pre tbl c' k ->
    upto c (be_bytes 1 (tag_of v) ++ be_bytes 2 i ++ canonical v ++ pre)
         tbl c' k
| upto_struct c i inner fs_in tbl_in c1 pre tbl c' k :
    - 2 ^ 15 <= i < 2 ^ 15 ->
    wire c inner fs_in tbl_in c1 ->
    upto (S c1) pre tbl c' k ->
    upto c (be_bytes 1 12 ++ be_bytes 2 i ++ inner ++ pre)
         (tbl_in ++ (struct_name c1, VTuple fs_in) :: tbl) c' k
| upto_inside c i pre tbl c' k :
    - 2 ^ 15 <= i < 2 ^ 15 ->
    upto c pre tbl c' k ->
    upto c (be_bytes 1 12 ++ be_bytes 2 i ++ pre) tbl c' (S k).

(** The tags of the readers that are not implemented. *)
Definition unimplemented : list Z := [4; 13; 14; 15; 16].

(** * Properties *)

(** ** Bytes *)

Section ByteFacts.

Lemma byte_val_range (b : byte) : 0 <= byte_val b < 256.
Proof.
  unfold byte_val. pose proof (Byte.to_N_bounded b). lia.
Qed.

Lemma byte_val_of (z : Z) : 0 <= z < 256 -> byte_val (byte_of z) = z.
Proof.
  intros Hz. unfold byte_val, byte_of.
  destruct (Byte.of_N (Z.to_N z)) as [b|] eqn:E.
  - apply Byte.to_of_N in E. lia.
  - apply Byte.of_N_None_iff in E. lia.
Qed.

Lemma byte_of_val (b : byte) : byte_of (byte_val b) = b.
Proof.
  unfold byte_val, byte_of. rewrite N2Z.id, Byte.of_to_N. reflexivity.
Qed.

Lemma be_unsigned_snoc (bs : list byte) (b : byte) :
  be_unsigned (bs ++ [b]) = be_unsigned bs * 256 + byte_val b.
Proof. unfold be_unsigned. rewrite fold_left_app. reflexivity. Qed.

Lemma length_be_bytes (n : nat) (u : Z) : length (be_bytes n u) = n.
Proof.
  revert u. induction n as [|n IH]; intros u; simpl; [reflexivity|].
  rewrite length_app, IH. simpl. lia.
Qed.

Lemma be_unsigned_be_bytes (n : nat) (u : Z) :
  be_unsigned (be_bytes n u) = u mod 256 ^ Z.of_nat n.
Proof.
  revert u. induction n as [|n IH]; intros u.
  - simpl. rewrite Z.mod_1_r. reflexivity.
  - cbn [be_bytes]. rewrite be_unsigned_snoc, IH.
    rewrite byte_val_of by (apply Z.mod_pos_bound; lia).
    rewrite Nat2Z.inj_succ, Z.pow_succ_r by lia.
    rewrite Z.rem_mul_r by lia. lia.
Qed.

(** Reading back the two's-complement encoding of a signed value. *)
Lemma to_signed_mod (n : nat) (v : Z) :
  (0 < n)%nat ->
  - 2 ^ (8 * Z.of_nat n - 1) <= v < 2 ^ (8 * Z.of_nat n - 1) ->
  to_signed n (v mod 256 ^ Z.of_nat n) = v.
Proof.
  intros Hn Hv. unfold to_signed.
  assert (E : 256 ^ Z.of_nat n = 2 ^ (8 * Z.of_nat n)).
  { change 256 with (2 ^ 8). rewrite <- Z.pow_mul_r by lia. reflexivity. }
  assert (D : 2 ^ (8 * Z.of_nat n) = 2 * 2 ^ (8 * Z.of_nat n - 1)).
  { rewrite <- Z.pow_succ_r by lia. f_equal. lia. }
  rewrite E.
  set (h := 2 ^ (8 * Z.of_nat n - 1)) in *.
  assert (0 < h) by (apply Z.pow_pos_nonneg; lia).
  destruct (Z.le_gt_cases 0 v) as [Hp|Hneg].
  - rewrite Z.mod_small by lia.
    destruct (Z.ltb_spec v h); lia.
  - assert (M : v mod 2 ^ (8 * Z.of_nat n) = v + 2 ^ (8 * Z.of_nat n)).
    { symmetry. apply Z.mod_unique with (q := -1); lia. }
    rewrite M. destruct (Z.ltb_spec (v + 2 ^ (8 * Z.of_nat n)) h); lia.
Qed.

Lemma unpack_one_be_bytes (f : int_format) (v : Z) :
  (if is_signed f
   then - 2 ^ (8 * Z.of_nat (calcsize f) - 1) <= v
        < 2 ^ (8 * Z.of_nat (calcsize f) - 1)
   else 0 <= v < 256 ^ Z.of_nat (calcsize f)) ->
  unpack_one f (be_bytes (calcsize f) v) = Return v.
Proof.
  intros Hv. unfold unpack_one.
  rewrite length_be_bytes, Nat.eqb_refl, be_unsigned_be_bytes.
  destruct (is_signed f).
  - rewrite to_signed_mod; [reflexivity | destruct f; simpl; lia | exact Hv].
  - rewrite Z.mod_small by exact Hv. reflexivity.
Qed.

End ByteFacts.

(** ** UTF-8 *)

Module Utf8Facts.
Import Utf8.

Ltac euclid := Z.div_mod_to_equations; lia.

Ltac split_tests :=
  repeat match goal with
  | |- context [?a =? ?b] =>
      destruct (Z.eqb_spec a b); cbv beta iota; try lia
  | |- context [?a <? ?b] =>
      destruct (Z.ltb_spec a b); cbv beta iota; try lia
  | |- context [?a <=? ?b] =>
      destruct (Z.leb_spec a b); cbv beta iota; try lia
  end.

Lemma decode_1 (b0 : Z) (r : list Z) :
  b0 < 0x80 -> decode (b0 :: r) = cons b0 <$> decode r.
Proof. intros H. cbn [decode]. split_tests; reflexivity. Qed.

Lemma decode_2 (b0 b1 : Z) (r : list Z) :
  0xC2 <= b0 <= 0xDF -> 0x80 <= b1 <= 0xBF ->
  decode (b0 :: b1 :: r)
  = cons ((b0 - 0xC0) * 64 + (b1 - 0x80)) <$> decode r.
Proof.
  intros H0 H1. cbn [decode]. unfold between, is_cont.
  split_tests; reflexivity.
Qed.

Lemma decode_3 (b0 b1 b2 : Z) (r : list Z) :
  0xE0 <= b0 <= 0xEF -> 0x80 <= b1 <= 0xBF -> 0x80 <= b2 <= 0xBF ->
  (b0 = 0xE0 -> 0xA0 <= b1) -> (b0 = 0xED -> b1 <= 0x9F) ->
  decode (b0 :: b1 :: b2 :: r)
  = cons ((b0 - 0xE0) * 4096 + (b1 - 0x80) * 64 + (b2 - 0x80)) <$> decode r.
Proof.
  intros H0 H1 H2 Hlo Hhi. cbn [decode]. unfold between, is_cont.
  split_tests; reflexivity.
Qed.

Lemma decode_4 (b0 b1 b2 b3 : Z) (r : list Z) :
  0xF0 <= b0 <= 0xF4 -> 0x80 <= b1 <= 0xBF -> 0x80 <= b2 <= 0xBF ->
  0x80 <= b3 <= 0xBF ->
  (b0 = 0xF0 -> 0x90 <= b1) -> (b0 = 0xF4 -> b1 <= 0x8F) ->
  decode (b0 :: b1 :: b2 :: b3 :: r)
  = cons ((b0 - 0xF0) * 262144 + (b1 - 0x80) * 4096
          + (b2 - 0x80) * 64 + (b3 - 0x80)) <$> decode r.
Proof.
  intros H0 H1 H2 H3 Hlo Hhi. cbn [decode]. unfold between, is_cont.
  split_tests; reflexivity.
Qed.

Lemma decode_encode_cp (c : Z) (r : list Z) :
  scalar c -> decode (encode_cp c ++ r) = cons c <$> decode r.
Proof.
  intros [Hr Hs]. unfold encode_cp.
  destruct (Z.ltb_spec c 0x80) as [H1|H1];
    [|destruct (Z.ltb_spec c 0x800) as [H2|H2];
      [|destruct (Z.ltb_spec c 0x10000) as [H3|H3]]]; cbn [app].
  - apply decode_1. exact H1.
  - rewrite decode_2 by euclid. f_equal. f_equal. euclid.
  - rewrite decode_3 by euclid. f_equal. f_equal. euclid.
  - rewrite decode_4 by euclid. f_equal. f_equal. euclid.
Qed.

Lemma decode_encode (s : str) : Forall scalar s -> decode (encode s) = Some s.
Proof.
  induction 1 as [|c s Hc Hs IH]; [reflexivity|].
  unfold encode in *. cbn [flat_map].
  rewrite decode_encode_cp, IH by assumption. reflexivity.
Qed.

Lemma encode_cp_bytes (c : Z) :
  scalar c -> Forall (fun z => 0 <= z < 256) (encode_cp c).
Proof.
  intros [Hr Hs]. unfold encode_cp.
  repeat match goal with |- context [?a <? ?b] => destruct (Z.ltb_spec a b) end;
    repeat constructor; euclid.
Qed.

Lemma encode_bytes (s : str) :
  Forall scalar s -> Forall (fun z => 0 <= z < 256) (encode s).
Proof.
  induction 1 as [|c s Hc Hs IH]; [constructor|].
  unfold encode in *. cbn [flat_map].
  apply Forall_app. split; [apply encode_cp_bytes; assumption | exact IH].
Qed.

End Utf8Facts.

Lemma byte_val_of_list (zs : list Z) :
  Forall (fun z => 0 <= z < 256) zs -> byte_val <$> (byte_of <$> zs) = zs.
Proof.
  induction 1 as [|z zs Hz Hzs IH]; [reflexivity|].
  cbn [fmap list_fmap] in *. rewrite byte_val_of by exact Hz.
  f_equal. exact IH.
Qed.

(** ** Composing properties of computations *)

Section Composition.

Context {A B : Type}.
Implicit Types (c : M A) (k : A -> M B).

Lemma bind_inv c k w r w' :
  bind c k w = (r, w') ->
  (exists a w1, c w = (Return a, w1) /\ k a w1 = (r, w'))
  \/ (exists e, c w = (Raise e, w') /\ r = Raise e)
  \/ (c w = (OutOfFuel, w') /\ r = OutOfFuel).
Proof.
  unfold bind. destruct (c w) as [[a|e|] w1]; intros E.
  - left. eauto.
  - right. left. inversion E. eauto.
  - right. right. inversion E. eauto.
Qed.

Lemma preserves_bind {X} (phi : World -> X) c k :
  preserves phi c -> (forall a, preserves phi (k a)) ->
  preserves phi (bind c k).
Proof.
  intros Hc Hk w. unfold bind. specialize (Hc w).
  destruct (c w) as [[a|e|] w1]; cbn in *; try exact Hc.
  rewrite Hk. exact Hc.
Qed.

Lemma shrinks_bind c k :
  shrinks c -> (forall a, shrinks (k a)) -> shrinks (bind c k).
Proof.
  intros Hc Hk w. unfold bind. specialize (Hc w).
  destruct (c w) as [[a|e|] w1]; cbn in *; try exact Hc.
  etransitivity; [apply Hk | exact Hc].
Qed.

Lemma halts_bind c k :
  halts c -> (forall a, halts (k a)) -> halts (bind c k).
Proof.
  intros Hc Hk w. unfold bind. specialize (Hc w).
  destruct (c w) as [[a|e|] w1]; cbn in *; try discriminate.
  - apply Hk.
  - congruence.
Qed.

Lemma refines_bind c1 c2 (k1 k2 : A -> M B) :
  refines c1 c2 -> (forall a, refines (k1 a) (k2 a)) ->
  refines (bind c1 k1) (bind c2 k2).
Proof.
  intros Hc Hk w. unfold bind. specialize (Hc w).
  destruct (c1 w) as [[a|e|] w1] eqn:E1; cbn in *.
  - rewrite Hc by discriminate. apply Hk.
  - rewrite Hc by discriminate. reflexivity.
  - congruence.
Qed.

End Composition.

Lemma refines_refl {A} (c : M A) : refines c c.
Proof. intros w _. reflexivity. Qed.

Lemma sum_list_insert (l : list nat) (i x y : nat) :
  l !! i = Some x -> (sum_list (<[i := y]> l) + x = sum_list l + y)%nat.
Proof.
  revert i. induction l as [|a l IH]; intros [|i] H; try discriminate.
  - cbn in *. injection H as ->. clear IH.
    generalize (sum_list l). intros; lia.
  - cbn in *. specialize (IH _ H).
    rewrite <- !Nat.add_assoc. f_equal. exact IH.
Qed.

Section Primitives.

Implicit Types (w : World) (self o k : nat).

Lemma update_self_eq self (g : ThriftDecoder -> ThriftDecoder) w d :
  heap w !! self = Some d ->
  update_self self g w = (Return tt, set_heap (<[self := g d]> (heap w)) w).
Proof.
  intros Hd. unfold update_self, bind, get_self. rewrite Hd. reflexivity.
Qed.

Lemma update_self_None self (g : ThriftDecoder -> ThriftDecoder) w :
  heap w !! self = None -> update_self self g w = (Raise AttributeError, w).
Proof.
  intros Hd. unfold update_self, bind, get_self. rewrite Hd. reflexivity.
Qed.

Lemma total_unread_insert self w d d' :
  heap w !! self = Some d ->
  (total_unread (set_heap (<[self := d']> (heap w)) w) + unread d
   = total_unread w + unread d')%nat.
Proof.
  intros Hd. unfold total_unread. cbn [set_heap heap].
  rewrite list_fmap_insert. apply sum_list_insert.
  rewrite list_lookup_fmap, Hd. reflexivity.
Qed.

(** What a read does to the world: nothing when it fails, otherwise the
    file moves past the bytes returned. *)
Lemma self_fp_read_effect self n w :
  match self_fp_read self n w with
  | (Return got, w') =>
    w' = advance self (length got) w
    /\ (total_unread w' + length got = total_unread w)%nat
    /\ exists bs, pending self w = Some bs
         /\ got = if n =? -1 then bs else take (Z.to_nat n) bs
  | (Raise e, w') => w' = w
  | (OutOfFuel, _) => False
  end.
Proof.
  unfold self_fp_read, advance, pending, bind, get_self.
  destruct (heap w !! self) as [d|] eqn:Hd; [|reflexivity].
  destruct (fp d) as [f|] eqn:Hf; [|reflexivity].
  unfold fp_read. destruct (Z.ltb_spec n (-1)); [reflexivity|].
  rewrite (update_self_eq _ _ _ _ Hd). cbn.
  split; [reflexivity|]. split; [|eauto].
  set (got := if n =? -1 then _ else _).
  pose proof (total_unread_insert self w d
    (set_fp (Some (mkReader (raw f) (pos f + length got))) d) Hd) as T.
  unfold unread in T at 1 2. rewrite Hf in T. cbn in T.
  unfold remaining in T. cbn in T.
  assert (length got <= length (raw f) - pos f)%nat.
  { subst got. destruct (n =? -1).
    - rewrite length_drop. lia.
    - rewrite length_take, length_drop. lia. }
  lia.
Qed.

End Primitives.

(** ** Reading from the file of an instance *)

Section Reading.

Implicit Types (w : World) (self k : nat) (bs : list byte).

Lemma bind_Return {A B} (c : M A) (k : A -> M B) w a w' :
  c w = (Return a, w') -> bind c k w = k a w'.
Proof. intros E. unfold bind. rewrite E. reflexivity. Qed.

Lemma bind_Raise {A B} (c : M A) (k : A -> M B) w e w' :
  c w = (Raise e, w') -> bind c k w = (Raise e, w').
Proof. intros E. unfold bind. rewrite E. reflexivity. Qed.

Lemma pending_Some self w bs :
  pending self w = Some bs ->
  exists d f, heap w !! self = Some d /\ fp d = Some f
              /\ bs = drop (pos f) (raw f).
Proof.
  unfold pending. destruct (heap w !! self) as [d|]; [|discriminate].
  destruct (fp d) as [f|] eqn:Hf; [|discriminate].
  intros [= <-]. eauto.
Qed.

Lemma pending_advance self k w :
  pending self (advance self k w) = drop k <$> pending self w.
Proof.
  unfold pending, advance.
  destruct (heap w !! self) as [d|] eqn:Hd; [|rewrite Hd; reflexivity].
  destruct (fp d) as [f|] eqn:Hf; [|rewrite Hd, Hf; reflexivity].
  cbn [set_heap heap].
  rewrite list_lookup_insert_eq by (eapply lookup_lt_Some; eassumption).
  cbn. rewrite drop_drop. reflexivity.
Qed.

Lemma advance_advance self k1 k2 w :
  advance self k2 (advance self k1 w) = advance self (k1 + k2) w.
Proof.
  unfold advance.
  destruct (heap w !! self) as [d|] eqn:Hd; [|rewrite Hd; reflexivity].
  destruct (fp d) as [f|] eqn:Hf; [|rewrite Hd, Hf; reflexivity].
  cbn [set_heap heap].
  rewrite list_lookup_insert_eq by (eapply lookup_lt_Some; eassumption).
  cbn. unfold set_heap. cbn. rewrite list_insert_insert_eq.
  unfold set_fp. cbn. rewrite Nat.add_assoc. reflexivity.
Qed.

(** A read of [n >= 0] bytes from an open file returns what is there, up
    to [n] bytes, and moves the position past it. *)
Lemma self_fp_read_pending self n w bs :
  pending self w = Some bs -> 0 <= n ->
  self_fp_read self n w
  = (Return (take (Z.to_nat n) bs),
     advance self (length (take (Z.to_nat n) bs)) w).
Proof.
  intros Hp Hn. destruct (pending_Some _ _ _ Hp) as (d & f & Hd & Hf & ->).
  unfold self_fp_read, advance, bind at 1, get_self.
  rewrite Hd, Hf. unfold fp_read.
  destruct (Z.ltb_spec n (-1)); [lia|].
  destruct (Z.eqb_spec n (-1)); [lia|].
  unfold bind. rewrite (update_self_eq _ _ _ _ Hd). reflexivity.
Qed.

Lemma self_fp_read_refused self n w bs :
  pending self w = Some bs -> n < -1 ->
  self_fp_read self n w = (Raise ValueError, w).
Proof.
  intros Hp Hn. destruct (pending_Some _ _ _ Hp) as (d & f & Hd & Hf & ->).
  unfold self_fp_read, bind at 1, get_self.
  rewrite Hd, Hf. unfold fp_read.
  destruct (Z.ltb_spec n (-1)); [reflexivity|lia].
Qed.

Lemma self_fp_read_all self w bs :
  pending self w = Some bs ->
  self_fp_read self (-1) w = (Return bs, advance self (length bs) w).
Proof.
  intros Hp. destruct (pending_Some _ _ _ Hp) as (d & f & Hd & Hf & ->).
  unfold self_fp_read, advance, bind at 1, get_self.
  rewrite Hd, Hf. unfold fp_read. cbn [Z.ltb Z.eqb Z.compare Pos.compare
    Pos.compare_cont Pos.eqb CompOpp].
  unfold bind. rewrite (update_self_eq _ _ _ _ Hd). reflexivity.
Qed.

Lemma read_int_pending (f : int_format) self w xs bs :
  pending self w = Some (xs ++ bs) -> length xs = calcsize f ->
  read_int f self w = (lift (unpack_one f xs)) (advance self (calcsize f) w).
Proof.
  intros Hp Hl. unfold read_int.
  erewrite bind_Return; [|apply self_fp_read_pending; [eassumption|lia]].
  rewrite Nat2Z.id, <- Hl, take_app_length. reflexivity.
Qed.

End Reading.


(** ** The readers move forward, answer, and touch only instances *)

Section ReaderProperties.

Implicit Types (w : World) (self o k : nat).

Lemma frame_set_heap_insert w o d :
  frame (set_heap (<[o := d]> (heap w)) w) = frame w.
Proof. unfold frame. cbn. rewrite length_insert. reflexivity. Qed.

Lemma frame_advance self k w : frame (advance self k w) = frame w.
Proof.
  unfold advance. destruct (heap w !! self) as [d|]; [|reflexivity].
  destruct (fp d); [apply frame_set_heap_insert|reflexivity].
Qed.

Lemma halts_ret {A} (a : A) : halts (ret a).
Proof. intros w. discriminate. Qed.

Lemma halts_raise {A} e : halts (@raise A e).
Proof. intros w. discriminate. Qed.

Lemma halts_unpack_one f bs : halts (lift (unpack_one f bs)).
Proof. intros w. cbn. unfold unpack_one. destruct (_ =? _)%nat; discriminate. Qed.

Lemma halts_unpack_one_s n bs : halts (lift (unpack_one_s n bs)).
Proof.
  intros w. cbn. unfold unpack_one_s.
  destruct (n <? 0); [discriminate|]. destruct (_ =? n); discriminate.
Qed.

Lemma halts_decode_utf8 bs : halts (lift (decode_utf8 bs)).
Proof. intros w. cbn. unfold decode_utf8. destruct (Utf8.decode _); discriminate. Qed.

Lemma shrinks_pure {A} (r : outcome A) : shrinks (lift r).
Proof. intros w. reflexivity. Qed.

Lemma preserves_pure {A X} (phi : World -> X) (r : outcome A) :
  preserves phi (lift r).
Proof. intros w. reflexivity. Qed.

Lemma halts_self_fp_read self n : halts (self_fp_read self n).
Proof.
  intros w. pose proof (self_fp_read_effect self n w) as H.
  destruct (self_fp_read self n w) as [[got|e|] w']; cbn; try discriminate.
  destruct H.
Qed.

Lemma shrinks_self_fp_read self n : shrinks (self_fp_read self n).
Proof.
  intros w. pose proof (self_fp_read_effect self n w) as H.
  destruct (self_fp_read self n w) as [[got|e|] w']; cbn.
  - destruct H as (_ & H & _). lia.
  - subst. reflexivity.
  - destruct H.
Qed.

Lemma frame_self_fp_read self n : preserves frame (self_fp_read self n).
Proof.
  intros w. pose proof (self_fp_read_effect self n w) as H.
  destruct (self_fp_read self n w) as [[got|e|] w']; cbn.
  - destruct H as (-> & _). apply frame_advance.
  - subst. reflexivity.
  - destruct H.
Qed.

Lemma halts_update_self self g : halts (update_self self g).
Proof.
  intros w. destruct (heap w !! self) as [d|] eqn:Hd.
  - rewrite (update_self_eq _ _ _ _ Hd). discriminate.
  - rewrite update_self_None by assumption. discriminate.
Qed.

Lemma shrinks_update_self self g :
  (forall d, unread (g d) = unread d) -> shrinks (update_self self g).
Proof.
  intros Hg w. destruct (heap w !! self) as [d|] eqn:Hd.
  - rewrite (update_self_eq _ _ _ _ Hd). cbn [snd].
    pose proof (total_unread_insert self w d (g d) Hd). rewrite Hg in *. lia.
  - rewrite update_self_None by assumption. reflexivity.
Qed.

Lemma frame_update_self self g : preserves frame (update_self self g).
Proof.
  intros w. destruct (heap w !! self) as [d|] eqn:Hd.
  - rewrite (update_self_eq _ _ _ _ Hd). apply frame_set_heap_insert.
  - rewrite update_self_None by assumption. reflexivity.
Qed.

Lemma halts_get_self self : halts (get_self self).
Proof. intros w. unfold get_self. destruct (heap w !! self); discriminate. Qed.

Lemma shrinks_get_self self : shrinks (get_self self).
Proof. intros w. unfold get_self. destruct (heap w !! self); reflexivity. Qed.

Lemma preserves_get_self {X} (phi : World -> X) self :
  preserves phi (get_self self).
Proof. intros w. unfold get_self. destruct (heap w !! self); reflexivity. Qed.

Lemma halts_lookup_handler t : halts (lookup_handler t).
Proof.
  intros w. unfold lookup_handler. destruct (type_handlers w !! t); discriminate.
Qed.

Lemma shrinks_lookup_handler t : shrinks (lookup_handler t).
Proof.
  intros w. unfold lookup_handler. destruct (type_handlers w !! t); reflexivity.
Qed.

Lemma preserves_lookup_handler {X} (phi : World -> X) t :
  preserves phi (lookup_handler t).
Proof.
  intros w. unfold lookup_handler. destruct (type_handlers w !! t); reflexivity.
Qed.

Lemma shrinks_print_stderr s : shrinks (print_stderr s).
Proof. intros w. reflexivity. Qed.

Lemma halts_print_stderr s : halts (print_stderr s).
Proof. intros w. discriminate. Qed.

End ReaderProperties.

Create HintDb readers discriminated.

#[export] Hint Resolve
  halts_ret halts_raise halts_unpack_one halts_unpack_one_s halts_decode_utf8
  shrinks_pure preserves_pure halts_self_fp_read shrinks_self_fp_read
  frame_self_fp_read halts_update_self frame_update_self
  halts_get_self shrinks_get_self preserves_get_self
  halts_lookup_handler shrinks_lookup_handler preserves_lookup_handler
  shrinks_print_stderr halts_print_stderr : readers.

Ltac readers :=
  unfold read_bool, read_type, read_field_id, read_byte, read_i16, read_i32,
    read_i64, read_string, read_double, read_map, read_set, read_list,
    read_enum, read_int, ret, raise;
  repeat first
    [ progress intros
    | solve [auto with readers nocore]
    | match goal with
      | |- shrinks (update_self _ _) =>
          apply shrinks_update_self; intros ?; reflexivity
      | |- halts (lift (Return _)) => intros ?; discriminate
      | |- halts (lift (Raise _)) => intros ?; discriminate
      | |- halts (fun w => (Return _, w)) => intros ?; discriminate
      | |- halts (fun w => (Raise _, w)) => intros ?; discriminate
      | |- shrinks (fun w => (_, w)) => intros ?; reflexivity
      | |- preserves _ (fun w => (_, w)) => intros ?; reflexivity
      end
    | apply halts_bind | apply shrinks_bind | apply preserves_bind ].

Section ReaderSummary.

Implicit Types (self : nat).

Lemma halts_read_int f self : halts (read_int f self).
Proof. readers. Qed.
Lemma shrinks_read_int f self : shrinks (read_int f self).
Proof. readers. Qed.
Lemma frame_read_int f self : preserves frame (read_int f self).
Proof. readers. Qed.

Lemma halts_read_string self : halts (read_string self).
Proof. readers. Qed.
Lemma shrinks_read_string self : shrinks (read_string self).
Proof. readers. Qed.
Lemma frame_read_string self : preserves frame (read_string self).
Proof. readers. Qed.

Lemma halts_read_bool self : halts (read_bool self).
Proof. readers. Qed.
Lemma shrinks_read_bool self : shrinks (read_bool self).
Proof. readers. Qed.
Lemma frame_read_bool self : preserves frame (read_bool self).
Proof. readers. Qed.

Lemma halts_record_field self i t v : halts (record_field self i t v).
Proof. unfold record_field. destruct (t =? 12); readers. Qed.
Lemma shrinks_record_field self i t v : shrinks (record_field self i t v).
Proof. unfold record_field. destruct (t =? 12); readers. Qed.
Lemma frame_record_field self i t v :
  preserves frame (record_field self i t v).
Proof. unfold record_field. destruct (t =? 12); readers. Qed.

End ReaderSummary.

(** ** [read_struct]: the recursion budget is enough *)

Section Fuel.

Implicit Types (w : World) (self o fuel : nat) (fields : list field).

Lemma read_struct_loop_0 self fields t :
  read_struct_loop 0 self fields t
  = if t =? 0 then ret fields else fun w => (OutOfFuel, w).
Proof. reflexivity. Qed.

Lemma read_struct_loop_S fuel self fields t :
  read_struct_loop (S fuel) self fields t
  = if t =? 0 then ret fields
    else
      field_id <- read_field_id self ;;
      h <- lookup_handler t ;;
      field_data <-
        call_handler
          (fun o => t0 <- read_type o ;; read_struct_loop fuel o [] t0) h ;;
      f <- record_field self field_id t field_data ;;
      t' <- read_type self ;;
      read_struct_loop fuel self (fields ++ [f]) t'.
Proof. reflexivity. Qed.

Lemma shrinks_call_handler rs h :
  (forall o, shrinks (rs o)) -> shrinks (call_handler rs h).
Proof. intros Hrs. unfold call_handler. destruct (snd h); readers. Qed.

Lemma frame_call_handler rs h :
  (forall o, preserves frame (rs o)) -> preserves frame (call_handler rs h).
Proof. intros Hrs. unfold call_handler. destruct (snd h); readers. Qed.

Lemma refines_call_handler rs1 rs2 h :
  (forall o, refines (rs1 o) (rs2 o)) ->
  refines (call_handler rs1 h) (call_handler rs2 h).
Proof.
  intros Hrs. unfold call_handler.
  destruct (snd h); try apply refines_refl.
  apply refines_bind; [apply Hrs | intros; apply refines_refl].
Qed.

Lemma shrinks_read_struct_loop fuel self fields t :
  shrinks (read_struct_loop fuel self fields t).
Proof.
  revert self fields t. induction fuel as [|fuel IH]; intros self fields t.
  - rewrite read_struct_loop_0. destruct (t =? 0); readers.
  - rewrite read_struct_loop_S. destruct (t =? 0); [readers|].
    apply shrinks_bind; [readers|intros field_id].
    apply shrinks_bind; [readers|intros h].
    apply shrinks_bind.
    { apply shrinks_call_handler. intros o.
      apply shrinks_bind; [readers|intros t0; apply IH]. }
    intros field_data.
    apply shrinks_bind; [apply shrinks_record_field|intros f].
    apply shrinks_bind; [readers|intros t'; apply IH].
Qed.

Lemma frame_read_struct_loop fuel self fields t :
  preserves frame (read_struct_loop fuel self fields t).
Proof.
  revert self fields t. induction fuel as [|fuel IH]; intros self fields t.
  - rewrite read_struct_loop_0. destruct (t =? 0); readers.
  - rewrite read_struct_loop_S. destruct (t =? 0); [readers|].
    apply preserves_bind; [readers|intros field_id].
    apply preserves_bind; [readers|intros h].
    apply preserves_bind.
    { apply frame_call_handler. intros o.
      apply preserves_bind; [readers|intros t0; apply IH]. }
    intros field_data.
    apply preserves_bind; [apply frame_record_field|intros f].
    apply preserves_bind; [readers|intros t'; apply IH].
Qed.

(** A larger budget does not change an answer. *)
Lemma refines_read_struct_loop_S fuel self fields t :
  refines (read_struct_loop fuel self fields t)
          (read_struct_loop (S fuel) self fields t).
Proof.
  revert self fields t. induction fuel as [|fuel IH]; intros self fields t.
  - rewrite read_struct_loop_S, read_struct_loop_0.
    destruct (t =? 0); [apply refines_refl|]. intros w H. cbn in H. congruence.
  - rewrite (read_struct_loop_S (S fuel)), (read_struct_loop_S fuel).
    destruct (t =? 0); [apply refines_refl|].
    apply refines_bind; [apply refines_refl|intros field_id].
    apply refines_bind; [apply refines_refl|intros h].
    apply refines_bind.
    { apply refines_call_handler. intros o.
      apply refines_bind; [apply refines_refl|intros t0; apply IH]. }
    intros field_data.
    apply refines_bind; [apply refines_refl|intros f].
    apply refines_bind; [apply refines_refl|intros t'; apply IH].
Qed.

Lemma refines_read_struct_loop fuel fuel' self fields t :
  (fuel <= fuel')%nat ->
  refines (read_struct_loop fuel self fields t)
          (read_struct_loop fuel' self fields t).
Proof.
  induction 1 as [|fuel' Hle IH]; [apply refines_refl|].
  intros w Hw. rewrite <- (IH w Hw).
  apply refines_read_struct_loop_S. rewrite (IH w Hw). exact Hw.
Qed.

Lemma bind_halts_at {A B} (c : M A) (k : A -> M B) w :
  fst (c w) <> OutOfFuel ->
  (forall a w1, c w = (Return a, w1) -> fst (k a w1) <> OutOfFuel) ->
  fst (bind c k w) <> OutOfFuel.
Proof.
  intros Hc Hk. unfold bind.
  destruct (c w) as [[a|e|] w1]; cbn in *; try discriminate; auto.
Qed.

Lemma shrinks_at {A} (c : M A) w r w' :
  shrinks c -> c w = (r, w') -> (total_unread w' <= total_unread w)%nat.
Proof. intros Hs E. specialize (Hs w). rewrite E in Hs. exact Hs. Qed.

Lemma unpack_one_Return f bs v :
  unpack_one f bs = Return v -> length bs = calcsize f.
Proof.
  unfold unpack_one. destruct (Nat.eqb_spec (length bs) (calcsize f));
    [auto|discriminate].
Qed.

(** A successful integer read consumes exactly the size of its format. *)
Lemma read_int_consumes f self w v w' :
  read_int f self w = (Return v, w') ->
  (total_unread w' + calcsize f = total_unread w)%nat.
Proof.
  unfold read_int. intros E.
  apply bind_inv in E as [(bs & w1 & E1 & E2)|[(e & _ & [=])|(_ & [=])]].
  pose proof (self_fp_read_effect self (Z.of_nat (calcsize f)) w) as H.
  rewrite E1 in H. destruct H as (_ & H & _).
  unfold lift in E2. injection E2 as E2 <-.
  apply unpack_one_Return in E2. lia.
Qed.

Lemma halts_call_handler_at rs h w :
  (forall o, fst (rs o w) <> OutOfFuel) ->
  fst (call_handler rs h w) <> OutOfFuel.
Proof.
  intros Hrs. unfold call_handler.
  destruct (snd h);
    try (apply bind_halts_at; [|intros; discriminate]);
    try apply halts_read_bool; try apply (halts_read_int fmt_B);
    try apply (halts_read_int fmt_h); try apply (halts_read_int fmt_i);
    try apply (halts_read_int fmt_q); try apply halts_read_string;
    try apply Hrs; discriminate.
Qed.

(** With more budget than unread bytes the loop gives an answer. *)
Lemma read_struct_loop_halts fuel self fields t w :
  (total_unread w < fuel)%nat ->
  fst (read_struct_loop fuel self fields t w) <> OutOfFuel.
Proof.
  revert self fields t w.
  induction fuel as [|fuel IH]; intros self fields t w Hw; [lia|].
  rewrite read_struct_loop_S. destruct (t =? 0); [discriminate|].
  apply bind_halts_at; [apply (halts_read_int fmt_h)|intros field_id w1 E1].
  apply (read_int_consumes fmt_h) in E1. cbn in E1.
  apply bind_halts_at; [apply halts_lookup_handler|intros h w2 E2].
  apply (shrinks_at _ _ _ _ (shrinks_lookup_handler t)) in E2.
  apply bind_halts_at.
  { apply halts_call_handler_at. intros o.
    apply bind_halts_at; [apply (halts_read_int fmt_B)|intros t0 w3 E3].
    apply (shrinks_at _ _ _ _ (shrinks_read_int fmt_B o)) in E3.
    apply IH. lia. }
  intros field_data w3 E3.
  apply shrinks_at in E3;
    [|apply shrinks_call_handler; intros o; apply shrinks_bind;
      [apply (shrinks_read_int fmt_B)
      |intros; apply shrinks_read_struct_loop]].
  apply bind_halts_at; [apply halts_record_field|intros f w4 E4].
  apply (shrinks_at _ _ _ _ (shrinks_record_field _ _ _ _)) in E4.
  apply bind_halts_at; [apply (halts_read_int fmt_B)|intros t' w5 E5].
  apply (shrinks_at _ _ _ _ (shrinks_read_int fmt_B self)) in E5.
  apply IH. lia.
Qed.

(** [read_struct] always gives an answer ... *)
Lemma halts_read_struct self : halts (read_struct self).
Proof.
  intros w. unfold read_struct, read_struct_fuel.
  apply bind_halts_at; [apply (halts_read_int fmt_B)|intros t w1 E1].
  apply (shrinks_at _ _ _ _ (shrinks_read_int fmt_B self)) in E1.
  apply read_struct_loop_halts. lia.
Qed.

(** ... and it is the answer of every budget that gives one. *)
Lemma read_struct_fuel_stable fuel self w :
  fst (read_struct_fuel fuel self w) <> OutOfFuel ->
  read_struct_fuel fuel self w = read_struct self w.
Proof.
  intros H. unfold read_struct.
  destruct (Nat.le_ge_cases fuel (S (total_unread w))) as [Hle|Hge].
  - symmetry. revert H. unfold read_struct_fuel.
    apply refines_bind; [apply refines_refl|].
    intros t. apply refines_read_struct_loop. exact Hle.
  - pose proof (halts_read_struct self w) as Hh. revert Hh.
    unfold read_struct, read_struct_fuel.
    apply refines_bind; [apply refines_refl|].
    intros t. apply refines_read_struct_loop. exact Hge.
Qed.

Lemma shrinks_read_struct self : shrinks (read_struct self).
Proof.
  intros w. unfold read_struct, read_struct_fuel.
  apply shrinks_bind; [readers|intros; apply shrinks_read_struct_loop].
Qed.

Lemma frame_read_struct self : preserves frame (read_struct self).
Proof.
  intros w. unfold read_struct, read_struct_fuel.
  apply preserves_bind; [readers|intros; apply frame_read_struct_loop].
Qed.

End Fuel.

(** ** Stepping through a buffer *)

Section Steps.

Implicit Types (w : World) (self : nat) (rest : list byte).

Lemma read_int_be_bytes (f : int_format) self w v rest :
  (if is_signed f
   then - 2 ^ (8 * Z.of_nat (calcsize f) - 1) <= v
        < 2 ^ (8 * Z.of_nat (calcsize f) - 1)
   else 0 <= v < 256 ^ Z.of_nat (calcsize f)) ->
  pending self w = Some (be_bytes (calcsize f) v ++ rest) ->
  read_int f self w = (Return v, advance self (calcsize f) w).
Proof.
  intros Hv Hp.
  erewrite read_int_pending; [|eassumption|apply length_be_bytes].
  rewrite unpack_one_be_bytes by exact Hv. reflexivity.
Qed.

Lemma read_byte_be_bytes self w v rest :
  0 <= v < 2 ^ 8 -> pending self w = Some (be_bytes 1 v ++ rest) ->
  read_byte self w = (Return v, advance self 1 w).
Proof.
  intros Hv Hp.
  apply (read_int_be_bytes fmt_B _ _ _ rest); [cbn in *; lia|exact Hp].
Qed.

Lemma read_i16_be_bytes self w v rest :
  - 2 ^ 15 <= v < 2 ^ 15 -> pending self w = Some (be_bytes 2 v ++ rest) ->
  read_i16 self w = (Return v, advance self 2 w).
Proof.
  intros Hv Hp.
  apply (read_int_be_bytes fmt_h _ _ _ rest); [cbn in *; lia|exact Hp].
Qed.

Lemma read_i32_be_bytes self w v rest :
  - 2 ^ 31 <= v < 2 ^ 31 -> pending self w = Some (be_bytes 4 v ++ rest) ->
  read_i32 self w = (Return v, advance self 4 w).
Proof.
  intros Hv Hp.
  apply (read_int_be_bytes fmt_i _ _ _ rest); [cbn in *; lia|exact Hp].
Qed.

Lemma read_i64_be_bytes self w v rest :
  - 2 ^ 63 <= v < 2 ^ 63 -> pending self w = Some (be_bytes 8 v ++ rest) ->
  read_i64 self w = (Return v, advance self 8 w).
Proof.
  intros Hv Hp.
  apply (read_int_be_bytes fmt_q _ _ _ rest); [cbn in *; lia|exact Hp].
Qed.

Lemma read_byte_cons self w b rest :
  pending self w = Some (b :: rest) ->
  read_byte self w = (Return (byte_val b), advance self 1 w).
Proof.
  intros Hp. apply (read_int_pending fmt_B self w [b] rest Hp eq_refl).
Qed.

Lemma read_bool_cons self w b rest :
  pending self w = Some (b :: rest) ->
  read_bool self w = (Return (negb (byte_val b =? 0)), advance self 1 w).
Proof.
  intros Hp. unfold read_bool.
  erewrite bind_Return by (eapply read_byte_cons; exact Hp). reflexivity.
Qed.

Lemma decode_utf8_utf8_bytes (s : str) :
  Forall Utf8.scalar s -> decode_utf8 (utf8_bytes s) = Return s.
Proof.
  intros Hs. unfold decode_utf8, utf8_bytes.
  rewrite byte_val_of_list by (apply Utf8Facts.encode_bytes; exact Hs).
  rewrite Utf8Facts.decode_encode by exact Hs. reflexivity.
Qed.

(** Every way a string read can go, after its length [L] has been read. *)
Lemma read_string_pending self w L rest :
  - 2 ^ 31 <= L < 2 ^ 31 ->
  pending self w = Some (be_bytes 4 L ++ rest) ->
  read_string self w =
    if L <? -1 then (Raise ValueError, advance self 4 w)
    else if L =? -1 then
      (Raise struct_error, advance self (4 + length rest) w)
    else if Z.of_nat (length rest) <? L then
      (Raise struct_error, advance self (4 + length rest) w)
    else (decode_utf8 (take (Z.to_nat L) rest),
          advance self (4 + Z.to_nat L) w).
Proof.
  intros HL Hp. unfold read_string.
  erewrite bind_Return by (eapply read_i32_be_bytes; eassumption).
  assert (Hp' : pending self (advance self 4 w) = Some rest).
  { rewrite pending_advance, Hp. cbn [fmap option_fmap option_map].
    rewrite <- (length_be_bytes 4 L) at 1.
    rewrite drop_app_length. reflexivity. }
  destruct (Z.ltb_spec L (-1)) as [Hlt|Hge].
  { erewrite bind_Raise; [reflexivity|].
    eapply self_fp_read_refused; eassumption. }
  destruct (Z.eqb_spec L (-1)) as [->|Hne].
  { erewrite bind_Return by (apply self_fp_read_all; exact Hp').
    rewrite advance_advance. reflexivity. }
  erewrite bind_Return by (apply self_fp_read_pending; [exact Hp'|lia]).
  rewrite advance_advance, length_take.
  unfold unpack_one_s. destruct (Z.ltb_spec L 0); [lia|].
  rewrite length_take.
  destruct (Z.ltb_spec (Z.of_nat (length rest)) L) as [Hs|Hs].
  - destruct (Z.eqb_spec (Z.of_nat (Z.to_nat L `min` length rest)) L);
      [lia|].
    cbn. do 2 f_equal. lia.
  - destruct (Z.eqb_spec (Z.of_nat (Z.to_nat L `min` length rest)) L);
      [|lia].
    unfold bind, lift. do 2 f_equal. lia.
Qed.

End Steps.

(** ** A new decoder *)

Section NewDecoder.

Lemma type_handlers_new w :
  type_handlers (snd (new_ThriftDecoder w)) =
  let self := length (heap w) in
  <[16 := (self, read_enum_m)]> (<[15 := (self, read_list_m)]>
  (<[14 := (self, read_set_m)]> (<[13 := (self, read_map_m)]>
  (<[12 := (self, read_struct_m)]> (<[11 := (self, read_string_m)]>
  (<[10 := (self, read_i64_m)]> (<[8 := (self, read_i32_m)]>
  (<[6 := (self, read_i16_m)]> (<[4 := (self, read_double_m)]>
  (<[3 := (self, read_byte_m)]> (<[2 := (self, read_bool_m)]>
    (type_handlers w)))))))))))).
Proof. reflexivity. Qed.

Lemma opened_eq buf :
  opened buf =
  mkWorld (type_handlers (snd (new_ThriftDecoder (initial_world (input buf)))))
          (type_names (snd (new_ThriftDecoder (initial_world (input buf)))))
          (message_types (snd (new_ThriftDecoder (initial_world (input buf)))))
          [mkDecoder [] [] (Some (mkReader buf 0)) None None None None 0]
          [] (input buf).
Proof.
  unfold opened, bind, new_ThriftDecoder, open_rb. cbn [initial_world heap files length snd fst type_handlers type_names message_types stderr app].
  unfold input. rewrite lookup_singleton_eq.
  rewrite (update_self_eq _ _ _ (mkDecoder [] [] None None None None None 0)) by reflexivity.
  reflexivity.
Qed.
Lemma unregistered_opened buf t :
  t ∉ registered -> type_handlers (opened buf) !! t = None.
Proof.
  intros Ht. rewrite opened_eq. cbn [type_handlers].
  rewrite type_handlers_new. cbv zeta.
  unfold registered in Ht.
  repeat (rewrite lookup_insert_ne; [|intros <-; apply Ht; set_solver]).
  apply lookup_empty.
Qed.

End NewDecoder.

(** ** Synthetic names *)

Section Names.

Lemma str_of_inj (s1 s2 : string) : str_of s1 = str_of s2 -> s1 = s2.
Proof.
  revert s2. induction s1 as [|a s1 IH]; intros [|b s2] H; cbn in H;
    try discriminate; [reflexivity|].
  injection H as Hab Hs. f_equal; [|apply IH; exact Hs].
  apply N2Z.inj in Hab.
  rewrite <- (ascii_N_embedding a), <- (ascii_N_embedding b), Hab.
  reflexivity.
Qed.

Lemma struct_name_inj (n m : nat) : struct_name n = struct_name m -> n = m.
Proof.
  unfold struct_name. intros H. apply str_of_inj in H.
  cbn in H. injection H as H. exact (pretty_nat_inj _ _ H).
Qed.

Lemma increasing_mono lo hi hi' ns :
  increasing lo hi ns -> (hi <= hi')%nat -> increasing lo hi' ns.
Proof.
  revert lo. induction ns as [|n ns IH]; intros lo H Hle; [exact I|].
  destruct H as [Hn H]. split; [lia|]. apply IH; assumption.
Qed.

Lemma increasing_snoc lo hi hi' ns n :
  increasing lo hi ns -> (lo <= n)%nat -> (hi <= n < hi')%nat ->
  increasing lo hi' (ns ++ [n]).
Proof.
  revert lo. induction ns as [|n0 ns IH]; intros lo H Hlo Hn.
  - cbn. split; [lia|exact I].
  - destruct H as [Hn0 H]. cbn. split; [lia|]. apply IH; [exact H|lia|lia].
Qed.

Lemma struct_refs_app fs1 fs2 :
  struct_refs (fs1 ++ fs2) = struct_refs fs1 ++ struct_refs fs2.
Proof.
  induction fs1 as [|[[i t] v] fs1 IH]; [reflexivity|].
  cbn. destruct (t =? 12); cbn; rewrite IH; reflexivity.
Qed.

Lemma numbered_nil hi : numbered hi [].
Proof. exists []. split; [reflexivity|exact I]. Qed.

Lemma numbered_mono hi hi' fs :
  numbered hi fs -> (hi <= hi')%nat -> numbered hi' fs.
Proof.
  intros (ns & E & H) Hle. exists ns. split; [exact E|].
  eapply increasing_mono; eassumption.
Qed.

Lemma numbered_snoc_other hi fs i t v :
  numbered hi fs -> t <> 12 -> numbered hi (fs ++ [(i, t, v)]).
Proof.
  intros (ns & E & H) Ht. exists ns. split; [|exact H].
  rewrite struct_refs_app, E. cbn.
  destruct (Z.eqb_spec t 12); [contradiction|]. apply app_nil_r.
Qed.

Lemma numbered_snoc_struct hi fs i n :
  numbered hi fs -> (hi <= n)%nat ->
  numbered (S n) (fs ++ [(i, 12, VStr (struct_name n))]).
Proof.
  intros (ns & E & H) Hn. exists (ns ++ [n]). split.
  - rewrite struct_refs_app, E, fmap_app. reflexivity.
  - eapply increasing_snoc; [exact H|lia|lia].
Qed.

Lemma odict_set_fresh k v (tbl : list (str * value)) :
  k ∉ fst <$> tbl -> odict_set k v tbl = tbl ++ [(k, v)].
Proof.
  induction tbl as [|[k' v'] tbl IH]; intros Hk; [reflexivity|].
  cbn in *. destruct (decide (k' = k)) as [->|Hne].
  - exfalso. apply Hk. left.
  - rewrite IH; [reflexivity|]. intros Hin. apply Hk. right. exact Hin.
Qed.

Lemma struct_name_fresh c : struct_name c ∉ struct_name <$> seq 0 c.
Proof.
  intros Hin. apply list_elem_of_fmap in Hin as (n & E & Hn).
  apply struct_name_inj in E. subst n.
  apply elem_of_seq in Hn. lia.
Qed.

(** Recording a struct that refers to structs below [c] keeps the table
    in order. *)
Lemma table_ok_snoc tbl c fs :
  table_ok tbl c -> numbered c fs ->
  table_ok (odict_set (struct_name c) (VTuple fs) tbl) (S c).
Proof.
  intros [Hk Hv] Hfs.
  rewrite odict_set_fresh by (rewrite Hk; apply struct_name_fresh).
  assert (Hlen : length tbl = c).
  { rewrite <- (length_fmap fst tbl), Hk, length_fmap, length_seq.
    reflexivity. }
  split.
  - rewrite fmap_app, Hk, seq_S, fmap_app. reflexivity.
  - intros i k v Hi. destruct (decide (i < length tbl)%nat) as [Hlt|Hge].
    + rewrite lookup_app_l in Hi by exact Hlt. eapply Hv. exact Hi.
    + rewrite lookup_app_r in Hi by lia.
      destruct (i - length tbl)%nat as [|j] eqn:Ej; [|discriminate].
      cbn in Hi. injection Hi as <- <-.
      exists fs. split; [reflexivity|].
      replace i with c by lia. exact Hfs.
Qed.

Lemma table_ok_NoDup tbl c : table_ok tbl c -> NoDup (fst <$> tbl).
Proof.
  intros [Hk _]. rewrite Hk. apply NoDup_fmap_2; [|apply NoDup_seq].
  intros n m. apply struct_name_inj.
Qed.

End Names.

(** ** Reading does not touch the table of structs *)

Section Own.

Implicit Types (w : World) (self o k : nat).

Lemma own_set_heap_insert self o w d d' :
  heap w !! o = Some d ->
  structs d' = structs d ->
  struct_name_counter d' = struct_name_counter d ->
  own self (set_heap (<[o := d']> (heap w)) w) = own self w.
Proof.
  intros Hd Hs Hc. unfold own. cbn [set_heap heap type_handlers]. f_equal.
  destruct (decide (o = self)) as [->|Hne].
  - rewrite list_lookup_insert_eq by (eapply lookup_lt_Some; exact Hd).
    rewrite Hd. cbn. rewrite Hs, Hc. reflexivity.
  - rewrite list_lookup_insert_ne by exact Hne. reflexivity.
Qed.

Lemma own_advance self o k w : own self (advance o k w) = own self w.
Proof.
  unfold advance. destruct (heap w !! o) as [d|] eqn:Hd; [|reflexivity].
  destruct (fp d) as [f|]; [|reflexivity].
  eapply own_set_heap_insert; [exact Hd|reflexivity|reflexivity].
Qed.

Lemma own_self_fp_read self o n : preserves (own self) (self_fp_read o n).
Proof.
  intros w. pose proof (self_fp_read_effect o n w) as H.
  destruct (self_fp_read o n w) as [[got|e|] w']; cbn.
  - destruct H as (-> & _). apply own_advance.
  - subst. reflexivity.
  - destruct H.
Qed.

Lemma own_update_self self o g :
  (forall d, structs (g d) = structs d
             /\ struct_name_counter (g d) = struct_name_counter d) ->
  preserves (own self) (update_self o g).
Proof.
  intros Hg w. destruct (heap w !! o) as [d|] eqn:Hd.
  - rewrite (update_self_eq _ _ _ _ Hd). cbn [snd].
    eapply own_set_heap_insert; [exact Hd|apply Hg|apply Hg].
  - rewrite update_self_None by assumption. reflexivity.
Qed.

Lemma own_print_stderr self s : preserves (own self) (print_stderr s).
Proof. intros w. reflexivity. Qed.

End Own.

#[export] Hint Resolve own_self_fp_read own_print_stderr : readers.

Ltac readers_own :=
  unfold read_bool, read_type, read_field_id, read_byte, read_i16, read_i32,
    read_i64, read_string, read_double, read_map, read_set, read_list,
    read_enum, read_int, ret, raise;
  repeat first
    [ progress intros
    | solve [auto with readers nocore]
    | match goal with
      | |- preserves (own _) (update_self _ _) =>
          apply own_update_self; intros ?; split; reflexivity
      | |- preserves _ (fun w => (_, w)) => intros ?; reflexivity
      end
    | apply preserves_bind ].

Section OwnReaders.

Implicit Types (w : World) (self o : nat).

Lemma own_read_int self f o : preserves (own self) (read_int f o).
Proof. readers_own. Qed.

Lemma own_read_string self o : preserves (own self) (read_string o).
Proof. readers_own. Qed.

Lemma own_read_bool self o : preserves (own self) (read_bool o).
Proof. readers_own. Qed.

Lemma own_call_handler self rs o m :
  m <> read_struct_m -> preserves (own self) (call_handler rs (o, m)).
Proof.
  intros Hm. unfold call_handler. cbn [fst snd].
  destruct m; try contradiction; readers_own.
Qed.

Lemma preserves_at {A X} (phi : World -> X) (c : M A) w r w' :
  preserves phi c -> c w = (r, w') -> phi w' = phi w.
Proof. intros Hc E. specialize (Hc w). rewrite E in Hc. exact Hc. Qed.

Lemma bind_Return_inv {A B} (c : M A) (k : A -> M B) w b w' :
  bind c k w = (Return b, w') ->
  exists a w1, c w = (Return a, w1) /\ k a w1 = (Return b, w').
Proof.
  intros E. apply bind_inv in E as [H|[(e & _ & [=])|(_ & [=])]]. exact H.
Qed.

Lemma good_own self w w' c : own self w' = own self w -> good self w c -> good self w' c.
Proof. intros E (tbl & H & Ht). exists tbl. rewrite E. auto. Qed.

Lemma handlers_of_lookup self t h :
  handlers_of self !! t = Some h ->
  fst h = self /\ (t = 12 -> snd h = read_struct_m).
Proof.
  unfold handlers_of. intros H.
  repeat (rewrite lookup_insert in H;
          destruct (decide (_ = t)) as [<-|?];
          [injection H as <-; split; [reflexivity|intros [=]; reflexivity]|]).
  rewrite lookup_empty in H. discriminate.
Qed.

(** What recording a field does when the table is in order. *)
Lemma record_field_good self w c i t v f w' :
  good self w c ->
  (t = 12 -> exists fs, v = VTuple fs /\ numbered c fs) ->
  record_field self i t v w = (Return f, w') ->
  if t =? 12
  then f = (i, 12, VStr (struct_name c)) /\ good self w' (S c)
  else f = (i, t, v) /\ w' = w.
Proof.
  intros (tbl & Ho & Ht) Hv. unfold record_field.
  destruct (Z.eqb_spec t 12) as [->|Hne].
  2:{ intros [= <- <-]. auto. }
  destruct (Hv eq_refl) as (fs & -> & Hfs).
  unfold own in Ho. injection Ho as Hh Hd.
  destruct (heap w !! self) as [d|] eqn:Ed; [|discriminate].
  cbn in Hd. injection Hd as Hs Hc.
  unfold bind at 1, get_self. rewrite Ed.
  unfold bind at 1. rewrite (update_self_eq _ _ _ _ Ed).
  set (w1 := set_heap _ w).
  assert (E1 : heap w1 !! self = Some
                 (set_struct_name_counter (S (struct_name_counter d)) d)).
  { subst w1. cbn. apply list_lookup_insert_eq.
    eapply lookup_lt_Some. exact Ed. }
  unfold bind. rewrite (update_self_eq _ _ _ _ E1). unfold ret.
  intros [= <- <-]. rewrite Hc. split; [reflexivity|].
  exists (odict_set (struct_name c) (VTuple fs) tbl). split.
  - subst w1. unfold own. cbn. rewrite list_insert_insert_eq.
    rewrite list_lookup_insert_eq by (eapply lookup_lt_Some; exact Ed).
    cbn. rewrite Hh, Hs. reflexivity.
  - apply table_ok_snoc; assumption.
Qed.

(** The loop of [read_struct] numbers the structs it meets, each after the
    structs inside it, and keeps the table in order. *)
Lemma read_struct_loop_good fuel self fields t w c fs w' :
  good self w c -> numbered c fields ->
  read_struct_loop fuel self fields t w = (Return fs, w') ->
  exists c', (c <= c')%nat /\ good self w' c' /\ numbered c' fs.
Proof.
  revert self fields t w c fs w'.
  induction fuel as [|fuel IH]; intros self fields t w c fs w' Hg Hn.
  { rewrite read_struct_loop_0. destruct (t =? 0); [|discriminate].
    intros [= <- <-]. eauto. }
  rewrite read_struct_loop_S. destruct (t =? 0).
  { intros [= <- <-]. eauto. }
  intros E.
  apply bind_Return_inv in E as (field_id & w1 & E1 & E).
  apply bind_Return_inv in E as (h & w2 & E2 & E).
  apply bind_Return_inv in E as (field_data & w3 & E3 & E).
  apply bind_Return_inv in E as (f & w4 & E4 & E).
  apply bind_Return_inv in E as (t' & w5 & E5 & E).
  apply (preserves_at _ _ _ _ _ (own_read_int self fmt_h self)) in E1.
  apply (good_own _ _ _ _ E1) in Hg. clear E1.
  assert (Hh : handlers_of self !! t = Some h /\ w2 = w1).
  { destruct Hg as (tbl & Ho & _). injection Ho as Hh _.
    unfold lookup_handler in E2. rewrite Hh in E2.
    destruct (handlers_of self !! t); [|discriminate].
    injection E2 as <- <-. auto. }
  destruct Hh as [Hh ->]. clear E2.
  apply handlers_of_lookup in Hh as [Ho Hm]. destruct h as [o m].
  cbn in Ho, Hm. subst o.
  assert (H3 : exists c3, (c <= c3)%nat /\ good self w3 c3
             /\ (m = read_struct_m ->
                 exists fs0, field_data = VTuple fs0 /\ numbered c3 fs0)).
  { destruct (decide (m = read_struct_m)) as [->|Hne].
    - unfold call_handler in E3. cbn [fst snd] in E3.
      apply bind_Return_inv in E3 as (fs0 & w3' & E3 & [= <- <-]).
      apply bind_Return_inv in E3 as (t0 & w2' & E0 & E3).
      apply (preserves_at _ _ _ _ _ (own_read_int self fmt_B self)) in E0.
      apply (good_own _ _ _ _ E0) in Hg.
      destruct (IH _ _ _ _ _ _ _ Hg (numbered_nil c) E3)
        as (c3 & Hc3 & Hg3 & Hn3).
      exists c3. split; [exact Hc3|]. split; [exact Hg3|]. eauto.
    - apply (preserves_at _ _ _ _ _ (own_call_handler self _ self m Hne))
        in E3.
      exists c. split; [lia|]. split; [eapply good_own; eassumption|].
      intros; contradiction. }
  destruct H3 as (c3 & Hc3 & Hg3 & Hv).
  pose proof (record_field_good self w3 c3 field_id t field_data f w4 Hg3)
    as Hr.
  specialize (Hr (fun Ht => Hv (Hm Ht)) E4).
  assert (H4 : exists c4, (c3 <= c4)%nat /\ good self w4 c4
                          /\ numbered c4 (fields ++ [f])).
  { destruct (Z.eqb_spec t 12) as [->|Hne].
    - destruct Hr as [-> Hg4]. exists (S c3).
      split; [lia|]. split; [exact Hg4|].
      apply (numbered_snoc_struct c); [exact Hn|exact Hc3].
    - destruct Hr as [-> ->]. exists c3.
      split; [lia|]. split; [exact Hg3|].
      apply numbered_snoc_other; [|exact Hne].
      eapply numbered_mono; eassumption. }
  destruct H4 as (c4 & Hc4 & Hg4 & Hn4).
  apply (preserves_at _ _ _ _ _ (own_read_int self fmt_B self)) in E5.
  apply (good_own _ _ _ _ E5) in Hg4.
  destruct (IH _ _ _ _ _ _ _ Hg4 Hn4 E) as (c' & Hc' & Hg' & Hn').
  exists c'. split; [lia|]. auto.
Qed.

End OwnReaders.

(** ** The whole decode *)

Section Decode.

Implicit Types (w : World) (self : nat).

Lemma decode_fresh_eq buf : decode_fresh buf = read_header 0 (opened buf).
Proof.
  rewrite opened_eq.
  unfold decode_fresh, decode, bind, new_ThriftDecoder, open_rb.
  cbn [initial_world heap files length snd fst type_handlers type_names
       message_types stderr app].
  unfold input. rewrite lookup_singleton_eq.
  rewrite (update_self_eq _ _ _ (mkDecoder [] [] None None None None None 0))
    by reflexivity.
  reflexivity.
Qed.

Lemma good_opened buf : good 0 (opened buf) 0.
Proof.
  exists []. split; [|split; [reflexivity|intros i k v [=]]].
  rewrite opened_eq. reflexivity.
Qed.

Lemma read_struct_good self w c fs w' :
  good self w c ->
  read_struct self w = (Return fs, w') ->
  exists c', (c <= c')%nat /\ good self w' c' /\ numbered c' fs.
Proof.
  intros Hg E. unfold read_struct, read_struct_fuel in E.
  apply bind_Return_inv in E as (t & w1 & E1 & E).
  apply (preserves_at _ _ _ _ _ (own_read_int self fmt_B self)) in E1.
  apply (good_own _ _ _ _ E1) in Hg.
  eapply read_struct_loop_good; [exact Hg|apply numbered_nil|exact E].
Qed.

Ltac keep_good Hg E :=
  eapply (preserves_at (own _)) in E; [|solve [readers_own]];
  apply (good_own _ _ _ _ E) in Hg; clear E.

(** After a successful [read_header] the table of structs is in order and
    the fields of the message refer to it. *)
Lemma read_header_good self w c w' :
  good self w c ->
  read_header self w = (Return tt, w') ->
  exists d,
    heap w' !! self = Some d
    /\ (c <= struct_name_counter d)%nat
    /\ table_ok (structs d) (struct_name_counter d)
    /\ numbered (struct_name_counter d) (fields d).
Proof.
  intros Hg E. unfold read_header in E.
  apply bind_Return_inv in E as (v & w1 & E1 & E).
  keep_good Hg E1.
  apply bind_Return_inv in E as ([] & w2 & E2 & E).
  keep_good Hg E2.
  apply bind_Return_inv in E as (expected & w3 & E3 & E).
  keep_good Hg E3.
  apply bind_Return_inv in E as ([] & w4 & E4 & E).
  assert (Hg4 : good self w4 c).
  { destruct (negb (v =? expected)); keep_good Hg E4; exact Hg. }
  clear E4 Hg.
  apply bind_Return_inv in E as (mt & w5 & E5 & E).
  keep_good Hg4 E5.
  apply bind_Return_inv in E as ([] & w6 & E6 & E).
  keep_good Hg4 E6.
  apply bind_Return_inv in E as (name & w7 & E7 & E).
  keep_good Hg4 E7.
  apply bind_Return_inv in E as ([] & w8 & E8 & E).
  keep_good Hg4 E8.
  apply bind_Return_inv in E as (seq & w9 & E9 & E).
  keep_good Hg4 E9.
  apply bind_Return_inv in E as ([] & w10 & E10 & E).
  keep_good Hg4 E10.
  apply bind_Return_inv in E as (fs & w11 & E11 & E).
  destruct (read_struct_good _ _ _ _ _ Hg4 E11) as (c' & Hc & Hg' & Hn).
  destruct Hg' as (tbl & Ho & Ht). unfold own in Ho. injection Ho as Hh Hd.
  destruct (heap w11 !! self) as [d|] eqn:Ed; [|discriminate].
  cbn in Hd. injection Hd as Hs Hcd.
  rewrite (update_self_eq _ _ _ _ Ed) in E. injection E as <-.
  exists (set_fields fs d). split.
  { cbn. apply list_lookup_insert_eq. eapply lookup_lt_Some. exact Ed. }
  cbn. rewrite Hs, Hcd. auto.
Qed.

End Decode.

(** ** Properties that every step of a decode has *)

Section Compositional.

Variable P : forall A : Type, M A -> Prop.
Hypothesis P_bind :
  forall A B (c : M A) (k : A -> M B),
    P A c -> (forall a, P B (k a)) -> P B (bind c k).
Hypothesis P_lift : forall A (r : outcome A), P A (lift r).
Hypothesis P_read : forall o n, P _ (self_fp_read o n).
Hypothesis P_lookup : forall t, P _ (lookup_handler t).
Hypothesis P_record : forall self i t v, P _ (record_field self i t v).

Lemma all_read_int f o : P _ (read_int f o).
Proof. unfold read_int. apply P_bind; [apply P_read|intros; apply P_lift]. Qed.

Lemma all_read_string o : P _ (read_string o).
Proof.
  unfold read_string.
  apply P_bind; [apply (all_read_int fmt_i)|intros L].
  apply P_bind; [apply P_read|intros bs].
  apply P_bind; intros; apply P_lift.
Qed.

Lemma all_read_bool o : P _ (read_bool o).
Proof.
  unfold read_bool.
  apply P_bind; [apply (all_read_int fmt_B)|intros; apply (P_lift _ (Return _))].
Qed.

Lemma all_call_handler rs h :
  (forall o, P _ (rs o)) -> P _ (call_handler rs h).
Proof.
  intros Hrs. unfold call_handler.
  destruct (snd h);
    try (apply P_bind; [|intros; apply (P_lift _ (Return _))]);
    try apply (P_lift _ (Raise NotImplementedError));
    first [ apply all_read_bool | apply (all_read_int fmt_B)
          | apply (all_read_int fmt_h) | apply (all_read_int fmt_i)
          | apply (all_read_int fmt_q) | apply all_read_string | apply Hrs ].
Qed.

Lemma all_read_struct_loop fuel self fields t :
  P _ (read_struct_loop fuel self fields t).
Proof.
  revert self fields t. induction fuel as [|fuel IH]; intros self fields t.
  - rewrite read_struct_loop_0.
    destruct (t =? 0);
      [apply (P_lift _ (Return _))|apply (P_lift _ OutOfFuel)].
  - rewrite read_struct_loop_S.
    destruct (t =? 0); [apply (P_lift _ (Return _))|].
    apply P_bind; [apply (all_read_int fmt_h)|intros field_id].
    apply P_bind; [apply P_lookup|intros h].
    apply P_bind.
    { apply all_call_handler. intros o.
      apply P_bind; [apply (all_read_int fmt_B)|intros t0; apply IH]. }
    intros field_data.
    apply P_bind; [apply P_record|intros f].
    apply P_bind; [apply (all_read_int fmt_B)|intros t'; apply IH].
Qed.

Lemma all_read_struct_fuel fuel self : P _ (read_struct_fuel fuel self).
Proof.
  unfold read_struct_fuel.
  apply P_bind; [apply (all_read_int fmt_B)|intros; apply all_read_struct_loop].
Qed.

End Compositional.

(** ** Attributes that reading leaves alone *)

Section Observations.

Context {X : Type} (p : ThriftDecoder -> X).
Hypothesis p_fp : forall d f, p (set_fp f d) = p d.
Hypothesis p_structs : forall d s, p (set_structs s d) = p d.
Hypothesis p_counter : forall d c, p (set_struct_name_counter c d) = p d.

Implicit Types (w : World) (self o k : nat).

Lemma obs_set_heap_insert self o w d d' :
  heap w !! o = Some d -> p d' = p d ->
  obs p self (set_heap (<[o := d']> (heap w)) w) = obs p self w.
Proof.
  intros Hd Hp. unfold obs. cbn [set_heap heap].
  destruct (decide (o = self)) as [->|Hne].
  - rewrite list_lookup_insert_eq by (eapply lookup_lt_Some; exact Hd).
    rewrite Hd. cbn. rewrite Hp. reflexivity.
  - rewrite list_lookup_insert_ne by exact Hne. reflexivity.
Qed.

Lemma obs_advance self o k w : obs p self (advance o k w) = obs p self w.
Proof.
  unfold advance. destruct (heap w !! o) as [d|] eqn:Hd; [|reflexivity].
  destruct (fp d) as [f|]; [|reflexivity].
  eapply obs_set_heap_insert; [exact Hd|apply p_fp].
Qed.

Lemma obs_self_fp_read self o n : preserves (obs p self) (self_fp_read o n).
Proof.
  intros w. pose proof (self_fp_read_effect o n w) as H.
  destruct (self_fp_read o n w) as [[got|e|] w']; cbn.
  - destruct H as (-> & _). apply obs_advance.
  - subst. reflexivity.
  - destruct H.
Qed.

Lemma obs_update_self self o g :
  (forall d, p (g d) = p d) -> preserves (obs p self) (update_self o g).
Proof.
  intros Hg w. destruct (heap w !! o) as [d|] eqn:Hd.
  - rewrite (update_self_eq _ _ _ _ Hd). cbn [snd].
    eapply obs_set_heap_insert; [exact Hd|apply Hg].
  - rewrite update_self_None by assumption. reflexivity.
Qed.

Lemma obs_record_field self o i t v :
  preserves (obs p self) (record_field o i t v).
Proof.
  unfold record_field. destruct (t =? 12).
  - apply preserves_bind; [apply preserves_get_self|intros d].
    apply preserves_bind;
      [apply obs_update_self; intros; apply p_counter|intros _].
    apply preserves_bind;
      [apply obs_update_self; intros; apply p_structs|intros _].
    intros w. reflexivity.
  - intros w. reflexivity.
Qed.

Lemma obs_read_int self f o : preserves (obs p self) (read_int f o).
Proof.
  apply (all_read_int (fun A c => preserves (obs p self) c)).
  - intros; apply preserves_bind; assumption.
  - intros; apply preserves_pure.
  - intros; apply obs_self_fp_read.
Qed.

Lemma obs_read_string self o : preserves (obs p self) (read_string o).
Proof.
  apply (all_read_string (fun A c => preserves (obs p self) c)).
  - intros; apply preserves_bind; assumption.
  - intros; apply preserves_pure.
  - intros; apply obs_self_fp_read.
Qed.

Lemma obs_read_struct self o : preserves (obs p self) (read_struct o).
Proof.
  intros w. unfold read_struct.
  apply (all_read_struct_fuel (fun A c => preserves (obs p self) c)).
  - intros; apply preserves_bind; assumption.
  - intros; apply preserves_pure.
  - intros; apply obs_self_fp_read.
  - intros; apply preserves_lookup_handler.
  - intros; apply obs_record_field.
Qed.

End Observations.

(** ** The decode depends only on what is still to be read *)

Section Forget.

Variable keep : bool.

Implicit Types (w : World) (self o k : nat) (d : ThriftDecoder).

Lemma forget_decoder_idem d :
  forget_decoder keep (forget_decoder keep d) = forget_decoder keep d.
Proof.
  unfold forget_decoder. cbn. destruct (fp d); destruct keep; reflexivity.
Qed.

Lemma forget_idem w : forget keep (forget keep w) = forget keep w.
Proof.
  unfold forget. cbn. f_equal. rewrite <- list_fmap_compose.
  apply list_fmap_ext. intros i d _. apply forget_decoder_idem.
Qed.

Lemma heap_forget o w :
  heap (forget keep w) !! o = forget_decoder keep <$> heap w !! o.
Proof. unfold forget. cbn. apply list_lookup_fmap. Qed.

Lemma pending_forget o w : pending o (forget keep w) = pending o w.
Proof.
  unfold pending. rewrite heap_forget.
  destruct (heap w !! o) as [d|]; [|reflexivity]. cbn.
  destruct (fp d) as [f|]; reflexivity.
Qed.

Lemma unread_forget_decoder d : unread (forget_decoder keep d) = unread d.
Proof.
  unfold unread, forget_decoder. cbn. destruct (fp d) as [f|]; [|reflexivity].
  cbn. unfold remaining, rebase. cbn. rewrite length_drop. lia.
Qed.

Lemma total_unread_forget w : total_unread (forget keep w) = total_unread w.
Proof.
  unfold total_unread, forget. cbn. rewrite <- list_fmap_compose.
  f_equal. apply list_fmap_ext. intros i d _. apply unread_forget_decoder.
Qed.

Lemma forget_set_heap_insert o w d1 d2 :
  forget_decoder keep d1 = forget_decoder keep d2 ->
  forget keep (set_heap (<[o := d1]> (heap (forget keep w))) (forget keep w))
  = forget keep (set_heap (<[o := d2]> (heap w)) w).
Proof.
  intros E. unfold forget. cbn. f_equal.
  rewrite !list_fmap_insert, E. f_equal.
  rewrite <- list_fmap_compose.
  apply list_fmap_ext. intros i d _. apply forget_decoder_idem.
Qed.

Lemma forget_advance o k w :
  forget keep (advance o k (forget keep w)) = forget keep (advance o k w).
Proof.
  unfold advance. rewrite heap_forget.
  destruct (heap w !! o) as [d|]; [|apply forget_idem]. cbn.
  destruct (fp d) as [f|] eqn:Hf; [|apply forget_idem]. cbn.
  apply forget_set_heap_insert.
  unfold forget_decoder, rebase. cbn. rewrite drop_drop.
  destruct keep; reflexivity.
Qed.

Lemma respects_binary {A} (c : M A) w1 w2 :
  respects keep c -> forget keep w1 = forget keep w2 ->
  fst (c w1) = fst (c w2)
  /\ forget keep (snd (c w1)) = forget keep (snd (c w2)).
Proof.
  intros Hc E. destruct (Hc w1) as [R1 F1]. destruct (Hc w2) as [R2 F2].
  rewrite E in R1, F1. split; congruence.
Qed.

Lemma respects_bind {A B} (c : M A) (k : A -> M B) :
  respects keep c -> (forall a, respects keep (k a)) ->
  respects keep (bind c k).
Proof.
  intros Hc Hk w. destruct (Hc w) as [R F]. unfold bind.
  destruct (c (forget keep w)) as [r1 w1], (c w) as [r2 w2].
  cbn in R, F. subst r2.
  destruct r1 as [a|e|]; cbn [fst snd]; [|auto|auto].
  apply respects_binary; [apply Hk|exact F].
Qed.

Lemma respects_lift {A} (r : outcome A) : respects keep (lift r).
Proof. intros w. split; [reflexivity|apply forget_idem]. Qed.

Lemma respects_lookup_handler t : respects keep (lookup_handler t).
Proof.
  intros w. unfold lookup_handler. cbn [forget type_handlers].
  destruct (type_handlers w !! t); (split; [reflexivity|apply forget_idem]).
Qed.

Lemma respects_print_stderr s : respects keep (print_stderr s).
Proof. intros w. split; [reflexivity|exact (forget_idem w)]. Qed.

Lemma self_fp_read_eq o n w :
  self_fp_read o n w =
  match pending o w with
  | None => (Raise AttributeError, w)
  | Some bs =>
    if n <? -1 then (Raise ValueError, w)
    else
      let got := if n =? -1 then bs else take (Z.to_nat n) bs in
      (Return got, advance o (length got) w)
  end.
Proof.
  unfold self_fp_read, pending, advance, bind at 1, get_self.
  destruct (heap w !! o) as [d|] eqn:Hd; [|reflexivity].
  destruct (fp d) as [f|] eqn:Hf; [|reflexivity].
  unfold fp_read. destruct (n <? -1); [reflexivity|].
  unfold bind. rewrite (update_self_eq _ _ _ _ Hd). reflexivity.
Qed.

Lemma respects_self_fp_read o n : respects keep (self_fp_read o n).
Proof.
  intros w. rewrite !self_fp_read_eq, pending_forget.
  destruct (pending o w) as [bs|]; [|split; [reflexivity|apply forget_idem]].
  destruct (n <? -1); [split; [reflexivity|apply forget_idem]|].
  split; [reflexivity|apply forget_advance].
Qed.

Lemma respects_update_self o g :
  (forall d, forget_decoder keep (g (forget_decoder keep d))
             = forget_decoder keep (g d)) ->
  respects keep (update_self o g).
Proof.
  intros Hg w. destruct (heap w !! o) as [d|] eqn:Hd.
  - rewrite (update_self_eq _ _ _ _ Hd).
    rewrite (update_self_eq _ _ (forget keep w) (forget_decoder keep d))
      by (rewrite heap_forget, Hd; reflexivity).
    split; [reflexivity|]. cbn [snd]. apply forget_set_heap_insert. apply Hg.
  - rewrite (update_self_None _ _ _ Hd).
    rewrite update_self_None by (rewrite heap_forget, Hd; reflexivity).
    split; [reflexivity|apply forget_idem].
Qed.

Lemma respects_record_field self i t v :
  respects keep (record_field self i t v).
Proof.
  unfold record_field. destruct (t =? 12); [|apply (respects_lift (Return _))].
  intros w. destruct (heap w !! self) as [d|] eqn:Hd.
  - rewrite (bind_Return _ _ w d w)
      by (unfold get_self; rewrite Hd; reflexivity).
    rewrite (bind_Return _ _ (forget keep w) (forget_decoder keep d)
               (forget keep w))
      by (unfold get_self; rewrite heap_forget, Hd; reflexivity).
    cbn [forget_decoder struct_name_counter].
    apply respects_bind.
    { apply respects_update_self. intros d0. unfold forget_decoder. cbn.
      destruct (fp d0), keep; reflexivity. }
    intros _. apply respects_bind.
    { apply respects_update_self. intros d0. unfold forget_decoder. cbn.
      destruct (fp d0), keep; reflexivity. }
    intros _. apply (respects_lift (Return _)).
  - rewrite (bind_Raise _ _ w AttributeError w)
      by (unfold get_self; rewrite Hd; reflexivity).
    rewrite (bind_Raise _ _ (forget keep w) AttributeError (forget keep w))
      by (unfold get_self; rewrite heap_forget, Hd; reflexivity).
    split; [reflexivity|apply forget_idem].
Qed.

Lemma respects_read_int f o : respects keep (read_int f o).
Proof.
  apply (all_read_int (fun A c => respects keep c)).
  - intros; apply respects_bind; assumption.
  - intros; apply respects_lift.
  - intros; apply respects_self_fp_read.
Qed.

Lemma respects_read_string o : respects keep (read_string o).
Proof.
  apply (all_read_string (fun A c => respects keep c)).
  - intros; apply respects_bind; assumption.
  - intros; apply respects_lift.
  - intros; apply respects_self_fp_read.
Qed.

Lemma respects_read_struct self : respects keep (read_struct self).
Proof.
  intros w. unfold read_struct. rewrite total_unread_forget.
  apply (all_read_struct_fuel (fun A c => respects keep c)).
  - intros; apply respects_bind; assumption.
  - intros; apply respects_lift.
  - intros; apply respects_self_fp_read.
  - intros; apply respects_lookup_handler.
  - intros; apply respects_record_field.
Qed.

End Forget.

(** ** [read_header] in three parts *)

Section Header.

Implicit Types (w : World) (self : nat).

Lemma bind_assoc {A B C} (c : M A) (k : A -> M B) (h : B -> M C) w :
  bind (bind c k) h w = bind c (fun a => bind (k a) h) w.
Proof. unfold bind. destruct (c w) as [[a|e|] w1]; reflexivity. Qed.

Lemma bind_ext {A B} (c : M A) (k1 k2 : A -> M B) w :
  (forall a w', k1 a w' = k2 a w') -> bind c k1 w = bind c k2 w.
Proof. intros H. unfold bind. destruct (c w) as [[a|e|] w1]; auto. Qed.

Lemma read_header_split self w :
  read_header self w
  = (read_header_version self ;;;
     read_header_type self ;;;
     read_header_body self) w.
Proof.
  unfold read_header, read_header_version, read_header_type.
  rewrite bind_assoc. apply bind_ext. intros v w1.
  rewrite bind_assoc. apply bind_ext. intros [] w2.
  rewrite bind_assoc. apply bind_ext. intros expected w3.
  apply bind_ext. intros [] w4.
  rewrite bind_assoc. apply bind_ext. intros mt w5.
  reflexivity.
Qed.

Lemma opened_explicit buf :
  opened buf =
  mkWorld (handlers_of 0) (type_names (opened [])) (message_types (opened []))
          [mkDecoder [] [] (Some (mkReader buf 0)) None None None None 0]
          [] (input buf).
Proof. rewrite (opened_eq buf), (opened_eq []). reflexivity. Qed.

Lemma pending_opened buf : pending 0 (opened buf) = Some buf.
Proof. rewrite opened_explicit. reflexivity. Qed.

(** The marker [80 01] is the only one that reads as -32767. *)
Lemma i16_of_marker b0 b1 : i16_of b0 b1 = -32767 -> b0 = x80 /\ b1 = x01.
Proof.
  unfold i16_of, to_signed, be_unsigned. cbn [fold_left].
  pose proof (byte_val_range b0). pose proof (byte_val_range b1).
  change (2 ^ (8 * Z.of_nat 2 - 1)) with 32768.
  change (2 ^ (8 * Z.of_nat 2)) with 65536.
  intros E.
  assert (byte_val b0 = 128 /\ byte_val b1 = 1) as [E0 E1].
  { destruct (Z.ltb_spec ((0 * 256 + byte_val b0) * 256 + byte_val b1) 32768);
      lia. }
  rewrite <- (byte_of_val b0), <- (byte_of_val b1), E0, E1.
  split; reflexivity.
Qed.

(** The world after the version of an opened message has been read. *)
Lemma read_header_version_opened b0 b1 rest :
  read_header_version 0 (opened (b0 :: b1 :: rest))
  = (Return tt,
     mkWorld (handlers_of 0) (type_names (opened []))
       (message_types (opened []))
       [mkDecoder [] [] (Some (mkReader (b0 :: b1 :: rest) 2))
          (Some (i16_of b0 b1)) None None None 0]
       (if i16_of b0 b1 =? -32767 then [] else [warning])
       (input (b0 :: b1 :: rest))).
Proof.
  rewrite opened_explicit. unfold read_header_version.
  rewrite (bind_Return _ _ _ (i16_of b0 b1)
    (mkWorld (handlers_of 0) (type_names (opened []))
       (message_types (opened []))
       [mkDecoder [] [] (Some (mkReader (b0 :: b1 :: rest) 2))
          None None None None 0]
       [] (input (b0 :: b1 :: rest)))) by reflexivity.
  rewrite (bind_Return _ _ _ tt
    (mkWorld (handlers_of 0) (type_names (opened []))
       (message_types (opened []))
       [mkDecoder [] [] (Some (mkReader (b0 :: b1 :: rest) 2))
          (Some (i16_of b0 b1)) None None None 0]
       [] (input (b0 :: b1 :: rest)))) by reflexivity.
  rewrite (bind_Return _ _ _ (-32767) _) by reflexivity.
  destruct (i16_of b0 b1 =? -32767); reflexivity.
Qed.

(** ... and after its message type has been read. *)
Lemma read_header_type_opened b0 b1 k0 k1 rest (err : list str) :
  read_header_type 0
    (mkWorld (handlers_of 0) (type_names (opened []))
       (message_types (opened []))
       [mkDecoder [] [] (Some (mkReader (b0 :: b1 :: k0 :: k1 :: rest) 2))
          (Some (i16_of b0 b1)) None None None 0]
       err (input (b0 :: b1 :: k0 :: k1 :: rest)))
  = (Return tt,
     mkWorld (handlers_of 0) (type_names (opened []))
       (message_types (opened []))
       [mkDecoder [] [] (Some (mkReader (b0 :: b1 :: k0 :: k1 :: rest) 4))
          (Some (i16_of b0 b1)) (Some (i16_of k0 k1)) None None 0]
       err (input (b0 :: b1 :: k0 :: k1 :: rest))).
Proof.
  unfold read_header_type.
  rewrite (bind_Return _ _ _ (i16_of k0 k1)
    (mkWorld (handlers_of 0) (type_names (opened []))
       (message_types (opened []))
       [mkDecoder [] [] (Some (mkReader (b0 :: b1 :: k0 :: k1 :: rest) 4))
          (Some (i16_of b0 b1)) None None None 0]
       err (input (b0 :: b1 :: k0 :: k1 :: rest)))) by reflexivity.
  reflexivity.
Qed.

Lemma respects_read_header_body keep self :
  respects keep (read_header_body self).
Proof.
  unfold read_header_body.
  apply respects_bind; [apply respects_read_string|intros name].
  apply respects_bind.
  { apply respects_update_self. intros d. unfold forget_decoder. cbn.
    destruct (fp d), keep; reflexivity. }
  intros _.
  apply respects_bind; [apply (respects_read_int keep fmt_i)|intros seq].
  apply respects_bind.
  { apply respects_update_self. intros d. unfold forget_decoder. cbn.
    destruct (fp d), keep; reflexivity. }
  intros _.
  apply respects_bind; [apply respects_read_struct|intros fs].
  apply respects_update_self. intros d. unfold forget_decoder. cbn.
  destruct (fp d), keep; reflexivity.
Qed.

Lemma respects_read_header_type self :
  respects true (read_header_type self).
Proof.
  unfold read_header_type.
  apply respects_bind; [apply (respects_read_int true fmt_h)|intros mt].
  apply respects_update_self. intros d. unfold forget_decoder. cbn.
  destruct (fp d); reflexivity.
Qed.

Lemma frame_read_header_body self : preserves frame (read_header_body self).
Proof.
  unfold read_header_body.
  apply preserves_bind; [apply frame_read_string|intros name].
  apply preserves_bind; [apply frame_update_self|intros _].
  apply preserves_bind; [apply (frame_read_int fmt_i)|intros seq].
  apply preserves_bind; [apply frame_update_self|intros _].
  apply preserves_bind; [apply frame_read_struct|intros fs].
  apply frame_update_self.
Qed.

Lemma frame_read_header_type self : preserves frame (read_header_type self).
Proof.
  unfold read_header_type.
  apply preserves_bind; [apply (frame_read_int fmt_h)|intros mt].
  apply frame_update_self.
Qed.

(** The body leaves version and message type as they are, the message
    type part leaves the version. *)
Lemma obs_read_header_body {X} (p : ThriftDecoder -> X) self o :
  (forall d f, p (set_fp f d) = p d) ->
  (forall d s, p (set_structs s d) = p d) ->
  (forall d c, p (set_struct_name_counter c d) = p d) ->
  (forall d v, p (set_method_name v d) = p d) ->
  (forall d v, p (set_sequence_id v d) = p d) ->
  (forall d v, p (set_fields v d) = p d) ->
  preserves (obs p self) (read_header_body o).
Proof.
  intros H1 H2 H3 H4 H5 H6. unfold read_header_body.
  apply preserves_bind; [apply obs_read_string; assumption|intros name].
  apply preserves_bind; [apply obs_update_self; auto|intros _].
  apply preserves_bind; [apply (obs_read_int p H1 self fmt_i)|intros seq].
  apply preserves_bind; [apply obs_update_self; auto|intros _].
  apply preserves_bind; [apply obs_read_struct; assumption|intros fs].
  apply obs_update_self; auto.
Qed.

Lemma version_read_header_type self o :
  preserves (obs version self) (read_header_type o).
Proof.
  unfold read_header_type.
  apply preserves_bind;
    [apply (obs_read_int version (fun _ _ => eq_refl) self fmt_h)|intros mt].
  apply obs_update_self. reflexivity.
Qed.

(** What equal worlds under [forget] agree on. *)
Lemma forget_agree keep w1 w2 o :
  forget keep w1 = forget keep w2 ->
  obs envelope o w1 = obs envelope o w2
  /\ pending o w1 = pending o w2
  /\ (keep = true -> obs message_type o w1 = obs message_type o w2).
Proof.
  intros E.
  assert (H : forget_decoder keep <$> heap w1 !! o
              = forget_decoder keep <$> heap w2 !! o).
  { rewrite <- !heap_forget, E. reflexivity. }
  split; [|split].
  - unfold obs.
    destruct (heap w1 !! o) as [d1|], (heap w2 !! o) as [d2|];
      try discriminate; [|reflexivity].
    cbn in *. assert (Hd : forget_decoder keep d1 = forget_decoder keep d2)
      by congruence.
    change (envelope d1) with (envelope (forget_decoder keep d1)).
    rewrite Hd. reflexivity.
  - rewrite <- (pending_forget keep o w1), <- (pending_forget keep o w2), E.
    reflexivity.
  - intros ->. unfold obs.
    destruct (heap w1 !! o) as [d1|], (heap w2 !! o) as [d2|];
      try discriminate; [|reflexivity].
    cbn in *. assert (Hd : forget_decoder true d1 = forget_decoder true d2)
      by congruence.
    change (message_type d1) with (message_type (forget_decoder true d1)).
    rewrite Hd. reflexivity.
Qed.

End Header.

Lemma stderr_frame w1 w2 : frame w1 = frame w2 -> stderr w1 = stderr w2.
Proof. unfold frame. intros [=]. assumption. Qed.

(** ** Every decode gives an answer *)

Section Totality.

Lemma halts_read_header self : halts (read_header self).
Proof.
  unfold read_header.
  apply halts_bind; [apply (halts_read_int fmt_h)|intros v].
  apply halts_bind; [apply halts_update_self|intros _].
  apply halts_bind; [apply halts_unpack_one|intros expected].
  apply halts_bind.
  { destruct (negb (v =? expected));
      [apply halts_print_stderr|apply halts_ret]. }
  intros _.
  apply halts_bind; [apply (halts_read_int fmt_h)|intros mt].
  apply halts_bind; [apply halts_update_self|intros _].
  apply halts_bind; [apply halts_read_string|intros name].
  apply halts_bind; [apply halts_update_self|intros _].
  apply halts_bind; [apply (halts_read_int fmt_i)|intros seq].
  apply halts_bind; [apply halts_update_self|intros _].
  apply halts_bind; [apply halts_read_struct|intros fs].
  apply halts_update_self.
Qed.

Lemma halts_decode self fn : halts (decode self fn).
Proof.
  unfold decode. apply halts_bind.
  { intros w. unfold open_rb. destruct (files w !! fn); discriminate. }
  intros f. apply halts_bind; [apply halts_update_self|intros _].
  apply halts_read_header.
Qed.

Lemma decode_fresh_answers buf : fst (decode_fresh buf) <> OutOfFuel.
Proof. rewrite decode_fresh_eq. apply halts_read_header. Qed.

End Totality.

(** * The decoder against its specification *)

(** ** The end-to-end scenario *)

(** C1. Decoding the seventeen bytes [80 01 00 01 00 00 00 04 70 69 6E 67
    00 00 00 2A 00] with a new decoder succeeds: version -32767, message
    type 1 (which the class names "call"), method name "ping", sequence id
    42, no field and no nested struct; the file is read to its end, the
    last byte read being the stop byte of the empty struct, and nothing is
    written to standard error. *)
Theorem decode_ping :
  exists w d f,
    decode_fresh ping = (Return tt, w)
    /\ heap w = [d]
    /\ version d = Some (-32767)
    /\ message_type d = Some 1
    /\ message_types w !! 1 = Some (str_of "call")
    /\ method_name d = Some (str_of "ping")
    /\ sequence_id d = Some 42
    /\ fields d = []
    /\ structs d = []
    /\ fp d = Some f /\ raw f = ping /\ pos f = 17%nat
    /\ pending 0 w = Some []
    /\ stderr w = [].
Proof.
  do 3 eexists. split; [vm_compute; reflexivity|].
  repeat split; reflexivity.
Qed.

(** ** Wire types without a reader *)

(** C2 fails as stated: an enum holding 7 is not read as the i32 7, and a
    message with an enum field is not decoded. *)
Lemma enum_not_read :
  ~ (exists w', read_enum 0 (opened [x00; x00; x00; x07]) = (Return (VInt 7), w'))
  /\ fst (decode_fresh
            (ping_header ++ [x10; x00; x01; x00; x00; x00; x07; x00]))
     = Raise NotImplementedError.
Proof.
  split; [intros [w' H]; discriminate H | vm_compute; reflexivity].
Qed.

(** ** Shared handler table *)

(** C9 on the code. A decoder alone decodes [one_bool]; the same decode
    after a second decoder has been constructed raises [AttributeError],
    since the handlers now are methods of the second decoder, which has no
    file. When the second decoder has a file, the first one takes its
    field values from that file: alone it fails on [short_bool], after the
    second decoder has read a ping that is followed by a byte 01 it
    succeeds, with that byte as the value of the field. *)
Theorem second_decoder_changes_first :
  (exists w d,
      decode_fresh one_bool = (Return tt, w)
      /\ heap w !! 0%nat = Some d /\ fields d = [(1, 2, VBool true)])
  /\ fst ((d1 <- new_ThriftDecoder ;;
           d2 <- new_ThriftDecoder ;;
           decode d1 "in") (initial_world (input one_bool)))
     = Raise AttributeError
  /\ fst ((d1 <- new_ThriftDecoder ;; decode d1 "in")
            (initial_world (two_files short_bool (ping ++ [x01]))))
     = Raise struct_error
  /\ (exists w d,
      (d1 <- new_ThriftDecoder ;;
       d2 <- new_ThriftDecoder ;;
       decode d2 "other" ;;;
       decode d1 "in") (initial_world (two_files short_bool (ping ++ [x01])))
      = (Return tt, w)
      /\ heap w !! 0%nat = Some d /\ fields d = [(1, 2, VBool true)]).
Proof.
  split; [|split; [|split]].
  - do 2 eexists. split; [vm_compute; reflexivity|]. split; reflexivity.
  - vm_compute. reflexivity.
  - vm_compute. reflexivity.
  - do 2 eexists. split; [vm_compute; reflexivity|]. split; reflexivity.
Qed.

(** ** Strings *)

(** C10. A string whose length prefix is [00 00 00 00] is read as the
    empty string; the file moves past the four bytes of the prefix and
    nothing else changes, whatever follows the prefix, if anything. *)
Theorem read_string_empty self w rest :
  pending self w = Some ([x00; x00; x00; x00] ++ rest) ->
  read_string self w = (Return [], advance self 4 w)
  /\ pending self (advance self 4 w) = Some rest.
Proof.
  intros Hp. split.
  - rewrite (read_string_pending self w 0 rest); [|lia|exact Hp].
    cbn. destruct (Z.ltb_spec (Z.of_nat (length rest)) 0); [lia|].
    reflexivity.
  - rewrite pending_advance, Hp. reflexivity.
Qed.

Lemma read_string_empty_witness :
  (read_string 0 (opened [x00; x00; x00; x00])
   = (Return [], advance 0 4 (opened [x00; x00; x00; x00]))
   /\ pending 0 (advance 0 4 (opened [x00; x00; x00; x00])) = Some [])
  /\ (read_string 0 (opened [x00; x00; x00; x00; x68; x69])
      = (Return [], advance 0 4 (opened [x00; x00; x00; x00; x68; x69]))
      /\ pending 0 (advance 0 4 (opened [x00; x00; x00; x00; x68; x69]))
         = Some [x68; x69]).
Proof.
  split.
  - apply (read_string_empty 0 (opened [x00; x00; x00; x00]) []).
    reflexivity.
  - apply (read_string_empty 0 (opened [x00; x00; x00; x00; x68; x69])
             [x68; x69]).
    reflexivity.
Defined.

(** C4, as the code has it. After the i32 length [L], the string reader
    - raises [ValueError] if [L < -1]: the file refuses the read, and the
      bytes after the length stay unread;
    - raises [struct.error] if [L = -1] (["-1s"] is no format), after it
      has read the rest of the file;
    - raises [struct.error] if fewer than [L] bytes are left, after it has
      read them all;
    - otherwise reads the next [L] bytes and decodes them as UTF-8: it
      returns the text, or raises [UnicodeDecodeError] if the bytes are not
      UTF-8, and in both cases the file is left just after the [L] bytes.
    The statement gives the answer together with the state in which the
    reader leaves the program, and the bytes it leaves unread. *)
Theorem read_string_outcomes self w L rest :
  - 2 ^ 31 <= L < 2 ^ 31 ->
  pending self w = Some (be_bytes 4 L ++ rest) ->
  read_string self w =
    (if L <? -1 then (Raise ValueError, advance self 4 w)
     else if L =? -1 then
       (Raise struct_error, advance self (4 + length rest) w)
     else if Z.of_nat (length rest) <? L then
       (Raise struct_error, advance self (4 + length rest) w)
     else (match Utf8.decode (byte_val <$> take (Z.to_nat L) rest) with
           | Some s => Return s
           | None => Raise UnicodeDecodeError
           end,
           advance self (4 + Z.to_nat L) w))
  /\ pending self (snd (read_string self w))
     = Some (if L <? -1 then rest
             else if L =? -1 then []
             else drop (Z.to_nat L) rest).
Proof.
  intros HL Hp. rewrite (read_string_pending self w L rest HL Hp).
  assert (Hd : forall n, pending self (advance self (4 + n) w)
                         = Some (drop n rest)).
  { intros n. rewrite pending_advance, Hp.
    cbn [fmap option_fmap option_map]. rewrite <- drop_drop.
    rewrite <- (length_be_bytes 4 L) at 1. rewrite drop_app_length.
    reflexivity. }
  destruct (Z.ltb_spec L (-1)).
  { split; [reflexivity|]. exact (Hd 0%nat). }
  destruct (Z.eqb_spec L (-1)).
  { split; [reflexivity|]. cbn [snd]. rewrite Hd, drop_all. reflexivity. }
  destruct (Z.ltb_spec (Z.of_nat (length rest)) L).
  { split; [reflexivity|]. cbn [snd]. rewrite Hd, drop_all.
    rewrite drop_ge by lia. reflexivity. }
  split; [reflexivity|]. cbn [snd]. apply Hd.
Qed.

(** The cases of C4 on concrete buffers: length 5 and "hello"; length 5
    and three bytes; lengths -1 and -2 before two bytes; length 2 and the
    bytes [C3 28], which are not UTF-8. *)
Lemma read_string_outcomes_witness :
  (read_string 0 (opened [x00; x00; x00; x05; x68; x65; x6c; x6c; x6f])
   = (Return (str_of "hello"),
      advance 0 (4 + Z.to_nat 5)
        (opened [x00; x00; x00; x05; x68; x65; x6c; x6c; x6f]))
   /\ pending 0
        (snd (read_string 0
                (opened [x00; x00; x00; x05; x68; x65; x6c; x6c; x6f])))
      = Some [])
  /\ (read_string 0 (opened [x00; x00; x00; x05; x68; x65; x6c])
      = (Raise struct_error,
         advance 0 (4 + length [x68; x65; x6c])
           (opened [x00; x00; x00; x05; x68; x65; x6c]))
      /\ pending 0
           (snd (read_string 0 (opened [x00; x00; x00; x05; x68; x65; x6c])))
         = Some [])
  /\ (read_string 0 (opened [xff; xff; xff; xff; x68; x65])
      = (Raise struct_error,
         advance 0 (4 + length [x68; x65])
           (opened [xff; xff; xff; xff; x68; x65]))
      /\ pending 0
           (snd (read_string 0 (opened [xff; xff; xff; xff; x68; x65])))
         = Some [])
  /\ (read_string 0 (opened [xff; xff; xff; xfe; x68; x65])
      = (Raise ValueError,
         advance 0 4 (opened [xff; xff; xff; xfe; x68; x65]))
      /\ pending 0
           (snd (read_string 0 (opened [xff; xff; xff; xfe; x68; x65])))
         = Some [x68; x65])
  /\ (read_string 0 (opened [x00; x00; x00; x02; xc3; x28])
      = (Raise UnicodeDecodeError,
         advance 0 (4 + Z.to_nat 2)
           (opened [x00; x00; x00; x02; xc3; x28]))
      /\ pending 0
           (snd (read_string 0 (opened [x00; x00; x00; x02; xc3; x28])))
         = Some []).
Proof.
  split; [|split; [|split; [|split]]].
  - apply (read_string_outcomes 0 _ 5 [x68; x65; x6c; x6c; x6f]);
      [lia|reflexivity].
  - apply (read_string_outcomes 0 _ 5 [x68; x65; x6c]); [lia|reflexivity].
  - apply (read_string_outcomes 0 _ (-1) [x68; x65]); [lia|reflexivity].
  - apply (read_string_outcomes 0 _ (-2) [x68; x65]); [lia|reflexivity].
  - apply (read_string_outcomes 0 _ 2 [xc3; x28]); [lia|reflexivity].
Defined.

(** C4 fails as stated: the code has no error kind for a negative length
    that is distinct from the one for truncated input. The length -1 and a
    string cut short raise the same exception. *)
Lemma negative_length_not_distinguished :
  ~ (exists InvalidLength TruncatedInput : exn,
        InvalidLength <> TruncatedInput
        /\ fst (read_string 0 (opened [xff; xff; xff; xff]))
           = Raise InvalidLength
        /\ fst (read_string 0 (opened [x00; x00; x00; x05; x68; x65; x6c]))
           = Raise TruncatedInput).
Proof.
  intros (e1 & e2 & Hne & H1 & H2).
  vm_compute in H1. vm_compute in H2. congruence.
Qed.

(** ** Unknown type tags *)

(** C6 fails as stated: the failure does not tell where the tag was read.
    The tag 1 at offset 16 and the tag 1 at offset 20 (after a bool field)
    raise the same exception. *)
Lemma unknown_tag_offset_not_reported :
  ~ (exists offset : exn -> nat,
        (forall e,
            fst (decode_fresh (ping_header ++ [x01; x00; x01])) = Raise e ->
            offset e = 16%nat)
        /\ (forall e,
            fst (decode_fresh
                   (ping_header ++ [x02; x00; x01; x01; x01; x00; x02]))
            = Raise e ->
            offset e = 20%nat)).
Proof.
  intros (offset & H1 & H2).
  specialize (H1 (KeyError 1)). specialize (H2 (KeyError 1)).
  assert (E : offset (KeyError 1) = 16%nat) by (apply H1; vm_compute; reflexivity).
  rewrite H2 in E by (vm_compute; reflexivity). discriminate.
Qed.

(** ** Scalars round-trip *)

(** C8, as the code has it. For bool, byte, i16, i32, i64 and string (not
    double) and every representable value, the reader registered for the
    type, run on the canonical encoding of the value followed by any
    bytes, returns the value and leaves the file just after the
    encoding. *)
Theorem scalar_round_trip rs self w v rest :
  representable v ->
  pending self w = Some (canonical v ++ rest) ->
  call_handler rs (self, reader_of v) w
  = (Return (python_value v), advance self (length (canonical v)) w)
  /\ pending self (advance self (length (canonical v)) w) = Some rest.
Proof.
  intros Hv Hp. split.
  2:{ rewrite pending_advance, Hp. cbn [fmap option_fmap option_map].
      rewrite drop_app_length. reflexivity. }
  unfold call_handler. cbn [fst snd].
  destruct v as [b|v|v|v|v|s]; cbn [reader_of representable canonical
    python_value] in *.
  - erewrite bind_Return by (eapply read_bool_cons; exact Hp).
    destruct b; reflexivity.
  - erewrite bind_Return by (eapply read_byte_be_bytes; eassumption).
    reflexivity.
  - erewrite bind_Return by (eapply read_i16_be_bytes; eassumption).
    reflexivity.
  - erewrite bind_Return by (eapply read_i32_be_bytes; eassumption).
    reflexivity.
  - erewrite bind_Return by (eapply read_i64_be_bytes; eassumption).
    reflexivity.
  - destruct Hv as [Hs Hl]. rewrite <- app_assoc in Hp.
    assert (HL : - 2 ^ 31 <= Z.of_nat (length (utf8_bytes s)) < 2 ^ 31)
      by lia.
    rewrite (bind_Return _ _ w s
               (advance self (4 + length (utf8_bytes s)) w));
      [rewrite length_app, length_be_bytes; reflexivity|].
    rewrite (read_string_pending _ _ _ _ HL Hp).
    destruct (Z.ltb_spec (Z.of_nat (length (utf8_bytes s))) (-1)); [lia|].
    destruct (Z.eqb_spec (Z.of_nat (length (utf8_bytes s))) (-1)); [lia|].
    rewrite length_app.
    destruct (Z.ltb_spec (Z.of_nat (length (utf8_bytes s) + length rest))
                (Z.of_nat (length (utf8_bytes s)))); [lia|].
    rewrite Nat2Z.id, take_app_length, decode_utf8_utf8_bytes by exact Hs.
    reflexivity.
Qed.

(** The examples of C8: the i32 -1 is [FF FF FF FF], the bools are [01] and
    [00]; and a string with a two-byte character. *)
Lemma scalar_round_trip_witness :
  fst (call_handler read_struct (0%nat, read_i32_m)
         (opened [xff; xff; xff; xff]))
  = Return (VInt (-1))
  /\ fst (call_handler read_struct (0%nat, read_bool_m) (opened [x01]))
     = Return (VBool true)
  /\ fst (call_handler read_struct (0%nat, read_bool_m) (opened [x00]))
     = Return (VBool false)
  /\ fst (call_handler read_struct (0%nat, read_string_m)
            (opened [x00; x00; x00; x03; x68; xc3; xa9; x00]))
     = Return (VStr [104; 233]).
Proof.
  split; [|split; [|split]].
  - refine (f_equal fst (proj1 (scalar_round_trip read_struct 0
              (opened [xff; xff; xff; xff]) (WI32 (-1)) [] _ _)));
      [cbn; lia | reflexivity].
  - refine (f_equal fst (proj1 (scalar_round_trip read_struct 0
              (opened [x01]) (WBool true) [] _ _)));
      [exact I | reflexivity].
  - refine (f_equal fst (proj1 (scalar_round_trip read_struct 0
              (opened [x00]) (WBool false) [] _ _)));
      [exact I | reflexivity].
  - refine (f_equal fst (proj1 (scalar_round_trip read_struct 0
              (opened [x00; x00; x00; x03; x68; xc3; xa9; x00])
              (WString [104; 233]) [x00] _ _))).
    + split; [|vm_compute; reflexivity].
      repeat constructor; cbn; lia.
    + reflexivity.
Defined.

(** C8 fails as stated for double: the eight bytes of 1.0 are not read
    back, and a message with a double field is not decoded. *)
Lemma double_not_read :
  ~ (exists v w',
        call_handler read_struct (0%nat, read_double_m)
          (opened [x3f; xf0; x00; x00; x00; x00; x00; x00])
        = (Return v, w'))
  /\ fst (decode_fresh
            (ping_header
             ++ [x04; x00; x01; x3f; xf0; x00; x00; x00; x00; x00; x00; x00]))
     = Raise NotImplementedError.
Proof.
  split; [intros (v & w' & H); discriminate H | vm_compute; reflexivity].
Qed.

(** ** Names of nested structs *)

(** C3, as the code has it. After a successful decode by a new decoder,
    the keys of [structs] are the names [UnknownStruct0], ..., numbered
    consecutively up to the counter of the decoder, pairwise distinct, in
    the order in which they were inserted. A struct is named when its body
    has been read: the struct with number [i] only holds structs with
    numbers below [i], and along every field list, the top-level one
    included, the numbers increase. *)
Theorem struct_names_in_completion_order buf w :
  decode_fresh buf = (Return tt, w) ->
  exists d,
    heap w !! 0%nat = Some d
    /\ fst <$> structs d = struct_name <$> seq 0 (struct_name_counter d)
    /\ NoDup (fst <$> structs d)
    /\ numbered (struct_name_counter d) (fields d)
    /\ forall i k v, structs d !! i = Some (k, v) ->
         exists fs, v = VTuple fs /\ numbered i fs.
Proof.
  rewrite decode_fresh_eq. intros E.
  destruct (read_header_good 0 _ 0 _ (good_opened buf) E)
    as (d & Hd & _ & Ht & Hn).
  exists d. split; [exact Hd|]. split; [apply Ht|].
  split; [eapply table_ok_NoDup; exact Ht|]. split; [exact Hn|apply Ht].
Qed.

(** Two sibling structs with one nested struct each: four names; the
    nested structs are numbered 0 and 2, the siblings 1 and 3. *)
Lemma struct_names_in_completion_order_witness :
  (exists d,
      heap (snd (decode_fresh nested)) !! 0%nat = Some d
      /\ fst <$> structs d = struct_name <$> seq 0 (struct_name_counter d)
      /\ NoDup (fst <$> structs d)
      /\ numbered (struct_name_counter d) (fields d)
      /\ forall i k v, structs d !! i = Some (k, v) ->
           exists fs, v = VTuple fs /\ numbered i fs)
  /\ (fun d => (fields d, structs d, struct_name_counter d))
       <$> heap (snd (decode_fresh nested)) !! 0%nat
     = Some ([(1, 12, VStr (struct_name 1)); (2, 12, VStr (struct_name 3))],
             [(struct_name 0, VTuple []);
              (struct_name 1, VTuple [(1, 12, VStr (struct_name 0))]);
              (struct_name 2, VTuple []);
              (struct_name 3, VTuple [(1, 12, VStr (struct_name 2))])],
             4%nat).
Proof.
  split.
  - apply (struct_names_in_completion_order nested).
    vm_compute. reflexivity.
  - vm_compute. reflexivity.
Defined.

(** C3 fails as stated: numbering in order of first discovery would name
    the two siblings [UnknownStruct0] and [UnknownStruct2]; the decoder
    names them [UnknownStruct1] and [UnknownStruct3]. *)
Lemma first_discovered_not_numbered_first :
  ~ (exists w d,
        decode_fresh nested = (Return tt, w)
        /\ heap w !! 0%nat = Some d
        /\ fields d
           = [(1, 12, VStr (struct_name 0)); (2, 12, VStr (struct_name 2))]).
Proof.
  intros (w & d & E & Hd & Hf).
  vm_compute in E. injection E as <-.
  vm_compute in Hd. injection Hd as <-.
  vm_compute in Hf. discriminate Hf.
Qed.

(** ** The header *)

(** C7. A version other than the marker [80 01] is not fatal. Whatever
    the two version bytes are, the decode has the same outcome as with the
    marker in their place, with the same message type, method name,
    sequence id, fields and structs, and it stops at the same place; the
    version read is stored, and one warning, which the decode with the
    marker does not give, is written to standard error. *)
Theorem version_mismatch_not_fatal b0 b1 rest :
  (b0, b1) <> (x80, x01) ->
  let r := decode_fresh (b0 :: b1 :: rest) in
  let r' := decode_fresh (x80 :: x01 :: rest) in
  fst r = fst r' /\ fst r <> OutOfFuel
  /\ obs message_type 0 (snd r) = obs message_type 0 (snd r')
  /\ obs envelope 0 (snd r) = obs envelope 0 (snd r')
  /\ pending 0 (snd r) = pending 0 (snd r')
  /\ obs version 0 (snd r) = Some (Some (i16_of b0 b1))
  /\ i16_of b0 b1 <> -32767
  /\ stderr (snd r) = [warning]
  /\ stderr (snd r') = [].
Proof.
  intros Hne. cbv zeta.
  pose proof (decode_fresh_answers (b0 :: b1 :: rest)) as Hans.
  revert Hans.
  assert (Hv : i16_of b0 b1 <> -32767).
  { intros E. apply i16_of_marker in E as [-> ->]. apply Hne. reflexivity. }
  rewrite !decode_fresh_eq, !read_header_split.
  rewrite (bind_Return _ _ _ _ _ (read_header_version_opened b0 b1 rest)).
  rewrite (bind_Return _ _ _ _ _ (read_header_version_opened x80 x01 rest)).
  intros Hans.
  set (k := (read_header_type 0 ;;; read_header_body 0)) in *.
  assert (Hk : respects true k).
  { apply respects_bind; [apply respects_read_header_type|].
    intros _. apply respects_read_header_body. }
  assert (Hf : preserves frame k).
  { apply preserves_bind; [apply frame_read_header_type|].
    intros _. apply frame_read_header_body. }
  assert (Ho : preserves (obs version 0) k).
  { apply preserves_bind; [apply version_read_header_type|].
    intros _. apply obs_read_header_body; reflexivity. }
  match goal with
  | |- fst (k ?w1) = fst (k ?w2) /\ _ => set (W1 := w1); set (W2 := w2)
  end.
  destruct (respects_binary true k W1 W2 Hk eq_refl) as [R F].
  destruct (forget_agree true _ _ 0%nat F) as (He & Hp & Hm).
  split; [exact R|]. split; [exact Hans|]. split; [exact (Hm eq_refl)|].
  split; [exact He|]. split; [exact Hp|].
  split; [rewrite Ho; reflexivity|]. split; [exact Hv|].
  split.
  - rewrite (stderr_frame _ _ (Hf W1)). subst W1. cbn [stderr].
    destruct (Z.eqb_spec (i16_of b0 b1) (-32767)); [contradiction|reflexivity].
  - rewrite (stderr_frame _ _ (Hf W2)). reflexivity.
Qed.

(** The ping message with the version bytes [00 01]: decoded in full, with
    version 1 and the warning. *)
Lemma version_mismatch_not_fatal_witness :
  let r := decode_fresh (x00 :: x01 :: drop 2 ping) in
  let r' := decode_fresh (x80 :: x01 :: drop 2 ping) in
  (fst r = fst r' /\ fst r <> OutOfFuel
   /\ obs message_type 0 (snd r) = obs message_type 0 (snd r')
   /\ obs envelope 0 (snd r) = obs envelope 0 (snd r')
   /\ pending 0 (snd r) = pending 0 (snd r')
   /\ obs version 0 (snd r) = Some (Some (i16_of x00 x01))
   /\ i16_of x00 x01 <> -32767
   /\ stderr (snd r) = [warning]
   /\ stderr (snd r') = [])
  /\ fst r = Return tt
  /\ obs version 0 (snd r) = Some (Some 1)
  /\ obs message_type 0 (snd r) = Some (Some 1)
  /\ obs envelope 0 (snd r)
     = Some (Some (str_of "ping"), Some 42, [], [], 0%nat).
Proof.
  split.
  - apply (version_mismatch_not_fatal x00 x01 (drop 2 ping)). discriminate.
  - vm_compute. repeat split; reflexivity.
Defined.

(** C5, as the code has it. The message type is stored as it is read and
    nothing is checked: whatever the two bytes of the message type are,
    the decode has the same outcome, leaves the same version, method name,
    sequence id, fields and structs, stops at the same place and writes
    the same to standard error. *)
Theorem message_type_not_validated b0 b1 k0 k1 k0' k1' rest :
  let r := decode_fresh (b0 :: b1 :: k0 :: k1 :: rest) in
  let r' := decode_fresh (b0 :: b1 :: k0' :: k1' :: rest) in
  fst r = fst r' /\ fst r <> OutOfFuel
  /\ obs message_type 0 (snd r) = Some (Some (i16_of k0 k1))
  /\ obs version 0 (snd r) = obs version 0 (snd r')
  /\ obs envelope 0 (snd r) = obs envelope 0 (snd r')
  /\ pending 0 (snd r) = pending 0 (snd r')
  /\ stderr (snd r) = stderr (snd r').
Proof.
  cbv zeta.
  pose proof (decode_fresh_answers (b0 :: b1 :: k0 :: k1 :: rest)) as Hans.
  revert Hans. rewrite !decode_fresh_eq, !read_header_split.
  rewrite (bind_Return _ _ _ _ _
             (read_header_version_opened b0 b1 (k0 :: k1 :: rest))).
  rewrite (bind_Return _ _ _ _ _
             (read_header_version_opened b0 b1 (k0' :: k1' :: rest))).
  rewrite (bind_Return _ _ _ _ _
             (read_header_type_opened b0 b1 k0 k1 rest _)).
  rewrite (bind_Return _ _ _ _ _
             (read_header_type_opened b0 b1 k0' k1' rest _)).
  intros Hans.
  pose proof (respects_read_header_body false 0) as Hk.
  pose proof (frame_read_header_body 0) as Hf.
  assert (Hv : preserves (obs version 0) (read_header_body 0))
    by (apply obs_read_header_body; reflexivity).
  assert (Hm : preserves (obs message_type 0) (read_header_body 0))
    by (apply obs_read_header_body; reflexivity).
  match goal with
  | |- fst (_ ?w1) = fst (_ ?w2) /\ _ => set (W1 := w1); set (W2 := w2)
  end.
  destruct (respects_binary false _ W1 W2 Hk eq_refl) as [R F].
  destruct (forget_agree false _ _ 0%nat F) as (He & Hp & _).
  split; [exact R|]. split; [exact Hans|].
  split; [rewrite Hm; reflexivity|].
  split; [rewrite !Hv; reflexivity|].
  split; [exact He|]. split; [exact Hp|].
  rewrite (stderr_frame _ _ (Hf W1)), (stderr_frame _ _ (Hf W2)).
  reflexivity.
Qed.

(** C5 fails as stated: a message of type 7, for which the class has no
    name, is decoded without failure, and 7 is stored. *)
Lemma unknown_message_type_accepted :
  ~ (exists e, fst (decode_fresh ping_of_type_7) = Raise e)
  /\ fst (decode_fresh ping_of_type_7) = Return tt
  /\ obs message_type 0 (snd (decode_fresh ping_of_type_7)) = Some (Some 7)
  /\ message_types (snd (decode_fresh ping_of_type_7)) !! 7 = None.
Proof.
  split; [|split; [|split]]; try (vm_compute; reflexivity).
  intros [e H]. vm_compute in H. discriminate H.
Qed.

(** * Beyond the specification *)

(** ** What a struct looks like in the file *)

Section Consumes.

Implicit Types (w : World) (self o k : nat) (bs : list byte).

Lemma pending_obs self w :
  pending self w =
  match obs fp self w with
  | Some (Some f) => Some (drop (pos f) (raw f))
  | _ => None
  end.
Proof.
  unfold pending, obs. destruct (heap w !! self) as [d|]; reflexivity.
Qed.

Lemma pending_advance_ne self o k w :
  o <> self -> pending self (advance o k w) = pending self w.
Proof.
  intros Hne. unfold advance.
  destruct (heap w !! o) as [d|]; [|reflexivity].
  destruct (fp d) as [f|]; [|reflexivity].
  unfold pending. cbn [set_heap heap].
  rewrite list_lookup_insert_ne by exact Hne. reflexivity.
Qed.

Lemma consumes_bind self {A B} (c : M A) (k : A -> M B) :
  consumes self c -> (forall a, consumes self (k a)) ->
  consumes self (bind c k).
Proof.
  intros Hc Hk w bs Hp. destruct (Hc w bs Hp) as [k1 H1]. unfold bind.
  destruct (c w) as [[a|e|] w1]; cbn [snd] in *; eauto.
  destruct (Hk a w1 _ H1) as [k2 H2]. exists (k1 + k2)%nat.
  rewrite H2, drop_drop. reflexivity.
Qed.

Lemma consumes_lift self {A} (r : outcome A) : consumes self (lift r).
Proof. intros w bs Hp. exists 0%nat. exact Hp. Qed.

Lemma consumes_self_fp_read self o n : consumes self (self_fp_read o n).
Proof.
  intros w bs Hp. rewrite self_fp_read_eq.
  destruct (pending o w) as [bs'|]; [|exists 0%nat; exact Hp].
  destruct (n <? -1); [exists 0%nat; exact Hp|]. cbn [snd].
  destruct (decide (o = self)) as [->|Hne].
  - eexists. rewrite pending_advance, Hp. reflexivity.
  - exists 0%nat. rewrite pending_advance_ne by exact Hne. exact Hp.
Qed.

Lemma consumes_lookup_handler self t : consumes self (lookup_handler t).
Proof.
  intros w bs Hp. exists 0%nat. unfold lookup_handler.
  destruct (type_handlers w !! t); exact Hp.
Qed.

Lemma consumes_record_field self o i t v :
  consumes self (record_field o i t v).
Proof.
  intros w bs Hp. exists 0%nat. rewrite pending_obs in *.
  rewrite (obs_record_field fp (fun _ _ => eq_refl) (fun _ _ => eq_refl)).
  exact Hp.
Qed.

Lemma consumes_read_int self f o : consumes self (read_int f o).
Proof.
  apply (all_read_int (fun A c => consumes self c)).
  - intros; apply consumes_bind; assumption.
  - intros; apply consumes_lift.
  - intros; apply consumes_self_fp_read.
Qed.

Lemma consumes_call_handler self fuel h :
  consumes self
    (call_handler
       (fun o => t0 <- read_type o ;; read_struct_loop fuel o [] t0) h).
Proof.
  apply (all_call_handler (fun A c => consumes self c)).
  - intros; apply consumes_bind; assumption.
  - intros; apply consumes_lift.
  - intros; apply consumes_self_fp_read.
  - intros o.
    apply (all_read_struct_fuel (fun A c => consumes self c)).
    + intros; apply consumes_bind; assumption.
    + intros; apply consumes_lift.
    + intros; apply consumes_self_fp_read.
    + intros; apply consumes_lookup_handler.
    + intros; apply consumes_record_field.
Qed.

Lemma consumes_at self {A} (c : M A) w r w' bs :
  consumes self c -> c w = (r, w') -> pending self w = Some bs ->
  exists k, pending self w' = Some (drop k bs).
Proof. intros Hc E Hp. specialize (Hc w bs Hp). rewrite E in Hc. exact Hc. Qed.

(** A byte is read only if there is one. *)
Lemma read_byte_Return self w t w' :
  read_byte self w = (Return t, w') ->
  exists b rest,
    pending self w = Some (b :: rest) /\ t = byte_val b
    /\ w' = advance self 1 w /\ pending self w' = Some rest.
Proof.
  intros E. unfold read_byte in E.
  apply bind_Return_inv in E as (got & w1 & E1 & E2).
  pose proof (self_fp_read_effect self 1 w) as H.
  rewrite E1 in H. destruct H as (-> & _ & bs & Hp & ->).
  unfold lift in E2. injection E2 as E2 <-.
  change (1 =? -1) with false in *. change (Z.to_nat 1) with 1%nat in *.
  cbv iota in *.
  destruct bs as [|b rest]; [discriminate E2|].
  change (take 1 (b :: rest)) with [b] in *.
  exists b, rest. split; [exact Hp|]. split.
  - injection E2 as <-. unfold be_unsigned. cbn. lia.
  - split; [reflexivity|]. rewrite pending_advance, Hp. reflexivity.
Qed.

Lemma byte_val_0 b : byte_val b = 0 -> b = x00.
Proof. intros E. rewrite <- (byte_of_val b), E. reflexivity. Qed.

(** The loop returns only on a stop byte: either it is entered with the
    tag 0 and does nothing, or the last byte it reads is a stop byte. *)
Lemma read_struct_loop_stop fuel self fields t w fs w' bs :
  read_struct_loop fuel self fields t w = (Return fs, w') ->
  pending self w = Some bs ->
  (t = 0 /\ w' = w)
  \/ (exists pre rest, bs = pre ++ x00 :: rest /\ pending self w' = Some rest).
Proof.
  revert self fields t w fs w' bs.
  induction fuel as [|fuel IH]; intros self fields t w fs w' bs E Hp.
  { rewrite read_struct_loop_0 in E.
    destruct (Z.eqb_spec t 0); [|discriminate]. injection E as <- <-. auto. }
  rewrite read_struct_loop_S in E. destruct (Z.eqb_spec t 0).
  { injection E as <- <-. auto. }
  right.
  apply bind_Return_inv in E as (field_id & w1 & E1 & E).
  apply bind_Return_inv in E as (h & w2 & E2 & E).
  apply bind_Return_inv in E as (field_data & w3 & E3 & E).
  apply bind_Return_inv in E as (f & w4 & E4 & E).
  apply bind_Return_inv in E as (t' & w5 & E5 & E).
  destruct (consumes_at self _ _ _ _ _ (consumes_read_int self fmt_h self)
              E1 Hp) as [k1 H1].
  destruct (consumes_at self _ _ _ _ _ (consumes_lookup_handler self t)
              E2 H1) as [k2 H2].
  destruct (consumes_at self _ _ _ _ _ (consumes_call_handler self fuel h)
              E3 H2) as [k3 H3].
  destruct (consumes_at self _ _ _ _ _
              (consumes_record_field self self field_id t field_data)
              E4 H3) as [k4 H4].
  rewrite !drop_drop in H4.
  apply read_byte_Return in E5 as (b & rest & Hb & -> & -> & Hr).
  rewrite H4 in Hb. injection Hb as Hb.
  match type of Hb with drop ?k _ = _ => set (kk := k) in * end.
  assert (Hbs : bs = take kk bs ++ b :: rest).
  { rewrite <- Hb. symmetry. apply take_drop. }
  destruct (IH _ _ _ _ _ _ _ E Hr) as [[Ht ->]|(pre & rest' & -> & Hp')].
  - apply byte_val_0 in Ht. subst b. eauto.
  - exists (take kk bs ++ b :: pre), rest'.
    split; [|exact Hp']. rewrite Hbs at 1. rewrite <- app_assoc. reflexivity.
Qed.

End Consumes.

(** X1. A struct that begins with the stop byte is read as the empty
    tuple: [read_struct] returns no field, the file of the decoder moves
    one byte, and nothing else changes (no struct is named, the counter
    stays). *)
Theorem read_struct_empty self w rest :
  pending self w = Some (x00 :: rest) ->
  read_struct self w = (Return [], advance self 1 w).
Proof.
  intros Hp. unfold read_struct, read_struct_fuel.
  erewrite bind_Return by (eapply read_byte_cons; exact Hp).
  rewrite read_struct_loop_S. reflexivity.
Qed.

Lemma read_struct_empty_witness :
  read_struct 0 (opened [x00; x0c])
  = (Return [], advance 0 1 (opened [x00; x0c])).
Proof. apply (read_struct_empty 0 (opened [x00; x0c]) [x0c]). reflexivity. Defined.

(** X2. [read_struct] returns a tuple only after it has read a stop byte
    from the file of the decoder: the bytes it consumed end with [00], and
    what follows that byte is what is left to read. It always gives an
    answer; so on bytes without a zero byte it raises. *)
Theorem read_struct_needs_stop_byte self w bs :
  pending self w = Some bs ->
  match read_struct self w with
  | (Return _, w') =>
    exists pre rest, bs = pre ++ x00 :: rest /\ pending self w' = Some rest
  | (Raise _, _) => True
  | (OutOfFuel, _) => False
  end
  /\ (x00 ∉ bs -> exists e, fst (read_struct self w) = Raise e).
Proof.
  intros Hp.
  assert (H : match read_struct self w with
              | (Return _, w') =>
                exists pre rest,
                  bs = pre ++ x00 :: rest /\ pending self w' = Some rest
              | (Raise _, _) => True
              | (OutOfFuel, _) => False
              end).
  { pose proof (halts_read_struct self w) as Hh.
    destruct (read_struct self w) as [[fs|e|] w'] eqn:E;
      [|exact I|apply Hh; reflexivity].
    unfold read_struct, read_struct_fuel in E.
    apply bind_Return_inv in E as (t & w1 & E1 & E).
    apply read_byte_Return in E1 as (b & rest & Hb & -> & -> & Hr).
    rewrite Hp in Hb. injection Hb as ->.
    destruct (read_struct_loop_stop _ _ _ _ _ _ _ _ E Hr)
      as [[Ht ->]|(pre & rest' & -> & Hp')].
    - apply byte_val_0 in Ht. subst b. exists [], rest. auto.
    - exists (b :: pre), rest'. auto. }
  split; [exact H|]. intros Hn.
  destruct (read_struct self w) as [[fs|e|] w']; [|eauto|destruct H].
  destruct H as (pre & rest & -> & _). exfalso. apply Hn.
  apply elem_of_app. right. left.
Qed.

Lemma read_struct_needs_stop_byte_witness :
  match read_struct 0 (opened [x02; x00; x01; x01; x00; x07]) with
  | (Return _, w') =>
    exists pre rest,
      [x02; x00; x01; x01; x00; x07] = pre ++ x00 :: rest
      /\ pending 0 w' = Some rest
  | (Raise _, _) => True
  | (OutOfFuel, _) => False
  end
  /\ (exists e,
         fst (read_struct 0 (opened [x02; x01; x01; x01; x0b])) = Raise e).
Proof.
  split.
  - apply (proj1 (read_struct_needs_stop_byte 0
                    (opened [x02; x00; x01; x01; x00; x07])
                    [x02; x00; x01; x01; x00; x07]
                    ltac:(vm_compute; reflexivity))).
  - apply (proj2 (read_struct_needs_stop_byte 0
                    (opened [x02; x01; x01; x01; x0b])
                    [x02; x01; x01; x01; x0b]
                    ltac:(vm_compute; reflexivity))).
    intros H.
    repeat (apply elem_of_cons in H as [H|H]; [discriminate H|]).
    inversion H.
Defined.

(** ** Files are only read, and only forwards *)

Section Forward.

Implicit Types (w : World) (self o k : nat).

Lemma forward_refl w : forward w w.
Proof. intros o d f Hd Hf Hpos. exists d, f. repeat split; auto. Qed.

Lemma forward_same_heap w w' : heap w' = heap w -> forward w w'.
Proof.
  intros E o d f Hd Hf Hpos. rewrite E. exists d, f. repeat split; auto.
Qed.

Lemma forward_trans w1 w2 w3 :
  forward w1 w2 -> forward w2 w3 -> forward w1 w3.
Proof.
  intros H12 H23 o d f Hd Hf Hpos.
  destruct (H12 o d f Hd Hf Hpos) as (d2 & f2 & Hd2 & Hf2 & Hr2 & Hp2).
  destruct (H23 o d2 f2 Hd2 Hf2) as (d3 & f3 & Hd3 & Hf3 & Hr3 & Hp3).
  { rewrite Hr2. lia. }
  exists d3, f3. rewrite Hr2 in *. repeat split; auto; try congruence; lia.
Qed.

Lemma forward_set_heap_insert o w d d' :
  heap w !! o = Some d -> fp d' = fp d ->
  forward w (set_heap (<[o := d']> (heap w)) w).
Proof.
  intros Hd Hfp o' d0 f Hd0 Hf Hpos. cbn [set_heap heap].
  destruct (decide (o = o')) as [<-|Hne].
  - rewrite list_lookup_insert_eq by (eapply lookup_lt_Some; exact Hd).
    exists d', f. rewrite Hfp. replace d with d0 by congruence.
    repeat split; auto.
  - rewrite list_lookup_insert_ne by exact Hne.
    exists d0, f. repeat split; auto.
Qed.

Lemma forward_advance o k w bs :
  pending o w = Some bs -> (k <= length bs)%nat -> forward w (advance o k w).
Proof.
  intros Hp Hk. destruct (pending_Some _ _ _ Hp) as (d & f & Hd & Hf & ->).
  unfold advance. rewrite Hd, Hf.
  intros o' d0 f0 Hd0 Hf0 Hpos. cbn [set_heap heap].
  destruct (decide (o = o')) as [<-|Hne].
  - rewrite list_lookup_insert_eq by (eapply lookup_lt_Some; exact Hd).
    assert (d0 = d) as -> by congruence.
    assert (f0 = f) as -> by congruence.
    eexists _, _. split; [reflexivity|]. split; [reflexivity|].
    cbn. rewrite length_drop in Hk. split; [reflexivity|lia].
  - rewrite list_lookup_insert_ne by exact Hne.
    exists d0, f0. repeat split; auto.
Qed.

Lemma reads_on_bind {A B} (c : M A) (k : A -> M B) :
  reads_on c -> (forall a, reads_on (k a)) -> reads_on (bind c k).
Proof.
  intros Hc Hk w. specialize (Hc w). unfold bind.
  destruct (c w) as [[a|e|] w1]; cbn [snd] in *; auto.
  eapply forward_trans; [exact Hc|apply Hk].
Qed.

Lemma reads_on_lift {A} (r : outcome A) : reads_on (lift r).
Proof. intros w. apply forward_refl. Qed.

Lemma reads_on_self_fp_read o n : reads_on (self_fp_read o n).
Proof.
  intros w. rewrite self_fp_read_eq.
  destruct (pending o w) as [bs|] eqn:Hp; [|apply forward_refl].
  destruct (n <? -1); [apply forward_refl|]. cbn [snd].
  eapply forward_advance; [exact Hp|].
  destruct (n =? -1); [reflexivity|]. rewrite length_take. lia.
Qed.

Lemma reads_on_lookup_handler t : reads_on (lookup_handler t).
Proof.
  intros w. unfold lookup_handler.
  destruct (type_handlers w !! t); apply forward_refl.
Qed.

Lemma reads_on_update_self o g :
  (forall d, fp (g d) = fp d) -> reads_on (update_self o g).
Proof.
  intros Hg w. destruct (heap w !! o) as [d|] eqn:Hd.
  - rewrite (update_self_eq _ _ _ _ Hd). cbn [snd].
    eapply forward_set_heap_insert; [exact Hd|apply Hg].
  - rewrite update_self_None by exact Hd. apply forward_refl.
Qed.

Lemma reads_on_record_field o i t v : reads_on (record_field o i t v).
Proof.
  unfold record_field. destruct (t =? 12); [|apply (reads_on_lift (Return _))].
  apply reads_on_bind.
  { intros w. unfold get_self. destruct (heap w !! o); apply forward_refl. }
  intros d.
  apply reads_on_bind; [apply reads_on_update_self; reflexivity|intros _].
  apply reads_on_bind; [apply reads_on_update_self; reflexivity|intros _].
  apply (reads_on_lift (Return _)).
Qed.

Lemma reads_on_read_int f o : reads_on (read_int f o).
Proof.
  apply (all_read_int (fun A c => reads_on c)).
  - intros; apply reads_on_bind; assumption.
  - intros; apply reads_on_lift.
  - intros; apply reads_on_self_fp_read.
Qed.

Lemma reads_on_read_string o : reads_on (read_string o).
Proof.
  apply (all_read_string (fun A c => reads_on c)).
  - intros; apply reads_on_bind; assumption.
  - intros; apply reads_on_lift.
  - intros; apply reads_on_self_fp_read.
Qed.

Lemma reads_on_read_struct o : reads_on (read_struct o).
Proof.
  intros w. unfold read_struct.
  apply (all_read_struct_fuel (fun A c => reads_on c)).
  - intros; apply reads_on_bind; assumption.
  - intros; apply reads_on_lift.
  - intros; apply reads_on_self_fp_read.
  - intros; apply reads_on_lookup_handler.
  - intros; apply reads_on_record_field.
Qed.

Lemma reads_on_read_header self : reads_on (read_header self).
Proof.
  unfold read_header.
  apply reads_on_bind; [apply (reads_on_read_int fmt_h)|intros v].
  apply reads_on_bind; [apply reads_on_update_self; reflexivity|intros _].
  apply reads_on_bind; [apply reads_on_lift|intros expected].
  apply reads_on_bind.
  { destruct (negb (v =? expected));
      [intros w; apply forward_same_heap; reflexivity
      |apply (reads_on_lift (Return _))]. }
  intros _.
  apply reads_on_bind; [apply (reads_on_read_int fmt_h)|intros mt].
  apply reads_on_bind; [apply reads_on_update_self; reflexivity|intros _].
  apply reads_on_bind; [apply reads_on_read_string|intros name].
  apply reads_on_bind; [apply reads_on_update_self; reflexivity|intros _].
  apply reads_on_bind; [apply (reads_on_read_int fmt_i)|intros seq].
  apply reads_on_bind; [apply reads_on_update_self; reflexivity|intros _].
  apply reads_on_bind; [apply reads_on_read_struct|intros fs].
  apply reads_on_update_self; reflexivity.
Qed.

End Forward.

(** X3. Decoding only reads, and only forwards. Whatever [read_header]
    and [read_struct] do and however they end, every open file keeps its
    content, and its position neither goes back nor passes the end; this
    holds for the files of all decoders, not only for the one that
    decodes. After a decode by a new decoder, in particular, the file
    holds the buffer and the position is inside it. *)
Theorem files_only_read_forward :
  (forall self w, forward w (snd (read_header self w)))
  /\ (forall self w, forward w (snd (read_struct self w)))
  /\ (forall buf,
        exists d f,
          heap (snd (decode_fresh buf)) !! 0%nat = Some d
          /\ fp d = Some f /\ raw f = buf
          /\ (pos f <= length buf)%nat).
Proof.
  split; [exact reads_on_read_header|]. split; [exact reads_on_read_struct|].
  intros buf. rewrite decode_fresh_eq.
  destruct (reads_on_read_header 0 (opened buf) 0%nat
              (mkDecoder [] [] (Some (mkReader buf 0)) None None None None 0)
              (mkReader buf 0))
    as (d & f & Hd & Hf & Hr & Hp).
  - rewrite opened_explicit. reflexivity.
  - reflexivity.
  - cbn. lia.
  - exists d, f. cbn in Hr, Hp. repeat split; auto. lia.
Qed.

(** ** The table of structs only grows *)

Section Appends.

Implicit Types (w : World) (self o k : nat).

Lemma extends_same self w w' :
  table_of self w' = table_of self w -> extends self w w'.
Proof.
  intros E tbl c Ht Hk. exists tbl, c. rewrite E. repeat split; auto.
Qed.

Lemma extends_trans self w1 w2 w3 :
  extends self w1 w2 -> extends self w2 w3 -> extends self w1 w3.
Proof.
  intros H12 H23 tbl c Ht Hk.
  destruct (H12 tbl c Ht Hk) as (tbl2 & c2 & Ht2 & Hk2 & Hc2 & Hp2).
  destruct (H23 tbl2 c2 Ht2 Hk2) as (tbl3 & c3 & Ht3 & Hk3 & Hc3 & Hp3).
  exists tbl3, c3. repeat split; auto; [lia|].
  etransitivity; eassumption.
Qed.

Lemma appends_bind self {A B} (c : M A) (k : A -> M B) :
  appends self c -> (forall a, appends self (k a)) -> appends self (bind c k).
Proof.
  intros Hc Hk w. specialize (Hc w). unfold bind.
  destruct (c w) as [[a|e|] w1]; cbn [snd] in *; auto.
  eapply extends_trans; [exact Hc|apply Hk].
Qed.

Lemma appends_preserves self {A} (c : M A) :
  preserves (table_of self) c -> appends self c.
Proof. intros Hc w. apply extends_same. apply Hc. Qed.

Lemma appends_lift self {A} (r : outcome A) : appends self (lift r).
Proof. apply appends_preserves. intros w. reflexivity. Qed.

Lemma appends_self_fp_read self o n : appends self (self_fp_read o n).
Proof.
  apply appends_preserves. apply obs_self_fp_read. reflexivity.
Qed.

Lemma appends_lookup_handler self t : appends self (lookup_handler t).
Proof. apply appends_preserves. apply preserves_lookup_handler. Qed.

Lemma appends_update_self self o g :
  (forall d, structs (g d) = structs d
             /\ struct_name_counter (g d) = struct_name_counter d) ->
  appends self (update_self o g).
Proof.
  intros Hg. apply appends_preserves. apply obs_update_self.
  intros d. destruct (Hg d) as [-> ->]. reflexivity.
Qed.

(** What recording a struct does to the world. *)
Lemma record_field_struct o i v w d :
  heap w !! o = Some d ->
  record_field o i 12 v w
  = (Return (i, 12, VStr (struct_name (struct_name_counter d))),
     set_heap
       (<[o := set_structs
                 (odict_set (struct_name (struct_name_counter d)) v
                    (structs d))
                 (set_struct_name_counter (S (struct_name_counter d)) d)]>
          (heap w)) w).
Proof.
  intros Hd. unfold record_field. cbn [Z.eqb Pos.eqb].
  unfold bind at 1, get_self. rewrite Hd.
  unfold bind at 1. rewrite (update_self_eq _ _ _ _ Hd).
  set (w1 := set_heap _ w).
  assert (E1 : heap w1 !! o = Some
                 (set_struct_name_counter (S (struct_name_counter d)) d)).
  { subst w1. cbn. apply list_lookup_insert_eq.
    eapply lookup_lt_Some. exact Hd. }
  unfold bind. rewrite (update_self_eq _ _ _ _ E1). unfold ret.
  subst w1. unfold set_heap. cbn. rewrite list_insert_insert_eq.
  reflexivity.
Qed.

Lemma appends_record_field self o i t v :
  appends self (record_field o i t v).
Proof.
  destruct (Z.eqb_spec t 12) as [->|Hne].
  2:{ unfold record_field. destruct (Z.eqb_spec t 12); [contradiction|].
      apply (appends_lift self (Return _)). }
  intros w. destruct (heap w !! o) as [d|] eqn:Hd.
  2:{ unfold record_field. cbn [Z.eqb Pos.eqb].
      rewrite (bind_Raise _ _ w AttributeError w)
        by (unfold get_self; rewrite Hd; reflexivity).
      apply extends_same. reflexivity. }
  rewrite (record_field_struct _ _ _ _ _ Hd). cbn [snd].
  destruct (decide (o = self)) as [->|Hne].
  - intros tbl c Ht Hk. unfold table_of, obs in *. rewrite Hd in Ht.
    cbn in Ht. injection Ht as <- <-.
    cbn [set_heap heap].
    rewrite list_lookup_insert_eq by (eapply lookup_lt_Some; exact Hd).
    cbn. eexists _, _. split; [reflexivity|].
    rewrite odict_set_fresh by (rewrite Hk; apply struct_name_fresh).
    split; [|split; [lia|]].
    + rewrite fmap_app, Hk, seq_S, fmap_app. reflexivity.
    + eexists. reflexivity.
  - apply extends_same. unfold table_of, obs. cbn [set_heap heap].
    rewrite list_lookup_insert_ne by exact Hne. reflexivity.
Qed.

Lemma appends_read_int self f o : appends self (read_int f o).
Proof.
  apply (all_read_int (fun A c => appends self c)).
  - intros; apply appends_bind; assumption.
  - intros; apply appends_lift.
  - intros; apply appends_self_fp_read.
Qed.

Lemma appends_read_string self o : appends self (read_string o).
Proof.
  apply (all_read_string (fun A c => appends self c)).
  - intros; apply appends_bind; assumption.
  - intros; apply appends_lift.
  - intros; apply appends_self_fp_read.
Qed.

Lemma appends_read_struct self o : appends self (read_struct o).
Proof.
  intros w. unfold read_struct.
  apply (all_read_struct_fuel (fun A c => appends self c)).
  - intros; apply appends_bind; assumption.
  - intros; apply appends_lift.
  - intros; apply appends_self_fp_read.
  - intros; apply appends_lookup_handler.
  - intros; apply appends_record_field.
Qed.

Lemma appends_read_header self o : appends self (read_header o).
Proof.
  unfold read_header.
  apply appends_bind; [apply (appends_read_int self fmt_h)|intros v].
  apply appends_bind; [apply appends_update_self; auto|intros _].
  apply appends_bind; [apply appends_lift|intros expected].
  apply appends_bind.
  { destruct (negb (v =? expected));
      [apply appends_preserves; intros w; reflexivity
      |apply (appends_lift self (Return _))]. }
  intros _.
  apply appends_bind; [apply (appends_read_int self fmt_h)|intros mt].
  apply appends_bind; [apply appends_update_self; auto|intros _].
  apply appends_bind; [apply appends_read_string|intros name].
  apply appends_bind; [apply appends_update_self; auto|intros _].
  apply appends_bind; [apply (appends_read_int self fmt_i)|intros seq].
  apply appends_bind; [apply appends_update_self; auto|intros _].
  apply appends_bind; [apply appends_read_struct|intros fs].
  apply appends_update_self; auto.
Qed.

Lemma appends_decode self o fn : appends self (decode o fn).
Proof.
  unfold decode. apply appends_bind.
  { apply appends_preserves. intros w. unfold open_rb.
    destruct (files w !! fn); reflexivity. }
  intros f. apply appends_bind; [apply appends_update_self; auto|intros _].
  apply appends_read_header.
Qed.

End Appends.

(** X4. The table of structs of a decoder only grows. If, before any
    decoder [o] decodes a file, the keys of the table of [self] are the
    first [c] synthetic names in order, then afterwards, however the
    decode ends, they are the first [c'] names in order with [c <= c'],
    and the old table is the beginning of the new one: no entry is
    removed, replaced or reordered, also when the decode fails halfway and
    when the same decoder decodes a second file (the counter is not reset,
    the numbering goes on). *)
Theorem struct_table_append_only self o fn w tbl c :
  table_of self w = Some (tbl, c) ->
  fst <$> tbl = struct_name <$> seq 0 c ->
  exists tbl' c',
    table_of self (snd (decode o fn w)) = Some (tbl', c')
    /\ fst <$> tbl' = struct_name <$> seq 0 c'
    /\ (c <= c')%nat /\ tbl `prefix_of` tbl'.
Proof. apply appends_decode. Qed.

(** The decoder that has decoded [nested] decodes it again: four more
    names, after the four it had. *)
Lemma struct_table_append_only_witness :
  (exists tbl' c',
      table_of 0 (snd (decode 0 "in" (snd (decode_fresh nested))))
      = Some (tbl', c')
      /\ fst <$> tbl' = struct_name <$> seq 0 c'
      /\ (4 <= c')%nat
      /\ [(struct_name 0, VTuple []);
          (struct_name 1, VTuple [(1, 12, VStr (struct_name 0))]);
          (struct_name 2, VTuple []);
          (struct_name 3, VTuple [(1, 12, VStr (struct_name 2))])]
         `prefix_of` tbl')
  /\ snd <$> table_of 0 (snd (decode 0 "in" (snd (decode_fresh nested))))
     = Some 8%nat.
Proof.
  split.
  - apply (struct_table_append_only 0 0 "in" (snd (decode_fresh nested))).
    + vm_compute. reflexivity.
    + vm_compute. reflexivity.
  - vm_compute. reflexivity.
Defined.

(** ** Standard error *)

Section Warning.

Implicit Types (w : World) (self : nat).

Lemma frame_read_header_version_Return self w b0 b1 rest :
  pending self w = Some (b0 :: b1 :: rest) ->
  exists w',
    read_header_version self w = (Return tt, w')
    /\ stderr w'
       = stderr w ++ (if i16_of b0 b1 =? -32767 then [] else [warning]).
Proof.
  intros Hp. unfold read_header_version.
  rewrite (bind_Return _ _ w (i16_of b0 b1) (advance self 2 w))
    by (apply (read_int_pending fmt_h self w [b0; b1] rest Hp eq_refl)).
  assert (Hp' : pending self (advance self 2 w) = Some rest)
    by (rewrite pending_advance, Hp; reflexivity).
  destruct (pending_Some _ _ _ Hp') as (d & f & Hd & _).
  rewrite (bind_Return _ _ _ _ _ (update_self_eq _ _ _ _ Hd)).
  rewrite (bind_Return _ _ _ (-32767) _) by reflexivity.
  set (w1 := set_heap _ _).
  assert (E : stderr w1 = stderr w).
  { subst w1. cbn [set_heap stderr].
    apply stderr_frame, frame_advance. }
  destruct (i16_of b0 b1 =? -32767); cbn [negb].
  - exists w1. split; [reflexivity|]. rewrite E, app_nil_r. reflexivity.
  - eexists. split; [reflexivity|]. cbn [print_stderr snd stderr].
    rewrite E. reflexivity.
Qed.

End Warning.

(** X5. What a decode writes to standard error is decided by the first
    two bytes alone: when they can be read, [read_header] appends the
    warning once if they are not the marker [80 01] and nothing if they
    are, and it appends nothing else, whether the rest of the decode
    succeeds or fails. *)
Theorem warning_iff_version_mismatch self w b0 b1 rest :
  pending self w = Some (b0 :: b1 :: rest) ->
  stderr (snd (read_header self w))
  = stderr w ++ (if i16_of b0 b1 =? -32767 then [] else [warning])
  /\ (i16_of b0 b1 = -32767 <-> b0 = x80 /\ b1 = x01).
Proof.
  intros Hp. split.
  - rewrite read_header_split.
    destruct (frame_read_header_version_Return self w b0 b1 rest Hp)
      as (w' & E & Hs).
    rewrite (bind_Return _ _ _ _ _ E), <- Hs.
    apply stderr_frame.
    apply (preserves_bind frame);
      [apply frame_read_header_type|intros _; apply frame_read_header_body].
  - split; [apply i16_of_marker|]. intros [-> ->]. reflexivity.
Qed.

(** A marker followed by nothing: no warning, though the decode fails; the
    bytes [00 01] followed by nothing: the warning. *)
Lemma warning_iff_version_mismatch_witness :
  (stderr (snd (read_header 0 (opened [x80; x01])))
   = stderr (opened [x80; x01])
     ++ (if i16_of x80 x01 =? -32767 then [] else [warning])
   /\ (i16_of x80 x01 = -32767 <-> x80 = x80 /\ x01 = x01))
  /\ (stderr (snd (read_header 0 (opened [x00; x01])))
      = stderr (opened [x00; x01])
        ++ (if i16_of x00 x01 =? -32767 then [] else [warning])
      /\ (i16_of x00 x01 = -32767 <-> x00 = x80 /\ x01 = x01))
  /\ fst (read_header 0 (opened [x80; x01])) = Raise struct_error.
Proof.
  split; [|split].
  - apply (warning_iff_version_mismatch 0 (opened [x80; x01]) x80 x01 []).
    reflexivity.
  - apply (warning_iff_version_mismatch 0 (opened [x00; x01]) x00 x01 []).
    reflexivity.
  - vm_compute. reflexivity.
Defined.

(** ** Only canonical encodings decode *)

Section Canonical.

Implicit Types (w : World) (self : nat) (bs : list byte).

Lemma be_unsigned_bounds bs :
  0 <= be_unsigned bs < 256 ^ Z.of_nat (length bs).
Proof.
  induction bs as [|b bs IH] using rev_ind.
  - cbn. lia.
  - rewrite be_unsigned_snoc, length_app. cbn [length].
    replace (Z.of_nat (length bs + 1)) with (Z.succ (Z.of_nat (length bs)))
      by lia.
    rewrite Z.pow_succ_r by lia.
    pose proof (byte_val_range b). lia.
Qed.

Lemma be_bytes_be_unsigned bs : be_bytes (length bs) (be_unsigned bs) = bs.
Proof.
  induction bs as [|b bs IH] using rev_ind; [reflexivity|].
  rewrite be_unsigned_snoc, length_app. cbn [length].
  rewrite Nat.add_1_r. cbn [be_bytes].
  pose proof (byte_val_range b) as Hb.
  replace ((be_unsigned bs * 256 + byte_val b) / 256) with (be_unsigned bs)
    by (Z.div_mod_to_equations; lia).
  replace ((be_unsigned bs * 256 + byte_val b) mod 256) with (byte_val b)
    by (Z.div_mod_to_equations; lia).
  rewrite IH, byte_of_val. reflexivity.
Qed.

Lemma be_bytes_shift n u k :
  be_bytes n (u + k * 256 ^ Z.of_nat n) = be_bytes n u.
Proof.
  revert u k. induction n as [|n IH]; intros u k; [reflexivity|].
  cbn [be_bytes]. rewrite Nat2Z.inj_succ, Z.pow_succ_r by lia.
  replace (u + k * (256 * 256 ^ Z.of_nat n))
    with (u + (k * 256 ^ Z.of_nat n) * 256) by lia.
  rewrite Z.div_add, Z.mod_add by lia. rewrite IH. reflexivity.
Qed.

Lemma be_bytes_to_signed n u : be_bytes n (to_signed n u) = be_bytes n u.
Proof.
  unfold to_signed. destruct (u <? 2 ^ (8 * Z.of_nat n - 1)); [reflexivity|].
  replace (2 ^ (8 * Z.of_nat n)) with (256 ^ Z.of_nat n)
    by (change 256 with (2 ^ 8); rewrite <- Z.pow_mul_r by lia; reflexivity).
  replace (u - 256 ^ Z.of_nat n) with (u + (-1) * 256 ^ Z.of_nat n) by lia.
  apply be_bytes_shift.
Qed.

(** What [unpack_one] returns is in the range of its format, and it is
    the value whose big-endian bytes are the buffer. *)
Lemma unpack_one_inv f bs v :
  unpack_one f bs = Return v ->
  bs = be_bytes (calcsize f) v
  /\ (if is_signed f
      then - 2 ^ (8 * Z.of_nat (calcsize f) - 1) <= v
           < 2 ^ (8 * Z.of_nat (calcsize f) - 1)
      else 0 <= v < 256 ^ Z.of_nat (calcsize f)).
Proof.
  unfold unpack_one.
  destruct (Nat.eqb_spec (length bs) (calcsize f)) as [Hl|]; [|discriminate].
  intros [= <-]. pose proof (be_unsigned_bounds bs) as Hb. rewrite Hl in *.
  destruct (is_signed f) eqn:Hs.
  - split.
    + rewrite be_bytes_to_signed, <- Hl. symmetry. apply be_bytes_be_unsigned.
    + unfold to_signed.
      assert (E : 256 ^ Z.of_nat (calcsize f)
                  = 2 * 2 ^ (8 * Z.of_nat (calcsize f) - 1)).
      { change 256 with (2 ^ 8). rewrite <- Z.pow_mul_r by lia.
        rewrite <- Z.pow_succ_r by (destruct f; cbn; lia).
        f_equal. lia. }
      assert (E2 : 2 ^ (8 * Z.of_nat (calcsize f))
                   = 2 * 2 ^ (8 * Z.of_nat (calcsize f) - 1)).
      { rewrite <- Z.pow_succ_r by (destruct f; cbn; lia). f_equal. lia. }
      rewrite E in Hb. rewrite E2.
      destruct (Z.ltb_spec (be_unsigned bs)
                  (2 ^ (8 * Z.of_nat (calcsize f) - 1))); lia.
  - split; [|exact Hb].
    rewrite <- Hl. symmetry. apply be_bytes_be_unsigned.
Qed.

(** An integer is read only from its bytes. *)
Lemma read_int_Return f self w v w' :
  read_int f self w = (Return v, w') ->
  exists xs rest,
    pending self w = Some (xs ++ rest) /\ length xs = calcsize f
    /\ unpack_one f xs = Return v
    /\ w' = advance self (calcsize f) w /\ pending self w' = Some rest.
Proof.
  unfold read_int. intros E.
  apply bind_Return_inv in E as (got & w1 & E1 & E2).
  pose proof (self_fp_read_effect self (Z.of_nat (calcsize f)) w) as H.
  rewrite E1 in H. destruct H as (-> & _ & bs & Hp & ->).
  unfold lift in E2. injection E2 as E2 <-.
  destruct (Z.eqb_spec (Z.of_nat (calcsize f)) (-1)); [lia|].
  rewrite Nat2Z.id in *.
  pose proof (unpack_one_Return _ _ _ E2) as Hl. rewrite Hl.
  exists (take (calcsize f) bs), (drop (calcsize f) bs).
  rewrite take_drop. repeat split; auto.
  rewrite pending_advance, Hp. reflexivity.
Qed.

End Canonical.

Module Utf8Sound.
Import Utf8 Utf8Facts.

Ltac split_hyp H :=
  repeat first
    [ discriminate H
    | match type of H with
      | context [?a =? ?b] => destruct (Z.eqb_spec a b)
      | context [?a <? ?b] => destruct (Z.ltb_spec a b)
      | context [?a <=? ?b] => destruct (Z.leb_spec a b)
      end; cbn [andb] in H ].

(** The four shapes of an accepted sequence. *)
Lemma decode_cons_inv (b0 : Z) (r0 : list Z) (s : str) :
  decode (b0 :: r0) = Some s ->
  (b0 < 0x80 /\ exists s', decode r0 = Some s' /\ s = b0 :: s')
  \/ (exists b1 r1 s',
         r0 = b1 :: r1 /\ 0xC2 <= b0 <= 0xDF /\ 0x80 <= b1 <= 0xBF
         /\ decode r1 = Some s'
         /\ s = ((b0 - 0xC0) * 64 + (b1 - 0x80)) :: s')
  \/ (exists b1 b2 r2 s',
         r0 = b1 :: b2 :: r2 /\ 0xE0 <= b0 <= 0xEF
         /\ 0x80 <= b1 <= 0xBF /\ 0x80 <= b2 <= 0xBF
         /\ (b0 = 0xE0 -> 0xA0 <= b1) /\ (b0 = 0xED -> b1 <= 0x9F)
         /\ decode r2 = Some s'
         /\ s = ((b0 - 0xE0) * 4096 + (b1 - 0x80) * 64 + (b2 - 0x80)) :: s')
  \/ (exists b1 b2 b3 r3 s',
         r0 = b1 :: b2 :: b3 :: r3 /\ 0xF0 <= b0 <= 0xF4
         /\ 0x80 <= b1 <= 0xBF /\ 0x80 <= b2 <= 0xBF /\ 0x80 <= b3 <= 0xBF
         /\ (b0 = 0xF0 -> 0x90 <= b1) /\ (b0 = 0xF4 -> b1 <= 0x8F)
         /\ decode r3 = Some s'
         /\ s = ((b0 - 0xF0) * 262144 + (b1 - 0x80) * 4096
                 + (b2 - 0x80) * 64 + (b3 - 0x80)) :: s').
Proof.
  intros H. cbn [decode] in H.
  destruct (Z.ltb_spec b0 0x80) as [H0|H0].
  { left. split; [exact H0|]. destruct (decode r0) eqn:Hd; [|discriminate].
    injection H as <-. eauto. }
  right. unfold between at 1 in H.
  destruct (Z.leb_spec 0xC2 b0), (Z.leb_spec b0 0xDF); cbn [andb] in H.
  { left. destruct r0 as [|b1 r1]; [discriminate|].
    unfold is_cont in H.
    destruct (Z.leb_spec 0x80 b1), (Z.leb_spec b1 0xBF); cbn [andb] in H;
      try discriminate.
    destruct (decode r1) eqn:Hd; [|discriminate]. injection H as <-.
    do 3 eexists. repeat split; eauto; lia. }
  all: right; unfold between at 1 in H.
  all: destruct (Z.leb_spec 0xE0 b0), (Z.leb_spec b0 0xEF); cbn [andb] in H.
  all: try (left; destruct r0 as [|b1 [|b2 r2]]; try discriminate;
            unfold between, is_cont in H; split_hyp H;
            destruct (decode r2) eqn:Hd; try discriminate; injection H as <-;
            do 4 eexists; repeat split; eauto; lia).
  all: right; unfold between at 1 in H.
  all: destruct (Z.leb_spec 0xF0 b0), (Z.leb_spec b0 0xF4); cbn [andb] in H;
    try discriminate.
  all: destruct r0 as [|b1 [|b2 [|b3 r3]]]; try discriminate;
    unfold between, is_cont in H; split_hyp H;
    destruct (decode r3) eqn:Hd; try discriminate; injection H as <-;
    do 5 eexists; repeat split; eauto; lia.
Qed.

(** An accepted sequence is the encoding of the text it decodes to, and
    the text consists of Unicode scalar values. *)
Lemma decode_sound (n : nat) (zs : list Z) (s : str) :
  (length zs <= n)%nat ->
  decode zs = Some s ->
  encode s = zs /\ (Forall (fun z => 0 <= z) zs -> Forall scalar s).
Proof.
  revert zs s. induction n as [|n IH]; intros zs s Hn H.
  { destruct zs; [|cbn in Hn; lia]. injection H as <-.
    split; [reflexivity|constructor]. }
  destruct zs as [|b0 r0].
  { injection H as <-. split; [reflexivity|constructor]. }
  apply decode_cons_inv in H
    as [(H0 & s' & Hd & ->)
       |[(b1 & r1 & s' & -> & H0 & H1 & Hd & ->)
        |[(b1 & b2 & r2 & s' & -> & H0 & H1 & H2 & Hlo & Hhi & Hd & ->)
         |(b1 & b2 & b3 & r3 & s' & -> & H0 & H1 & H2 & H3 & Hlo & Hhi
           & Hd & ->)]]];
    cbn [length] in Hn;
    (apply IH in Hd as [He Hs]; [|lia]);
    unfold encode in *; cbn [flat_map]; rewrite He; unfold encode_cp.
  - destruct (Z.ltb_spec b0 128); [|lia]. split; [reflexivity|].
    intros Hf. inversion Hf; subst. constructor; [|auto].
    unfold scalar. lia.
  - set (c := (b0 - 192) * 64 + (b1 - 128)).
    assert (Hc : 128 <= c < 2048) by (subst c; lia).
    destruct (Z.ltb_spec c 128); [lia|]. destruct (Z.ltb_spec c 2048); [|lia].
    split.
    + cbn [app]. f_equal; [|f_equal]; subst c; euclid.
    + intros Hf. constructor; [unfold scalar; lia|].
      apply Hs. inversion Hf as [|? ? ? Hf']; subst. inversion Hf'; auto.
  - set (c := (b0 - 224) * 4096 + (b1 - 128) * 64 + (b2 - 128)).
    assert (Hc : 2048 <= c < 65536 /\ ~ (55296 <= c <= 57343))
      by (subst c; lia).
    destruct (Z.ltb_spec c 128); [lia|]. destruct (Z.ltb_spec c 2048); [lia|].
    destruct (Z.ltb_spec c 65536); [|lia].
    split.
    + cbn [app]. f_equal; [|f_equal; [|f_equal]]; subst c; euclid.
    + intros Hf. constructor; [unfold scalar; lia|].
      apply Hs. inversion Hf as [|? ? ? Hf']; subst.
      inversion Hf' as [|? ? ? Hf'']; subst. inversion Hf''; auto.
  - set (c := (b0 - 240) * 262144 + (b1 - 128) * 4096
              + (b2 - 128) * 64 + (b3 - 128)).
    assert (Hc : 65536 <= c <= 1114111) by (subst c; lia).
    destruct (Z.ltb_spec c 128); [lia|]. destruct (Z.ltb_spec c 2048); [lia|].
    destruct (Z.ltb_spec c 65536); [lia|].
    split.
    + cbn [app]. f_equal; [|f_equal; [|f_equal; [|f_equal]]]; subst c; euclid.
    + intros Hf. constructor; [unfold scalar; lia|].
      apply Hs. inversion Hf as [|? ? ? Hf']; subst.
      inversion Hf' as [|? ? ? Hf'']; subst.
      inversion Hf'' as [|? ? ? Hf''']; subst. inversion Hf'''; auto.
Qed.

End Utf8Sound.

Section CanonicalStrings.

Implicit Types (w : World) (self : nat) (bs : list byte).

Lemma byte_of_val_list bs : byte_of <$> (byte_val <$> bs) = bs.
Proof.
  induction bs as [|b bs IH]; [reflexivity|].
  cbn [fmap list_fmap] in *. rewrite byte_of_val. f_equal. exact IH.
Qed.

(** Text that [decode_utf8] returns is well formed, and the bytes were its
    encoding. *)
Lemma decode_utf8_inv bs s :
  decode_utf8 bs = Return s -> utf8_bytes s = bs /\ Forall Utf8.scalar s.
Proof.
  unfold decode_utf8.
  destruct (Utf8.decode (byte_val <$> bs)) as [s'|] eqn:E; [|discriminate].
  intros [= ->].
  destruct (Utf8Sound.decode_sound _ _ _ (Nat.le_refl _) E) as [He Hs].
  split.
  - unfold utf8_bytes. rewrite He. apply byte_of_val_list.
  - apply Hs. apply Forall_fmap. apply Forall_forall. intros b _.
    apply byte_val_range.
Qed.

(** A string is read only from its length and its encoding. *)
Lemma read_string_Return self w s w' :
  read_string self w = (Return s, w') ->
  Forall Utf8.scalar s
  /\ Z.of_nat (length (utf8_bytes s)) < 2 ^ 31
  /\ exists rest,
       pending self w
       = Some (be_bytes 4 (Z.of_nat (length (utf8_bytes s)))
               ++ utf8_bytes s ++ rest)
       /\ pending self w' = Some rest.
Proof.
  unfold read_string. intros E.
  apply bind_Return_inv in E as (L & w1 & E1 & E).
  apply bind_Return_inv in E as (got & w2 & E2 & E).
  apply bind_Return_inv in E as (bs & w3 & E3 & E).
  unfold lift in E3, E. injection E3 as E3 <-. injection E as E <-.
  apply (read_int_Return fmt_i) in E1
    as (xs & rest1 & Hp & Hl & Hu & -> & Hp1).
  apply unpack_one_inv in Hu as [-> HL]. cbn [is_signed calcsize] in HL.
  change (2 ^ (8 * Z.of_nat 4 - 1)) with (2 ^ 31) in HL.
  match type of E2 with self_fp_read _ _ ?w0 = _ =>
    pose proof (self_fp_read_effect self L w0) as H end.
  rewrite E2 in H. destruct H as (-> & _ & bs1 & Hp1' & ->).
  cbn [calcsize] in *. rewrite Hp1 in Hp1'. injection Hp1' as <-.
  unfold unpack_one_s in E3.
  destruct (Z.ltb_spec L 0); [discriminate|].
  destruct (Z.eqb_spec L (-1)); [lia|].
  destruct (Z.eqb_spec (Z.of_nat (length (take (Z.to_nat L) rest1))) L)
    as [Hlen|]; [|discriminate].
  injection E3 as <-.
  apply decode_utf8_inv in E as [Hb Hs].
  split; [exact Hs|]. rewrite Hb, Hlen. split; [lia|].
  exists (drop (Z.to_nat L) rest1). split.
  - rewrite Hp, take_drop. reflexivity.
  - rewrite pending_advance, Hp1. cbn.
    rewrite length_take in Hlen |- *.
    replace (Z.to_nat L `min` length rest1)%nat with (Z.to_nat L) by lia.
    reflexivity.
Qed.

End CanonicalStrings.

Section OnlyCanonical.

Implicit Types (w : World) (self : nat).

Lemma read_int_canonical f self w v w' :
  read_int f self w = (Return v, w') ->
  (if is_signed f
   then - 2 ^ (8 * Z.of_nat (calcsize f) - 1) <= v
        < 2 ^ (8 * Z.of_nat (calcsize f) - 1)
   else 0 <= v < 256 ^ Z.of_nat (calcsize f))
  /\ exists rest,
       pending self w = Some (be_bytes (calcsize f) v ++ rest)
       /\ pending self w' = Some rest.
Proof.
  intros E. apply read_int_Return in E as (xs & rest & Hp & _ & Hu & _ & Hp').
  apply unpack_one_inv in Hu as [-> Hv]. split; [exact Hv|]. eauto.
Qed.

End OnlyCanonical.

(** X6. The integer and string readers accept one encoding per value: when
    the reader for byte, i16, i32, i64 or string returns, the value is
    representable, the unread bytes began with its canonical encoding, and
    the file is left just after it.  This is the converse of the round
    trip. *)
Theorem only_canonical_decodes rs self w m x w' :
  m ∈ [read_byte_m; read_i16_m; read_i32_m; read_i64_m; read_string_m] ->
  call_handler rs (self, m) w = (Return x, w') ->
  exists v rest,
    reader_of v = m /\ python_value v = x /\ representable v
    /\ pending self w = Some (canonical v ++ rest)
    /\ pending self w' = Some rest.
Proof.
  intros Hm E. unfold call_handler in E. cbn [fst snd] in E.
  repeat (apply elem_of_cons in Hm as [->|Hm]); [..|inversion Hm];
    apply bind_Return_inv in E as (z & w1 & E1 & E2);
    unfold ret in E2; injection E2 as <- <-.
  - apply (read_int_canonical fmt_B) in E1 as (Hv & rest & Hp & Hp').
    exists (WByte z), rest. split; [reflexivity|split; [reflexivity|split; [exact Hv|split; assumption]]].
  - apply (read_int_canonical fmt_h) in E1 as (Hv & rest & Hp & Hp').
    exists (WI16 z), rest. split; [reflexivity|split; [reflexivity|split; [exact Hv|split; assumption]]].
  - apply (read_int_canonical fmt_i) in E1 as (Hv & rest & Hp & Hp').
    exists (WI32 z), rest. split; [reflexivity|split; [reflexivity|split; [exact Hv|split; assumption]]].
  - apply (read_int_canonical fmt_q) in E1 as (Hv & rest & Hp & Hp').
    exists (WI64 z), rest. split; [reflexivity|split; [reflexivity|split; [exact Hv|split; assumption]]].
  - apply read_string_Return in E1 as (Hs & Hl & rest & Hp & Hp').
    exists (WString z), rest. cbn [canonical]. rewrite <- app_assoc.
    split; [reflexivity|split; [reflexivity|]].
    split; [split; assumption|split; assumption].
Qed.

Lemma only_canonical_decodes_witness :
  exists v rest,
    reader_of v = read_i16_m /\ python_value v = VInt (-2)
    /\ representable v
    /\ pending 0 (opened [xff; xfe; x07]) = Some (canonical v ++ rest)
    /\ pending 0 (advance 0 2 (opened [xff; xfe; x07])) = Some rest.
Proof.
  apply (only_canonical_decodes read_struct 0 (opened [xff; xfe; x07])
           read_i16_m (VInt (-2)) (advance 0 2 (opened [xff; xfe; x07]))).
  - compute_done.
  - vm_compute. reflexivity.
Defined.

(** ** Types of decoded fields *)

Section Typed.

Implicit Types (w : World) (self : nat).

Lemma typed_own self w w' :
  own self w' = own self w -> typed self w -> typed self w'.
Proof. intros E (tbl & c & H & Ht). exists tbl, c. rewrite E. auto. Qed.

Lemma Forall_odict_set (P : str * value -> Prop) k v tbl :
  P (k, v) -> Forall P tbl -> Forall P (odict_set k v tbl).
Proof.
  intros Hkv. induction 1 as [|[k' v'] tbl Hx Ht IH]; cbn [odict_set].
  - repeat constructor. exact Hkv.
  - destruct (decide (k' = k)); constructor; auto.
Qed.

(** The tag decides the reader. *)
Lemma handlers_of_cases self t h :
  handlers_of self !! t = Some h ->
  fst h = self
  /\ (t, snd h) ∈ [(2, read_bool_m); (3, read_byte_m); (4, read_double_m);
                   (6, read_i16_m); (8, read_i32_m); (10, read_i64_m);
                   (11, read_string_m); (12, read_struct_m);
                   (13, read_map_m); (14, read_set_m); (15, read_list_m);
                   (16, read_enum_m)].
Proof.
  unfold handlers_of. intros H.
  repeat (rewrite lookup_insert in H;
          destruct (decide (_ = t)) as [<-|?];
          [injection H as <-; split; [reflexivity|compute_done]|]).
  rewrite lookup_empty in H. discriminate.
Qed.

(** What recording a field does to a typed table. *)
Lemma record_field_typed self w i t v f w' :
  typed self w ->
  (t = 12 -> exists fs, v = VTuple fs /\ Forall well_typed fs) ->
  record_field self i t v w = (Return f, w') ->
  typed self w'
  /\ if t =? 12 then exists n, f = (i, 12, VStr (struct_name n))
     else f = (i, t, v).
Proof.
  intros (tbl & c & Ho & Ht) Hv. unfold record_field.
  destruct (Z.eqb_spec t 12) as [->|Hne].
  2:{ intros [= <- <-]. split; [exists tbl, c; auto|reflexivity]. }
  destruct (Hv eq_refl) as (fs & -> & Hfs).
  unfold own in Ho. injection Ho as Hh Hd.
  destruct (heap w !! self) as [d|] eqn:Ed; [|discriminate].
  cbn in Hd. injection Hd as Hs Hc.
  unfold bind at 1, get_self. rewrite Ed.
  unfold bind at 1. rewrite (update_self_eq _ _ _ _ Ed).
  set (w1 := set_heap _ w).
  assert (E1 : heap w1 !! self = Some
                 (set_struct_name_counter (S (struct_name_counter d)) d)).
  { subst w1. cbn. apply list_lookup_insert_eq.
    eapply lookup_lt_Some. exact Ed. }
  unfold bind. rewrite (update_self_eq _ _ _ _ E1). unfold ret.
  intros [= <- <-]. split; [|eauto].
  exists (odict_set (struct_name c) (VTuple fs) tbl), (S c). split.
  - subst w1. unfold own. cbn. rewrite list_insert_insert_eq.
    rewrite list_lookup_insert_eq by (eapply lookup_lt_Some; exact Ed).
    cbn. rewrite Hh, Hs, Hc. reflexivity.
  - apply Forall_odict_set; [|exact Ht]. exists fs. auto.
Qed.

(** A scalar reader returns a value of its type. *)
Lemma call_handler_typed rs self t m v w w' :
  (t, m) ∈ [(2, read_bool_m); (3, read_byte_m); (4, read_double_m);
            (6, read_i16_m); (8, read_i32_m); (10, read_i64_m);
            (11, read_string_m); (13, read_map_m); (14, read_set_m);
            (15, read_list_m); (16, read_enum_m)] ->
  call_handler rs (self, m) w = (Return v, w') ->
  forall i, - 2 ^ 15 <= i < 2 ^ 15 -> well_typed (i, t, v).
Proof.
  intros Hm E i Hi. unfold call_handler in E. cbn [fst snd] in E.
  repeat (apply elem_of_cons in Hm as [[= -> ->]|Hm]); [..|inversion Hm];
    try discriminate E;
    apply bind_Return_inv in E as (z & w1 & E1 & E2);
    unfold ret in E2; injection E2 as <- <-;
    (split; [exact Hi|]).
  - reflexivity.
  - apply (read_int_canonical fmt_B) in E1 as [Hv _]. left. split; [reflexivity|exact Hv].
  - apply (read_int_canonical fmt_h) in E1 as [Hv _].
    right; left. split; [reflexivity|exact Hv].
  - apply (read_int_canonical fmt_i) in E1 as [Hv _].
    right; right; left. split; [reflexivity|exact Hv].
  - apply (read_int_canonical fmt_q) in E1 as [Hv _].
    right; right; right. split; [reflexivity|exact Hv].
  - apply read_string_Return in E1 as [Hs _]. left. split; [reflexivity|exact Hs].
Qed.

(** The loop of [read_struct] gathers typed fields and keeps the table
    typed. *)
Lemma read_struct_loop_typed fuel self fields t w fs w' :
  typed self w -> Forall well_typed fields ->
  read_struct_loop fuel self fields t w = (Return fs, w') ->
  typed self w' /\ Forall well_typed fs.
Proof.
  revert self fields t w fs w'.
  induction fuel as [|fuel IH]; intros self fields t w fs w' Hg Hn.
  { rewrite read_struct_loop_0. destruct (t =? 0); [|discriminate].
    intros [= <- <-]. eauto. }
  rewrite read_struct_loop_S. destruct (t =? 0).
  { intros [= <- <-]. eauto. }
  intros E.
  apply bind_Return_inv in E as (field_id & w1 & E1 & E).
  apply bind_Return_inv in E as (h & w2 & E2 & E).
  apply bind_Return_inv in E as (field_data & w3 & E3 & E).
  apply bind_Return_inv in E as (f & w4 & E4 & E).
  apply bind_Return_inv in E as (t' & w5 & E5 & E).
  pose proof (preserves_at _ _ _ _ _ (own_read_int self fmt_h self) E1) as O1.
  apply (read_int_canonical fmt_h) in E1 as [Hi _].
  change (- 2 ^ 15 <= field_id < 2 ^ 15) in Hi.
  apply (typed_own _ _ _ O1) in Hg. clear O1.
  assert (Hh : handlers_of self !! t = Some h /\ w2 = w1).
  { destruct Hg as (tbl & c & Ho & _). injection Ho as Hh _.
    unfold lookup_handler in E2. rewrite Hh in E2.
    destruct (handlers_of self !! t); [|discriminate].
    injection E2 as <- <-. auto. }
  destruct Hh as [Hh ->]. clear E2.
  apply handlers_of_cases in Hh as [Ho Hm]. destruct h as [o m].
  cbn in Ho, Hm. subst o.
  assert (H3 : typed self w3
               /\ if t =? 12
                  then exists fs0, field_data = VTuple fs0
                                   /\ Forall well_typed fs0
                  else well_typed (field_id, t, field_data)).
  { destruct (Z.eqb_spec t 12) as [->|Hne].
    - assert (m = read_struct_m) as ->.
      { repeat (apply elem_of_cons in Hm as [[= <-]|Hm]); try reflexivity.
        inversion Hm. }
      unfold call_handler in E3. cbn [fst snd] in E3.
      apply bind_Return_inv in E3 as (fs0 & w3' & E3 & [= <- <-]).
      apply bind_Return_inv in E3 as (t0 & w2' & E0 & E3).
      apply (preserves_at _ _ _ _ _ (own_read_int self fmt_B self)) in E0.
      apply (typed_own _ _ _ E0) in Hg.
      destruct (IH _ _ _ _ _ _ Hg (Forall_nil_2 _) E3) as [Hg3 Hn3].
      split; [exact Hg3|]. eauto.
    - assert (Hm' : m <> read_struct_m
                    /\ (t, m) ∈ [(2, read_bool_m); (3, read_byte_m);
                         (4, read_double_m); (6, read_i16_m);
                         (8, read_i32_m); (10, read_i64_m);
                         (11, read_string_m); (13, read_map_m);
                         (14, read_set_m); (15, read_list_m);
                         (16, read_enum_m)]).
      { repeat (apply elem_of_cons in Hm as [[= -> ->]|Hm]);
          try (split; [discriminate|compute_done]);
          [contradiction|inversion Hm]. }
      destruct Hm' as [Hne' Hm'].
      split.
      + apply (preserves_at _ _ _ _ _ (own_call_handler self _ self m Hne'))
          in E3.
        eapply typed_own; eassumption.
      + eapply call_handler_typed; eassumption. }
  destruct H3 as [Hg3 Hv].
  assert (H4 : typed self w4 /\ well_typed f).
  { pose proof (record_field_typed self w3 field_id t field_data f w4 Hg3)
      as Hr.
    destruct (Z.eqb_spec t 12) as [->|Hne].
    - destruct (Hr (fun _ => Hv) E4) as [Hg4 (n & ->)].
      split; [exact Hg4|]. split; [exact Hi|]. right. eauto.
    - destruct (Hr (fun Ht => False_ind _ (Hne Ht)) E4) as [Hg4 ->].
      auto. }
  destruct H4 as [Hg4 Hf].
  apply (preserves_at _ _ _ _ _ (own_read_int self fmt_B self)) in E5.
  apply (typed_own _ _ _ E5) in Hg4.
  eapply IH; [exact Hg4| |exact E].
  apply Forall_app. split; [exact Hn|]. repeat constructor. exact Hf.
Qed.

Lemma read_struct_typed self w fs w' :
  typed self w ->
  read_struct self w = (Return fs, w') ->
  typed self w' /\ Forall well_typed fs.
Proof.
  intros Hg E. unfold read_struct, read_struct_fuel in E.
  apply bind_Return_inv in E as (t & w1 & E1 & E).
  apply (preserves_at _ _ _ _ _ (own_read_int self fmt_B self)) in E1.
  apply (typed_own _ _ _ E1) in Hg.
  eapply read_struct_loop_typed; [exact Hg|constructor|exact E].
Qed.

End Typed.

(** ** The header, read backwards *)

Section HeaderLayout.

Implicit Types (w : World) (self : nat).

Lemma update_self_Return self (g : ThriftDecoder -> ThriftDecoder) w u w' :
  update_self self g w = (Return u, w') ->
  exists d, heap w !! self = Some d
            /\ w' = set_heap (<[self := g d]> (heap w)) w.
Proof.
  destruct (heap w !! self) as [d|] eqn:Hd.
  - rewrite (update_self_eq _ _ _ _ Hd). intros [= <- <-]. eauto.
  - rewrite update_self_None by exact Hd. discriminate.
Qed.

Lemma update_self_obs {X} (p : ThriftDecoder -> X) self g w u w' :
  update_self self g w = (Return u, w') ->
  exists d, heap w !! self = Some d /\ obs p self w' = Some (p (g d)).
Proof.
  intros E. apply update_self_Return in E as (d & Hd & ->).
  exists d. split; [exact Hd|]. unfold obs. cbn [set_heap heap].
  rewrite list_lookup_insert_eq by (eapply lookup_lt_Some; exact Hd).
  reflexivity.
Qed.

Lemma pending_update_self self o g :
  (forall d, fp (g d) = fp d) -> preserves (pending self) (update_self o g).
Proof.
  intros Hg w. rewrite !pending_obs.
  rewrite (obs_update_self fp self o g Hg w). reflexivity.
Qed.

Ltac upd_facts self E P O :=
  match type of E with
  | update_self _ ?g _ = _ =>
    pose proof (preserves_at _ _ _ _ _
                  (pending_update_self self self g (fun _ => eq_refl)) E) as P;
    pose proof (preserves_at _ _ _ _ _
                  (own_update_self self self g
                     (fun _ => conj eq_refl eq_refl)) E) as O
  end.

Ltac upd_obs p self E N :=
  match type of E with
  | update_self _ ?g _ = _ =>
    pose proof (preserves_at _ _ _ _ _
                  (obs_update_self p self self g (fun _ => eq_refl)) E) as N
  end.

(** The three parts of the header, when they return. *)
Lemma read_header_version_Return self w w' :
  read_header_version self w = (Return tt, w') ->
  exists v rest,
    - 2 ^ 15 <= v < 2 ^ 15
    /\ pending self w = Some (be_bytes 2 v ++ rest)
    /\ pending self w' = Some rest
    /\ obs version self w' = Some (Some v)
    /\ own self w' = own self w.
Proof.
  unfold read_header_version. intros E.
  apply bind_Return_inv in E as (v & w1 & E1 & E).
  apply bind_Return_inv in E as ([] & w2 & E2 & E).
  apply bind_Return_inv in E as (expected & w3 & E3 & E).
  unfold lift in E3. injection E3 as _ <-.
  pose proof (preserves_at _ _ _ _ _ (own_read_int self fmt_h self) E1) as O1.
  apply (read_int_canonical fmt_h) in E1 as (Hv & rest & Hp & Hp1).
  upd_facts self E2 P2 O2.
  apply (update_self_obs version) in E2 as (d & _ & V2).
  cbn [version message_type method_name sequence_id fields set_version
       set_message_type set_method_name set_sequence_id set_fields] in V2.
  assert (H : pending self w' = pending self w2
              /\ obs version self w' = obs version self w2
              /\ own self w' = own self w2).
  { destruct (negb (v =? expected)); injection E as <-; auto. }
  destruct H as (P3 & V3 & O3).
  exists v, rest. split; [exact Hv|]. split; [exact Hp|].
  split; [congruence|]. split; [congruence|congruence].
Qed.

Lemma read_header_type_Return self w w' :
  read_header_type self w = (Return tt, w') ->
  exists mt rest,
    - 2 ^ 15 <= mt < 2 ^ 15
    /\ pending self w = Some (be_bytes 2 mt ++ rest)
    /\ pending self w' = Some rest
    /\ obs message_type self w' = Some (Some mt)
    /\ obs version self w' = obs version self w
    /\ own self w' = own self w.
Proof.
  intros E.
  pose proof (preserves_at _ _ _ _ _ (version_read_header_type self self) E)
    as V.
  unfold read_header_type in E.
  apply bind_Return_inv in E as (mt & w1 & E1 & E2).
  pose proof (preserves_at _ _ _ _ _ (own_read_int self fmt_h self) E1) as O1.
  apply (read_int_canonical fmt_h) in E1 as (Hv & rest & Hp & Hp1).
  upd_facts self E2 P2 O2.
  apply (update_self_obs message_type) in E2 as (d & _ & V2).
  cbn [version message_type method_name sequence_id fields set_version
       set_message_type set_method_name set_sequence_id set_fields] in V2.
  exists mt, rest. split; [exact Hv|]. split; [exact Hp|].
  split; [congruence|]. split; [exact V2|]. split; [exact V|congruence].
Qed.

Lemma read_header_body_Return self w w' :
  read_header_body self w = (Return tt, w') ->
  exists name seq body fs w1 w2,
    representable (WString name) /\ - 2 ^ 31 <= seq < 2 ^ 31
    /\ pending self w
       = Some (canonical (WString name) ++ be_bytes 4 seq ++ body)
    /\ own self w1 = own self w /\ pending self w1 = Some body
    /\ read_struct self w1 = (Return fs, w2)
    /\ own self w' = own self w2
    /\ obs method_name self w' = Some (Some name)
    /\ obs sequence_id self w' = Some (Some seq)
    /\ obs fields self w' = Some fs
    /\ obs version self w' = obs version self w
    /\ obs message_type self w' = obs message_type self w.
Proof.
  intros E.
  pose proof (preserves_at _ _ _ _ _
    (obs_read_header_body version self self
       (fun _ _ => eq_refl) (fun _ _ => eq_refl) (fun _ _ => eq_refl)
       (fun _ _ => eq_refl) (fun _ _ => eq_refl) (fun _ _ => eq_refl)) E)
    as V.
  pose proof (preserves_at _ _ _ _ _
    (obs_read_header_body message_type self self
       (fun _ _ => eq_refl) (fun _ _ => eq_refl) (fun _ _ => eq_refl)
       (fun _ _ => eq_refl) (fun _ _ => eq_refl) (fun _ _ => eq_refl)) E)
    as T.
  unfold read_header_body in E.
  apply bind_Return_inv in E as (name & wa & Ea & E).
  apply bind_Return_inv in E as ([] & wb & Eb & E).
  apply bind_Return_inv in E as (seq & wc & Ec & E).
  apply bind_Return_inv in E as ([] & wd & Ed & E).
  apply bind_Return_inv in E as (fs & we & Ee & E).
  (* the method name *)
  pose proof (preserves_at _ _ _ _ _ (own_read_string self self) Ea) as Oa.
  apply read_string_Return in Ea as (Hs & Hl & rest & Hp & Hpa).
  upd_facts self Eb Pb Ob.
  apply (update_self_obs method_name) in Eb as (db & _ & Nb).
  cbn [version message_type method_name sequence_id fields set_version
       set_message_type set_method_name set_sequence_id set_fields] in Nb.
  (* the sequence id *)
  pose proof (preserves_at _ _ _ _ _ (own_read_int self fmt_i self) Ec) as Oc.
  pose proof (preserves_at _ _ _ _ _
    (obs_read_int method_name (fun _ _ => eq_refl) self fmt_i self) Ec) as Nc.
  apply (read_int_canonical fmt_i) in Ec as (Hv & body & Hpc & Hpc').
  upd_facts self Ed Pd Od.
  upd_obs method_name self Ed Nd.
  apply (update_self_obs sequence_id) in Ed as (dd & _ & Sd).
  cbn [version message_type method_name sequence_id fields set_version
       set_message_type set_method_name set_sequence_id set_fields] in Sd.
  (* the struct *)
  pose proof (preserves_at _ _ _ _ _
    (obs_read_struct method_name (fun _ _ => eq_refl) (fun _ _ => eq_refl)
       (fun _ _ => eq_refl) self self) Ee) as Ne.
  pose proof (preserves_at _ _ _ _ _
    (obs_read_struct sequence_id (fun _ _ => eq_refl) (fun _ _ => eq_refl)
       (fun _ _ => eq_refl) self self) Ee) as Se.
  match type of E with update_self _ ?g _ = _ =>
    pose proof (preserves_at _ _ _ _ _
      (own_update_self self self g (fun _ => conj eq_refl eq_refl)) E) as Of
  end.
  upd_obs method_name self E Nf.
  upd_obs sequence_id self E Sf.
  apply (update_self_obs fields) in E as (df & _ & Ff).
  cbn [version message_type method_name sequence_id fields set_version
       set_message_type set_method_name set_sequence_id set_fields] in Ff.
  exists name, seq, body, fs, wd, we.
  split; [split; assumption|]. split; [exact Hv|].
  split.
  { rewrite Hp. cbn [canonical]. rewrite <- app_assoc. do 2 f_equal.
    rewrite Pb, Hpa in Hpc. injection Hpc as ->. reflexivity. }
  split; [congruence|]. split; [congruence|]. split; [exact Ee|].
  split; [exact Of|]. split; [congruence|]. split; [congruence|].
  split; [exact Ff|]. split; [exact V|exact T].
Qed.

Lemma read_header_Return self w w' :
  read_header self w = (Return tt, w') ->
  exists v mt name seq body fs w1 w2 d,
    representable (WI16 v) /\ representable (WI16 mt)
    /\ representable (WString name) /\ representable (WI32 seq)
    /\ pending self w
       = Some (canonical (WI16 v) ++ canonical (WI16 mt)
               ++ canonical (WString name) ++ canonical (WI32 seq) ++ body)
    /\ own self w1 = own self w /\ pending self w1 = Some body
    /\ read_struct self w1 = (Return fs, w2)
    /\ own self w' = own self w2
    /\ heap w' !! self = Some d
    /\ version d = Some v /\ message_type d = Some mt
    /\ method_name d = Some name /\ sequence_id d = Some seq
    /\ fields d = fs.
Proof.
  rewrite read_header_split. intros E.
  apply bind_Return_inv in E as ([] & wa & Ea & E).
  apply bind_Return_inv in E as ([] & wb & Eb & E).
  apply read_header_version_Return in Ea
    as (v & r1 & Hv & P0 & Pa & Va & Oa).
  apply read_header_type_Return in Eb
    as (mt & r2 & Hmt & Pa' & Pb & Tb & Vb & Ob).
  apply read_header_body_Return in E
    as (name & seq & body & fs & w1 & w2 & Hn & Hs & Pb' & O1 & P1 & Es
        & O2 & N & S & F & V & T).
  unfold obs in N, S, F, V, T, Va, Tb, Vb.
  destruct (heap w' !! self) as [d|] eqn:Hd; [|discriminate].
  cbn in N, S, F, V, T.
  exists v, mt, name, seq, body, fs, w1, w2, d.
  split; [exact Hv|]. split; [exact Hmt|]. split; [exact Hn|].
  split; [exact Hs|].
  split.
  { rewrite P0. cbn [canonical]. do 2 f_equal.
    rewrite Pa in Pa'. injection Pa' as ->. do 1 f_equal.
    rewrite Pb in Pb'. injection Pb' as ->. reflexivity. }
  split; [congruence|]. split; [exact P1|]. split; [exact Es|].
  split; [exact O2|]. split; [reflexivity|].
  split; [congruence|]. split; [congruence|].
  split; [congruence|]. split; [congruence|congruence].
Qed.

End HeaderLayout.

Section DecodeReturn.

Implicit Types (w : World) (self : nat).

(** [decode] returns only after opening the file and reading a whole
    header from its first byte on. *)
Lemma decode_Return self fn w w' :
  decode self fn w = (Return tt, w') ->
  exists buf w0,
    files w !! fn = Some buf
    /\ own self w0 = own self w
    /\ pending self w0 = Some buf
    /\ read_header self w0 = (Return tt, w').
Proof.
  unfold decode. intros E.
  apply bind_Return_inv in E as (f & w1 & E1 & E).
  apply bind_Return_inv in E as ([] & w0 & E2 & E).
  unfold open_rb in E1.
  destruct (files w !! fn) as [buf|]; [|discriminate].
  injection E1 as <- <-.
  match type of E2 with update_self _ ?g _ = _ =>
    pose proof (preserves_at _ _ _ _ _
      (own_update_self self self g (fun _ => conj eq_refl eq_refl)) E2) as O
  end.
  apply (update_self_obs fp) in E2 as (d & _ & F).
  exists buf, w0. split; [reflexivity|]. split; [exact O|].
  split; [|exact E].
  rewrite pending_obs, F. reflexivity.
Qed.

End DecodeReturn.

Section DecodeTyped.

Implicit Types (w : World) (self : nat).

Lemma decode_typed self fn w w' :
  typed self w ->
  decode self fn w = (Return tt, w') ->
  typed self w'
  /\ exists d mt,
       heap w' !! self = Some d /\ message_type d = Some mt
       /\ Forall well_typed (fields d) /\ Forall struct_typed (structs d).
Proof.
  intros Ht E.
  apply decode_Return in E as (buf & w0 & _ & O0 & _ & E).
  apply read_header_Return in E
    as (v & mt & name & seq & body & fs & w1 & w2 & d & _ & _ & _ & _ & _
        & O1 & _ & Es & O2 & Hd & _ & Hmt & _ & _ & Hf).
  apply (typed_own _ _ _ O0) in Ht. apply (typed_own _ _ _ O1) in Ht.
  destruct (read_struct_typed _ _ _ _ Ht Es) as [Ht2 Hfs].
  apply (typed_own _ _ _ O2) in Ht2. split; [exact Ht2|].
  exists d, mt. split; [exact Hd|]. split; [exact Hmt|].
  split; [rewrite Hf; exact Hfs|].
  destruct Ht2 as (tbl & c & Ho & Htbl). unfold own in Ho.
  rewrite Hd in Ho. cbn in Ho. injection Ho as _ -> _. exact Htbl.
Qed.

End DecodeTyped.

(** X7. Types of what a decode stores.  When the decoder dispatches to
    itself and its struct table is typed (as after construction), a decode
    that returns leaves typed fields and a typed struct table: every field
    id is an i16, every value is a bool under tag 2, an integer in the
    range of its tag, a text of Unicode scalar values under tag 11 or a
    synthetic struct name under tag 12, and every table entry is a tuple of
    such fields. *)
Theorem decoded_fields_well_typed self fn w :
  typed self w ->
  fst (decode self fn w) = Return tt ->
  exists d,
    heap (snd (decode self fn w)) !! self = Some d
    /\ Forall well_typed (fields d) /\ Forall struct_typed (structs d).
Proof.
  intros Ht. destruct (decode self fn w) as [r w'] eqn:E. cbn [fst snd].
  intros ->.
  destruct (decode_typed _ _ _ _ Ht E) as (_ & d & mt & Hd & _ & Hf & Hs).
  eauto.
Qed.

Lemma decoded_fields_well_typed_witness :
  exists d,
    heap (snd (decode 0 "in" (constructed nested))) !! 0%nat = Some d
    /\ Forall well_typed (fields d) /\ Forall struct_typed (structs d).
Proof.
  apply (decoded_fields_well_typed 0 "in" (constructed nested)).
  - exists [], 0%nat. split; [vm_compute; reflexivity|constructor].
  - vm_compute. reflexivity.
Defined.

(** X8. The header, read backwards.  When a decode returns, the file
    began with the canonical encodings of the four header attributes it
    stored, in the order version, message type, method name, sequence id:
    the attributes determine the header bytes. *)
Theorem header_is_canonical self fn w :
  fst (decode self fn w) = Return tt ->
  exists d v mt name seq buf body,
    heap (snd (decode self fn w)) !! self = Some d
    /\ version d = Some v /\ message_type d = Some mt
    /\ method_name d = Some name /\ sequence_id d = Some seq
    /\ representable (WI16 v) /\ representable (WI16 mt)
    /\ representable (WString name) /\ representable (WI32 seq)
    /\ files w !! fn = Some buf
    /\ buf = canonical (WI16 v) ++ canonical (WI16 mt)
             ++ canonical (WString name) ++ canonical (WI32 seq) ++ body.
Proof.
  destruct (decode self fn w) as [r w'] eqn:E. cbn [fst snd]. intros ->.
  apply decode_Return in E as (buf & w0 & Hb & _ & P0 & E).
  apply read_header_Return in E
    as (v & mt & name & seq & body & fs & w1 & w2 & d & Hv & Hmt & Hn & Hs
        & P & _ & _ & _ & _ & Hd & V & T & N & S & _).
  exists d, v, mt, name, seq, buf, body.
  rewrite P0 in P. injection P as P.
  repeat (split; [assumption|]). exact P.
Qed.

Lemma header_is_canonical_witness :
  exists d v mt name seq buf body,
    heap (snd (decode 0 "in" (constructed ping))) !! 0%nat = Some d
    /\ version d = Some v /\ message_type d = Some mt
    /\ method_name d = Some name /\ sequence_id d = Some seq
    /\ representable (WI16 v) /\ representable (WI16 mt)
    /\ representable (WString name) /\ representable (WI32 seq)
    /\ files (constructed ping) !! "in"%string = Some buf
    /\ buf = canonical (WI16 v) ++ canonical (WI16 mt)
             ++ canonical (WString name) ++ canonical (WI32 seq) ++ body.
Proof.
  apply (header_is_canonical 0 "in" (constructed ping)).
  vm_compute. reflexivity.
Defined.

(** ** Rendering a decoded message *)

Section Render.

Variable tuple_str : list field -> str.

Implicit Types (w : World) (self : nat).

Lemma tables_eq w w' :
  tables w' = tables w ->
  type_handlers w' = type_handlers w /\ type_names w' = type_names w
  /\ message_types w' = message_types w /\ files w' = files w
  /\ length (heap w') = length (heap w).
Proof. unfold tables. intros [=]. auto. Qed.

Lemma tables_of_frame {A} (c : M A) :
  preserves frame c -> preserves tables c.
Proof.
  intros H w. specialize (H w). unfold frame in H. unfold tables.
  injection H as -> -> -> _ -> ->. reflexivity.
Qed.

Lemma tables_read_header self : preserves tables (read_header self).
Proof.
  intros w. rewrite read_header_split. revert w.
  apply preserves_bind.
  { unfold read_header_version.
    apply preserves_bind;
      [apply tables_of_frame, (frame_read_int fmt_h)|intros v].
    apply preserves_bind;
      [apply tables_of_frame, frame_update_self|intros _].
    apply preserves_bind; [apply preserves_pure|intros expected].
    destruct (negb (v =? expected)); intros w; reflexivity. }
  intros _. apply preserves_bind.
  { apply tables_of_frame, frame_read_header_type. }
  intros _. apply tables_of_frame, frame_read_header_body.
Qed.

Lemma tables_decode self fn : preserves tables (decode self fn).
Proof.
  unfold decode. apply preserves_bind.
  { intros w. unfold open_rb. destruct (files w !! fn); reflexivity. }
  intros f. apply preserves_bind;
    [apply tables_of_frame, frame_update_self|intros _].
  apply tables_read_header.
Qed.

Lemma collect_Done {A B} (f : A -> result B) (xs : list A) :
  Forall (fun x => exists y, f x = Done y) xs ->
  exists ys, collect f xs = Done ys /\ length ys = length xs.
Proof.
  induction 1 as [|x xs [y Hy] _ [ys [IH Hl]]]; cbn [collect].
  - exists []. auto.
  - rewrite Hy. cbn [and_then]. rewrite IH. cbn [and_then].
    exists (y :: ys). cbn. auto.
Qed.

(** A typed field has a registered tag. *)
Lemma well_typed_registered i t v : well_typed (i, t, v) -> t ∈ registered.
Proof.
  intros [_ H]. unfold registered.
  destruct v as [b|z|s|fs];
    [|destruct H as [[-> _]|[[-> _]|[[-> _]|[-> _]]]]
     |destruct H as [[-> _]|[-> _]]|destruct H];
    subst; compute_done.
Qed.

Lemma format_fields_typed w fs :
  named w -> Forall well_typed fs ->
  exists ls, collect (fun f => _format_field tuple_str w f 2) fs = Done ls
             /\ length ls = length fs.
Proof.
  intros Hn Hfs. apply collect_Done.
  eapply Forall_impl; [exact Hfs|]. intros [[i t] v] Hf.
  apply well_typed_registered, Hn in Hf. destruct Hf as [name Hname].
  unfold _format_field. rewrite Hname. eauto.
Qed.

Lemma structs_lines_typed w tbl :
  named w -> Forall struct_typed tbl ->
  exists ls, structs_lines tuple_str w tbl = Done ls.
Proof.
  intros Hn. induction 1 as [|[k v] tbl (fs & Hv & Hfs) _ [rest IH]];
    cbn [structs_lines]; [eauto|].
  cbn [snd] in Hv. subst v. cbn [struct_lines].
  destruct (format_fields_typed w fs Hn Hfs) as (ls & -> & _).
  cbn [and_then]. rewrite IH. cbn [and_then]. eauto.
Qed.

(** A typed decoder renders exactly when its message type has a name. *)
Lemma str_typed w d mt :
  named w -> message_type d = Some mt ->
  Forall well_typed (fields d) -> Forall struct_typed (structs d) ->
  match message_types w !! mt with
  | Some kind => exists text, __str__ tuple_str w d = Done text
  | None => __str__ tuple_str w d = Fails (Exn (KeyError mt))
  end.
Proof.
  intros Hn Hmt Hf Hs. unfold __str__. rewrite Hmt.
  destruct (message_types w !! mt) as [kind|]; [|reflexivity].
  destruct (format_fields_typed w _ Hn Hf) as (ls & -> & _).
  cbn [and_then]. destruct (structs d) as [|kv tbl] eqn:E; [eauto|].
  destruct (structs_lines_typed w _ Hn Hs) as (sl & ->).
  cbn [and_then]. eauto.
Qed.

End Render.

(** ** The constructor *)

Section Constructor.

Implicit Types (w : World) (self : nat).

Ltac by_key t :=
  cbn [snd type_handlers type_names message_types];
  rewrite ?lookup_insert; repeat case_decide; subst;
  try reflexivity; try (eexists; reflexivity).

Lemma unregistered t :
  16 <> t -> 15 <> t -> 14 <> t -> 13 <> t -> 12 <> t -> 11 <> t ->
  10 <> t -> 8 <> t -> 6 <> t -> 4 <> t -> 3 <> t -> 2 <> t ->
  t ∉ registered.
Proof.
  intros. unfold registered. rewrite !elem_of_cons, elem_of_nil.
  intuition congruence.
Qed.

(** After [ThriftDecoder()] every registered tag dispatches to the new
    instance. *)
Lemma new_handlers w :
  (forall t, t ∉ registered -> type_handlers w !! t = None) ->
  type_handlers (snd (new_ThriftDecoder w)) = handlers_of (length (heap w)).
Proof.
  intros H. apply map_eq. intros t. unfold new_ThriftDecoder, handlers_of.
  by_key t. rewrite lookup_empty. apply H, unregistered; assumption.
Qed.

Lemma new_named w : named (snd (new_ThriftDecoder w)).
Proof.
  intros t Ht. unfold new_ThriftDecoder.
  cbn [snd type_names]. unfold registered in Ht.
  rewrite !elem_of_cons, elem_of_nil in Ht.
  rewrite !lookup_insert. repeat case_decide; subst;
    try (eexists; reflexivity). exfalso. intuition congruence.
Qed.

Lemma new_names w w0 :
  (forall t, t ∉ registered -> type_names w !! t = None) ->
  (forall t, t ∉ registered -> type_names w0 !! t = None) ->
  type_names (snd (new_ThriftDecoder w))
  = type_names (snd (new_ThriftDecoder w0)).
Proof.
  intros H H0. apply map_eq. intros t. unfold new_ThriftDecoder.
  by_key t. rewrite H, H0 by (apply unregistered; assumption). reflexivity.
Qed.

Lemma new_message_types w mt :
  message_types (snd (new_ThriftDecoder w)) !! mt
  = if bool_decide (mt ∈ [1; 2; 3])
    then message_types (constructed []) !! mt
    else message_types w !! mt.
Proof.
  unfold constructed, new_ThriftDecoder, initial_world.
  cbn [snd message_types]. rewrite !lookup_insert.
  case_bool_decide as Hmt.
  - repeat (apply elem_of_cons in Hmt as [->|Hmt]); [..|inversion Hmt];
      reflexivity.
  - rewrite !elem_of_cons, elem_of_nil in Hmt.
    repeat case_decide; subst; try reflexivity; exfalso; intuition congruence.
Qed.

Lemma new_heap w :
  heap (snd (new_ThriftDecoder w))
  = heap w ++ [mkDecoder [] [] None None None None None 0].
Proof. reflexivity. Qed.

Lemma new_fst w : fst (new_ThriftDecoder w) = Return (length (heap w)).
Proof. reflexivity. Qed.

Lemma new_typed w :
  (forall t, t ∉ registered -> type_handlers w !! t = None) ->
  typed (length (heap w)) (snd (new_ThriftDecoder w)).
Proof.
  intros H. exists [], 0%nat. split; [|constructor].
  unfold own. rewrite new_handlers by exact H. rewrite new_heap.
  rewrite lookup_app_r by lia. rewrite Nat.sub_diag. reflexivity.
Qed.

Lemma new_pristine w : pristine w -> pristine (snd (new_ThriftDecoder w)).
Proof.
  intros (H1 & H2 & H3). split; [|split].
  - intros t Ht. rewrite new_handlers by exact H1. unfold handlers_of.
    unfold registered in Ht. rewrite !elem_of_cons, elem_of_nil in Ht.
    rewrite !lookup_insert. repeat case_decide; subst;
      try (exfalso; intuition congruence). apply lookup_empty.
  - intros t Ht. pose proof (H2 t Ht) as E. unfold new_ThriftDecoder.
    cbn [snd type_names]. unfold registered in Ht.
    rewrite !elem_of_cons, elem_of_nil in Ht.
    rewrite !lookup_insert. repeat case_decide; subst;
      try (exfalso; intuition congruence). exact E.
  - intros mt Hmt. rewrite new_message_types.
    rewrite bool_decide_eq_false_2 by exact Hmt. apply H3, Hmt.
Qed.

Lemma pristine_initial fs : pristine (initial_world fs).
Proof. repeat split; intros; apply lookup_empty. Qed.

Lemma pristine_tables w w' : tables w' = tables w -> pristine w -> pristine w'.
Proof.
  intros E H. apply tables_eq in E as (E1 & E2 & E3 & _).
  unfold pristine. rewrite E1, E2, E3. exact H.
Qed.

End Constructor.

(** ** One file on the command line *)

Section OneFile.

Variable tuple_str : list field -> str.

Implicit Types (w : World) (self : nat).

Lemma construct_decode_inv fn w r w' :
  (d <- new_ThriftDecoder ;; decode d fn ;;; ret d) w = (r, w') ->
  w' = snd (decode (length (heap w)) fn (snd (new_ThriftDecoder w)))
  /\ r = match fst (decode (length (heap w)) fn (snd (new_ThriftDecoder w)))
         with
         | Return _ => Return (length (heap w))
         | Raise e => Raise e
         | OutOfFuel => OutOfFuel
         end.
Proof.
  unfold bind at 1. cbn [new_ThriftDecoder]. unfold bind, ret.
  change (mkWorld _ _ _ _ _ _) with (snd (new_ThriftDecoder w)).
  destruct (decode _ fn _) as [[[]|e|] w2]; intros [= <- <-]; auto.
Qed.

Lemma known_message_type mt :
  mt ∈ [1; 2; 3] -> is_Some (message_types (constructed []) !! mt).
Proof.
  intros H. repeat (apply elem_of_cons in H as [->|H]); [..|inversion H];
    eexists; reflexivity.
Qed.

(** What the body of the loop does with one file. *)
Lemma decode_file_spec fn w :
  pristine w ->
  match (d <- new_ThriftDecoder ;; decode d fn ;;; ret d) w with
  | (Return d, w') =>
    pristine w' /\
    exists o mt,
      heap w' !! d = Some o /\ message_type o = Some mt
      /\ if bool_decide (mt ∈ [1; 2; 3])
         then exists text, decode_file tuple_str fn w = (Done text, w')
         else decode_file tuple_str fn w = (Fails (Exn (KeyError mt)), w')
  | (Raise e, w') => decode_file tuple_str fn w = (Fails (Exn e), w')
  | (OutOfFuel, _) => False
  end.
Proof.
  intros Hp. unfold decode_file.
  destruct ((d <- new_ThriftDecoder ;; decode d fn ;;; ret d) w)
    as [r w'] eqn:E.
  apply construct_decode_inv in E as [-> ->].
  set (k := length (heap w)). set (w1 := snd (new_ThriftDecoder w)).
  pose proof (halts_decode k fn w1) as Hh.
  pose proof (tables_decode k fn w1) as Ht.
  destruct (decode k fn w1) as [[[]|e|] w2] eqn:E; cbn [fst snd] in *;
    [|reflexivity|congruence].
  assert (Hp2 : pristine w2).
  { apply (pristine_tables _ _ Ht). apply new_pristine, Hp. }
  split; [exact Hp2|].
  destruct Hp as (Hh1 & _ & Hm).
  destruct (decode_typed k fn w1 w2 (new_typed w Hh1) E)
    as (_ & o & mt & Ho & Hmt & Hf & Hs).
  exists o, mt. split; [exact Ho|]. split; [exact Hmt|].
  assert (Hn : named w2).
  { intros t Hr. apply tables_eq in Ht as (_ & -> & _).
    apply new_named, Hr. }
  pose proof (str_typed tuple_str w2 o mt Hn Hmt Hf Hs) as Hstr.
  assert (Hk : message_types w2 !! mt
               = if bool_decide (mt ∈ [1; 2; 3])
                 then message_types (constructed []) !! mt else None).
  { apply tables_eq in Ht as (_ & _ & -> & _).
    subst w1. rewrite new_message_types.
    case_bool_decide as Hin; [reflexivity|apply Hm, Hin]. }
  rewrite Hk in Hstr. unfold str_self. rewrite Ho.
  case_bool_decide as Hin.
  - destruct (known_message_type mt Hin) as [kind Hkind].
    rewrite Hkind in Hstr. destruct Hstr as [text ->]. eauto.
  - rewrite Hstr. reflexivity.
Qed.

End OneFile.

(** X9. The tool run on one file.  If the file cannot be decoded the
    exception of the decode leaves the program; if it can, the message is
    printed exactly when its message type is 1, 2 or 3, and every other
    message type ends the program with [KeyError(message type)] from
    [__str__]: a message that [decode] accepts is not always one the tool
    can show. *)
Theorem print_needs_known_message_type tuple_str prog fn fs :
  fn <> "-h"%string -> fn <> "--help"%string ->
  match (d <- new_ThriftDecoder ;; decode d fn ;;; ret d) (initial_world fs)
  with
  | (Return d, w) =>
    exists o mt,
      heap w !! d = Some o /\ message_type o = Some mt
      /\ if bool_decide (mt ∈ [1; 2; 3])
         then exists text, fst (main tuple_str [prog; fn] fs) = Done text
         else fst (main tuple_str [prog; fn] fs) = Fails (Exn (KeyError mt))
  | (Raise e, _) => fst (main tuple_str [prog; fn] fs) = Fails (Exn e)
  | (OutOfFuel, _) => False
  end.
Proof.
  intros H1 H2.
  pose proof (decode_file_spec tuple_str fn (initial_world fs)
                (pristine_initial fs)) as H.
  assert (Hm : main tuple_str [prog; fn] fs
               = match decode_file tuple_str fn (initial_world fs) with
                 | (Done s, w') => (Done (join [10; 10] [s] ++ [10]), w')
                 | (Fails e, w') => (Fails e, w')
                 | (NoAnswer, w') => (NoAnswer, w')
                 end).
  { unfold main, run_app.
    rewrite bool_decide_eq_false_2 by discriminate.
    rewrite bool_decide_eq_false_2
      by (rewrite list_elem_of_singleton; congruence).
    rewrite bool_decide_eq_false_2
      by (rewrite list_elem_of_singleton; congruence).
    cbn [orb run_files].
    destruct (decode_file tuple_str fn (initial_world fs)) as [[s|e|] w'];
      reflexivity. }
  destruct ((d <- new_ThriftDecoder ;; decode d fn ;;; ret d)
              (initial_world fs)) as [[d|e|] w]; [| |exact H].
  - destruct H as (_ & o & mt & Ho & Hmt & H). exists o, mt.
    split; [exact Ho|]. split; [exact Hmt|].
    destruct (bool_decide (mt ∈ [1; 2; 3])).
    + destruct H as [text E]. rewrite Hm, E. eauto.
    + rewrite Hm, H. reflexivity.
  - rewrite Hm, H. reflexivity.
Qed.

Lemma print_needs_known_message_type_witness :
  match (d <- new_ThriftDecoder ;; decode d "in" ;;; ret d)
          (initial_world (input ping_of_type_7))
  with
  | (Return d, w) =>
    exists o mt,
      heap w !! d = Some o /\ message_type o = Some mt
      /\ if bool_decide (mt ∈ [1; 2; 3])
         then exists text,
             fst (main (fun _ => []) ["prog"%string; "in"%string]
                       (input ping_of_type_7)) = Done text
         else fst (main (fun _ => []) ["prog"%string; "in"%string]
                        (input ping_of_type_7))
              = Fails (Exn (KeyError mt))
  | (Raise e, _) =>
    fst (main (fun _ => []) ["prog"%string; "in"%string]
              (input ping_of_type_7)) = Fails (Exn e)
  | (OutOfFuel, _) => False
  end.
Proof.
  apply (print_needs_known_message_type (fun _ => []) "prog" "in"
           (input ping_of_type_7)); discriminate.
Defined.

(** ** The same decoder in two programs *)

Section Simulation.

Variables k k' : nat.

Implicit Types (w : World).

Lemma sim_bind {A B} (c c' : M A) (f f' : A -> M B) :
  simulates k k' c c' -> (forall a, simulates k k' (f a) (f' a)) ->
  simulates k k' (bind c f) (bind c' f').
Proof.
  intros Hc Hf w w' Ha. destruct (Hc w w' Ha) as (E & Ha1 & out & S1 & S1').
  unfold bind. destruct (c w) as [r w1], (c' w') as [r' w1'].
  cbn [fst snd] in *. subst r'.
  destruct r as [a|e|]; cbn [fst snd].
  - destruct (Hf a w1 w1' Ha1) as (E2 & Ha2 & out2 & S2 & S2').
    split; [exact E2|]. split; [exact Ha2|]. exists (out ++ out2).
    rewrite S2, S2', S1, S1', <- !app_assoc. auto.
  - split; [reflexivity|]. split; [exact Ha1|]. eauto.
  - split; [reflexivity|]. split; [exact Ha1|]. eauto.
Qed.

Lemma sim_lift {A} (r : outcome A) : simulates k k' (lift r) (lift r).
Proof.
  intros w w' Ha. split; [reflexivity|]. split; [exact Ha|].
  exists []. cbn. rewrite !app_nil_r. auto.
Qed.

Lemma sim_get_self : simulates k k' (get_self k) (get_self k').
Proof.
  intros w w' Ha. unfold get_self.
  pose proof Ha as (_ & _ & _ & _ & _ & Hh). rewrite Hh.
  destruct (heap w' !! k'); cbn; (split; [reflexivity|]);
    (split; [exact Ha|]); exists []; rewrite !app_nil_r; auto.
Qed.

Lemma sim_update_self g : simulates k k' (update_self k g) (update_self k' g).
Proof.
  intros w w' Ha. pose proof Ha as (H1 & H2 & H3 & H4 & H5 & Hh).
  destruct (heap w !! k) as [d|] eqn:Hd.
  - symmetry in Hh.
    rewrite (update_self_eq _ _ _ _ Hd), (update_self_eq _ _ _ _ Hh).
    cbn [fst snd]. split; [reflexivity|]. split.
    + unfold alike. cbn [set_heap type_handlers type_names message_types
                         files heap].
      rewrite !list_lookup_insert_eq by (eapply lookup_lt_Some; eassumption).
      auto 10.
    + exists []. cbn. rewrite !app_nil_r. auto.
  - symmetry in Hh.
    rewrite (update_self_None _ _ _ Hd), (update_self_None _ _ _ Hh).
    split; [reflexivity|]. split; [exact Ha|].
    exists []. cbn. rewrite !app_nil_r. auto.
Qed.

Lemma sim_print_stderr s : simulates k k' (print_stderr s) (print_stderr s).
Proof.
  intros w w' Ha. split; [reflexivity|]. split; [exact Ha|].
  exists [s]. auto.
Qed.

Lemma sim_self_fp_read n :
  simulates k k' (self_fp_read k n) (self_fp_read k' n).
Proof.
  unfold self_fp_read. apply sim_bind; [apply sim_get_self|intros d].
  destruct (fp d) as [f|]; [|apply (sim_lift (Raise AttributeError))].
  destruct (fp_read n f) as [r f'].
  destruct r; try apply sim_lift.
  apply sim_bind; [apply sim_update_self|intros _; apply sim_lift].
Qed.

Lemma sim_read_int f : simulates k k' (read_int f k) (read_int f k').
Proof.
  unfold read_int.
  apply sim_bind; [apply sim_self_fp_read|intros bs; apply sim_lift].
Qed.

Lemma sim_read_bool : simulates k k' (read_bool k) (read_bool k').
Proof.
  unfold read_bool.
  apply sim_bind; [apply (sim_read_int fmt_B)|intros b].
  apply (sim_lift (Return _)).
Qed.

Lemma sim_read_string : simulates k k' (read_string k) (read_string k').
Proof.
  unfold read_string.
  apply sim_bind; [apply (sim_read_int fmt_i)|intros len].
  apply sim_bind; [apply sim_self_fp_read|intros bs].
  apply sim_bind; [apply sim_lift|intros s; apply sim_lift].
Qed.

Lemma sim_record_field i t v :
  simulates k k' (record_field k i t v) (record_field k' i t v).
Proof.
  unfold record_field. destruct (t =? 12); [|apply (sim_lift (Return _))].
  apply sim_bind; [apply sim_get_self|intros d].
  apply sim_bind; [apply sim_update_self|intros _].
  apply sim_bind; [apply sim_update_self|intros _].
  apply (sim_lift (Return _)).
Qed.

(** The method behind a tag does not depend on the instance. *)
Lemma handlers_of_uniform t :
  exists om : option method,
    forall self, handlers_of self !! t = pair self <$> om.
Proof.
  unfold handlers_of.
  repeat (match goal with
          | |- context [<[?key := (_, ?m)]> _] =>
            assert_fails (assert (key <> t) by assumption);
            destruct (decide (key = t)) as [<-|];
            [exists (Some m); intros self; vm_compute; reflexivity|]
          end).
  exists None. intros self.
  rewrite !lookup_insert_ne by assumption. apply lookup_empty.
Qed.

Lemma sim_dispatch {B} t (K K' : nat * method -> M B) :
  (forall m, simulates k k' (K (k, m)) (K' (k', m))) ->
  simulates k k' (bind (lookup_handler t) K) (bind (lookup_handler t) K').
Proof.
  intros HK w w' Ha. pose proof Ha as (H1 & H2 & _).
  unfold bind, lookup_handler. rewrite H1, H2.
  destruct (handlers_of_uniform t) as [om Hom]. rewrite !Hom.
  destruct om as [m|]; cbn [fmap option_fmap option_map].
  - apply HK, Ha.
  - cbn. split; [reflexivity|]. split; [exact Ha|].
    exists []. rewrite !app_nil_r. auto.
Qed.

Lemma sim_call_handler (rs rs' : nat -> M (list field)) m :
  simulates k k' (rs k) (rs' k') ->
  simulates k k' (call_handler rs (k, m)) (call_handler rs' (k', m)).
Proof.
  intros Hrs. unfold call_handler. cbn [fst snd].
  destruct m;
    try apply (sim_lift (Raise NotImplementedError));
    (apply sim_bind; [|intros x; apply (sim_lift (Return _))]).
  - apply sim_read_bool.
  - apply (sim_read_int fmt_B).
  - apply (sim_read_int fmt_h).
  - apply (sim_read_int fmt_i).
  - apply (sim_read_int fmt_q).
  - apply sim_read_string.
  - exact Hrs.
Qed.

Lemma sim_read_struct_loop fuel fields t :
  simulates k k' (read_struct_loop fuel k fields t)
                 (read_struct_loop fuel k' fields t).
Proof.
  revert fields t. induction fuel as [|fuel IH]; intros fields t.
  - rewrite !read_struct_loop_0. destruct (t =? 0).
    + apply (sim_lift (Return _)).
    + apply (sim_lift OutOfFuel).
  - rewrite !read_struct_loop_S. destruct (t =? 0).
    { apply (sim_lift (Return _)). }
    apply sim_bind; [apply (sim_read_int fmt_h)|intros field_id].
    apply sim_dispatch. intros m.
    apply sim_bind.
    { apply sim_call_handler.
      apply sim_bind; [apply (sim_read_int fmt_B)|intros t0; apply IH]. }
    intros field_data.
    apply sim_bind; [apply sim_record_field|intros f].
    apply sim_bind; [apply (sim_read_int fmt_B)|intros t'; apply IH].
Qed.

Lemma sim_read_struct_fuel fuel :
  simulates k k' (read_struct_fuel fuel k) (read_struct_fuel fuel k').
Proof.
  unfold read_struct_fuel.
  apply sim_bind; [apply (sim_read_int fmt_B)|intros t].
  apply sim_read_struct_loop.
Qed.

Lemma read_struct_enough fuel self w :
  (S (total_unread w) <= fuel)%nat ->
  read_struct_fuel fuel self w = read_struct self w.
Proof.
  intros Hle. unfold read_struct.
  pose proof (halts_read_struct self w) as Hh. revert Hh.
  unfold read_struct, read_struct_fuel.
  apply refines_bind; [apply refines_refl|].
  intros t. apply refines_read_struct_loop. exact Hle.
Qed.

Lemma sim_read_struct : simulates k k' (read_struct k) (read_struct k').
Proof.
  intros w w' Ha.
  set (fuel := (S (total_unread w) `max` S (total_unread w'))%nat).
  rewrite <- (read_struct_enough fuel k w) by lia.
  rewrite <- (read_struct_enough fuel k' w') by lia.
  apply sim_read_struct_fuel, Ha.
Qed.

Lemma sim_read_header : simulates k k' (read_header k) (read_header k').
Proof.
  unfold read_header.
  apply sim_bind; [apply (sim_read_int fmt_h)|intros v].
  apply sim_bind; [apply sim_update_self|intros _].
  apply sim_bind; [apply sim_lift|intros expected].
  apply sim_bind.
  { destruct (negb (v =? expected));
      [apply sim_print_stderr|apply (sim_lift (Return tt))]. }
  intros _.
  apply sim_bind; [apply (sim_read_int fmt_h)|intros mt].
  apply sim_bind; [apply sim_update_self|intros _].
  apply sim_bind; [apply sim_read_string|intros name].
  apply sim_bind; [apply sim_update_self|intros _].
  apply sim_bind; [apply (sim_read_int fmt_i)|intros seq].
  apply sim_bind; [apply sim_update_self|intros _].
  apply sim_bind; [apply sim_read_struct|intros fs].
  apply sim_update_self.
Qed.

Lemma sim_decode fn : simulates k k' (decode k fn) (decode k' fn).
Proof.
  unfold decode. apply sim_bind.
  { intros w w' Ha. pose proof Ha as (_ & _ & _ & _ & Hf & _).
    unfold open_rb. rewrite Hf.
    destruct (files w' !! fn); cbn; (split; [reflexivity|]);
      (split; [exact Ha|]); exists []; rewrite !app_nil_r; auto. }
  intros f. apply sim_bind; [apply sim_update_self|intros _].
  apply sim_read_header.
Qed.

End Simulation.

(** ** Several files on the command line *)

Section ManyFiles.

Variable tuple_str : list field -> str.

Implicit Types (w : World).

Lemma collect_ext {A B} (f g : A -> result B) xs :
  (forall x, f x = g x) -> collect f xs = collect g xs.
Proof.
  intros H. induction xs as [|x xs IH]; [reflexivity|].
  cbn [collect]. rewrite H, IH. reflexivity.
Qed.

Lemma format_field_names w w' f n :
  type_names w = type_names w' ->
  _format_field tuple_str w f n = _format_field tuple_str w' f n.
Proof. intros E. destruct f as [[i t] v]. cbn. rewrite E. reflexivity. Qed.

Lemma structs_lines_names w w' tbl :
  type_names w = type_names w' ->
  structs_lines tuple_str w tbl = structs_lines tuple_str w' tbl.
Proof.
  intros E. induction tbl as [|[name v] tbl IH]; [reflexivity|].
  cbn [structs_lines]. rewrite IH. f_equal.
  destruct v as [b|z|s|fs]; try reflexivity. cbn [struct_lines].
  apply collect_ext. intros f. apply format_field_names, E.
Qed.

(** Rendering looks at the decoder, the type names and the message
    types only. *)
Lemma str_names w w' d :
  type_names w = type_names w' -> message_types w = message_types w' ->
  __str__ tuple_str w d = __str__ tuple_str w' d.
Proof.
  intros En Em. unfold __str__. rewrite Em.
  destruct (message_type d) as [mt|]; [|reflexivity].
  destruct (message_types w' !! mt) as [kind|]; [|reflexivity].
  rewrite (collect_ext _ (fun f => _format_field tuple_str w' f 2))
    by (intros f; apply format_field_names, En).
  rewrite (structs_lines_names w w' _ En). reflexivity.
Qed.

Lemma str_self_alike k k' w w' :
  alike k k' w w' -> str_self tuple_str k w = str_self tuple_str k' w'.
Proof.
  intros (_ & _ & En & Em & _ & Hh). unfold str_self. rewrite Hh.
  destruct (heap w' !! k'); [apply str_names; assumption|reflexivity].
Qed.

Lemma decode_file_eq fn w :
  decode_file tuple_str fn w
  = (match fst (decode (length (heap w)) fn (snd (new_ThriftDecoder w))) with
     | Return _ =>
       str_self tuple_str (length (heap w))
         (snd (decode (length (heap w)) fn (snd (new_ThriftDecoder w))))
     | Raise e => Fails (Exn e)
     | OutOfFuel => NoAnswer
     end,
     snd (decode (length (heap w)) fn (snd (new_ThriftDecoder w)))).
Proof.
  unfold decode_file.
  destruct ((d <- new_ThriftDecoder ;; decode d fn ;;; ret d) w)
    as [r w'] eqn:E.
  apply construct_decode_inv in E as [-> ->].
  destruct (fst (decode _ fn _)); reflexivity.
Qed.

(** Two constructor calls in pristine programs give the same decoder. *)
Lemma alike_new w w0 :
  pristine w -> pristine w0 -> files w = files w0 ->
  alike (length (heap w)) (length (heap w0))
        (snd (new_ThriftDecoder w)) (snd (new_ThriftDecoder w0)).
Proof.
  intros (H1 & H2 & H3) (H1' & H2' & H3') Hf.
  split; [apply new_handlers, H1|]. split; [apply new_handlers, H1'|].
  split; [apply new_names; assumption|]. split; [|split; [exact Hf|]].
  - apply map_eq. intros mt. rewrite !new_message_types.
    case_bool_decide as Hin; [reflexivity|]. rewrite H3, H3'; auto.
  - rewrite !new_heap, !lookup_app_r by lia. rewrite !Nat.sub_diag.
    reflexivity.
Qed.

(** A file is decoded and rendered in a program that has decoded others
    as it is in a fresh one. *)
Lemma decode_file_alike fn w w0 :
  pristine w -> pristine w0 -> files w = files w0 ->
  fst (decode_file tuple_str fn w) = fst (decode_file tuple_str fn w0)
  /\ pristine (snd (decode_file tuple_str fn w))
  /\ files (snd (decode_file tuple_str fn w)) = files w
  /\ exists out,
       stderr (snd (decode_file tuple_str fn w)) = stderr w ++ out
       /\ stderr (snd (decode_file tuple_str fn w0)) = stderr w0 ++ out.
Proof.
  intros Hp Hp0 Hf. rewrite !decode_file_eq. cbn [fst snd].
  pose proof (alike_new w w0 Hp Hp0 Hf) as Ha.
  pose proof (tables_decode (length (heap w)) fn (snd (new_ThriftDecoder w)))
    as Ht.
  destruct (sim_decode _ _ fn _ _ Ha) as (E & Ha2 & out & S & S0).
  rewrite E. split; [|split; [|split]].
  - destruct (fst (decode _ fn (snd (new_ThriftDecoder w0))));
      [apply str_self_alike, Ha2|reflexivity|reflexivity].
  - apply (pristine_tables _ _ Ht), new_pristine, Hp.
  - apply tables_eq in Ht as (_ & _ & _ & -> & _). reflexivity.
  - exists out. split; [exact S|exact S0].
Qed.

(** The loop over the files, seen from fresh programs. *)
Lemma run_files_alone fs fns decoded w :
  pristine w -> files w = fs ->
  fst (run_files tuple_str fns decoded w)
  = and_then
      (collect (fun fn => fst (decode_file tuple_str fn (initial_world fs)))
               fns)
      (fun texts => Done (decoded ++ texts)).
Proof.
  revert decoded w. induction fns as [|fn fns IH]; intros decoded w Hp Hf.
  { cbn. rewrite app_nil_r. reflexivity. }
  cbn [run_files collect].
  destruct (decode_file_alike fn w (initial_world fs) Hp
              (pristine_initial fs) Hf) as (E & Hp' & Hf' & _).
  rewrite <- E.
  destruct (decode_file tuple_str fn w) as [[s|e|] w']; cbn [fst snd] in *;
    [|reflexivity|reflexivity].
  rewrite (IH (decoded ++ [s]) w' Hp') by congruence.
  cbn [and_then].
  destruct (collect _ fns) as [texts|e|]; cbn [and_then];
    [|reflexivity|reflexivity].
  rewrite <- app_assoc. reflexivity.
Qed.

End ManyFiles.

(** X10. Files do not interfere.  The tool run on several files prints
    the texts that each file gives when it is decoded alone in a fresh
    program, joined by an empty line, and fails with the exception of the
    first file that fails alone: the decoders the loop creates one after
    the other do not see each other, although they share the dictionaries
    of the class. *)
Theorem files_are_decoded_independently tuple_str prog fns fs :
  fns <> [] -> "-h"%string ∉ fns -> "--help"%string ∉ fns ->
  fst (main tuple_str (prog :: fns) fs)
  = and_then
      (collect (fun fn => fst (decode_file tuple_str fn (initial_world fs)))
               fns)
      (fun texts => Done (join [10; 10] texts ++ [10])).
Proof.
  intros H0 H1 H2. unfold main, run_app.
  rewrite !bool_decide_eq_false_2 by assumption. cbn [orb].
  pose proof (run_files_alone tuple_str fs fns [] (initial_world fs)
                (pristine_initial fs) eq_refl) as H.
  destruct (run_files tuple_str fns [] (initial_world fs)) as [r w'].
  cbn [fst] in H. subst r.
  destruct (collect _ fns) as [texts|e|]; reflexivity.
Qed.

Lemma files_are_decoded_independently_witness :
  fst (main (fun _ => []) ("prog" :: ["a"; "b"; "a"]%string)
            {["a"%string := nested; "b"%string := ping]})
  = and_then
      (collect
         (fun fn =>
            fst (decode_file (fun _ => []) fn
                   (initial_world
                      {["a"%string := nested; "b"%string := ping]})))
         ["a"; "b"; "a"]%string)
      (fun texts => Done (join [10; 10] texts ++ [10])).
Proof.
  apply (files_are_decoded_independently (fun _ => []) "prog"
           ["a"; "b"; "a"]%string).
  - discriminate.
  - intros H. repeat (apply elem_of_cons in H as [H|H]; [discriminate H|]).
    inversion H.
  - intros H. repeat (apply elem_of_cons in H as [H|H]; [discriminate H|]).
    inversion H.
Defined.

(** ** Decoding what the wire format describes *)

Section Wire.

Implicit Types (w : World) (self : nat) (rest : list byte).

Lemma handlers_of_tag self v :
  handlers_of self !! tag_of v = Some (self, reader_of v).
Proof. destruct v; vm_compute; reflexivity. Qed.

Lemma handlers_of_12 self :
  handlers_of self !! 12 = Some (self, read_struct_m).
Proof. vm_compute. reflexivity. Qed.

(** A registered scalar reader on the canonical encoding of a value. *)
Lemma call_handler_canonical rs self w v rest :
  representable v ->
  pending self w = Some (canonical v ++ rest) ->
  call_handler rs (self, reader_of v) w
  = (Return (python_value v), advance self (length (canonical v)) w).
Proof.
  intros Hv Hp. unfold call_handler. cbn [fst snd].
  destruct v as [b|v|v|v|v|s]; cbn [reader_of representable canonical
    python_value] in *.
  - erewrite bind_Return by (eapply read_bool_cons; exact Hp).
    destruct b; reflexivity.
  - erewrite bind_Return by (eapply read_byte_be_bytes; eassumption).
    reflexivity.
  - erewrite bind_Return by (eapply read_i16_be_bytes; eassumption).
    reflexivity.
  - erewrite bind_Return by (eapply read_i32_be_bytes; eassumption).
    reflexivity.
  - erewrite bind_Return by (eapply read_i64_be_bytes; eassumption).
    reflexivity.
  - destruct Hv as [Hs Hl]. rewrite <- app_assoc in Hp.
    assert (HL : - 2 ^ 31 <= Z.of_nat (length (utf8_bytes s)) < 2 ^ 31)
      by lia.
    rewrite (bind_Return _ _ w s
               (advance self (4 + length (utf8_bytes s)) w));
      [rewrite length_app, length_be_bytes; reflexivity|].
    rewrite (read_string_pending _ _ _ _ HL Hp).
    destruct (Z.ltb_spec (Z.of_nat (length (utf8_bytes s))) (-1)); [lia|].
    destruct (Z.eqb_spec (Z.of_nat (length (utf8_bytes s))) (-1)); [lia|].
    rewrite length_app.
    destruct (Z.ltb_spec (Z.of_nat (length (utf8_bytes s) + length rest))
                (Z.of_nat (length (utf8_bytes s)))); [lia|].
    rewrite Nat2Z.id, take_app_length, decode_utf8_utf8_bytes by exact Hs.
    reflexivity.
Qed.

Lemma pending_advance_app self w xs rest :
  pending self w = Some (xs ++ rest) ->
  pending self (advance self (length xs) w) = Some rest.
Proof.
  intros Hp. rewrite pending_advance, Hp. cbn [fmap option_fmap option_map].
  rewrite drop_app_length. reflexivity.
Qed.

Lemma read_struct_loop_done fuel self fields :
  read_struct_loop fuel self fields 0 = ret fields.
Proof. destruct fuel; reflexivity. Qed.

(** The decoder follows the wire format. *)
Lemma read_fields_wire c bs fs tbl c' :
  wire c bs fs tbl c' ->
  forall self w acc T rest,
    own self w = (handlers_of self, Some (T, c)) ->
    fst <$> T = struct_name <$> seq 0 c ->
    pending self w = Some (bs ++ rest) ->
    exists fuel0 w',
      (forall fuel, (fuel0 <= fuel)%nat ->
         read_fields fuel self acc w = (Return (acc ++ fs), w'))
      /\ own self w' = (handlers_of self, Some (T ++ tbl, c'))
      /\ fst <$> (T ++ tbl) = struct_name <$> seq 0 c'
      /\ pending self w' = Some rest.
Proof.
  induction 1 as [c|c i v bs fs tbl c' Hi Hv Hw IH
                 |c i inner fs_in tbl_in c1 bs fs tbl c' Hi Hw1 IH1 Hw2 IH2];
    intros self w acc T rest Ho Hk Hp.
  - (* the stop byte *)
    exists 0%nat, (advance self 1 w). split; [|split; [|split]].
    + intros fuel _. unfold read_fields.
      rewrite (bind_Return _ _ w 0 (advance self 1 w))
        by (apply (read_byte_cons self w x00 rest Hp)).
      rewrite read_struct_loop_done, app_nil_r. reflexivity.
    + rewrite own_advance, app_nil_r. exact Ho.
    + rewrite app_nil_r. exact Hk.
    + apply (pending_advance_app self w [x00] rest Hp).
  - (* a scalar field *)
    rewrite <- !app_assoc in Hp.
    set (wa := advance self 1 w).
    assert (Ea : read_type self w = (Return (tag_of v), wa)).
    { eapply read_byte_be_bytes; [|exact Hp]. destruct v; cbn [tag_of]; lia. }
    assert (Pa : pending self wa = Some (be_bytes 2 i ++ canonical v
                                         ++ bs ++ rest)).
    { apply (pending_advance_app self w (be_bytes 1 (tag_of v)) _ Hp). }
    set (wb := advance self 2 wa).
    assert (Eb : read_field_id self wa = (Return i, wb)).
    { apply (read_i16_be_bytes self wa _ _ Hi Pa). }
    assert (Pb : pending self wb = Some (canonical v ++ bs ++ rest)).
    { apply (pending_advance_app self wa (be_bytes 2 i) _ Pa). }
    assert (Ob : own self wb = (handlers_of self, Some (T, c))).
    { subst wb wa. rewrite !own_advance. exact Ho. }
    set (wc := advance self (length (canonical v)) wb).
    assert (Pc : pending self wc = Some (bs ++ rest)).
    { apply (pending_advance_app self wb _ _ Pb). }
    assert (Oc : own self wc = (handlers_of self, Some (T, c))).
    { subst wc. rewrite own_advance. exact Ob. }
    destruct (IH self wc (acc ++ [(i, tag_of v, python_value v)]) T rest
                Oc Hk Pc) as (fuel0 & w' & Hrun & Ho' & Hk' & Hp').
    exists (S fuel0), w'. split; [|auto].
    intros [|fuel] Hfuel; [lia|]. unfold read_fields.
    rewrite (bind_Return _ _ _ _ _ Ea), read_struct_loop_S.
    replace (tag_of v =? 0) with false by (destruct v; reflexivity).
    rewrite (bind_Return _ _ _ _ _ Eb).
    rewrite (bind_Return _ _ wb (self, reader_of v) wb).
    2:{ unfold lookup_handler. injection Ob as -> _.
        rewrite handlers_of_tag. reflexivity. }
    rewrite (bind_Return _ _ _ _ _
               (call_handler_canonical _ self wb v _ Hv Pb)).
    fold wc.
    rewrite (bind_Return _ _ wc (i, tag_of v, python_value v) wc).
    2:{ unfold record_field.
        replace (tag_of v =? 12) with false by (destruct v; reflexivity).
        reflexivity. }
    rewrite <- app_assoc in Hrun. apply (Hrun fuel). lia.
  - (* a struct field *)
    rewrite <- !app_assoc in Hp.
    set (wa := advance self 1 w).
    assert (Ea : read_type self w = (Return 12, wa)).
    { eapply read_byte_be_bytes; [|exact Hp]. lia. }
    assert (Pa : pending self wa = Some (be_bytes 2 i ++ inner
                                         ++ bs ++ rest)).
    { apply (pending_advance_app self w (be_bytes 1 12) _ Hp). }
    set (wb := advance self 2 wa).
    assert (Eb : read_field_id self wa = (Return i, wb)).
    { apply (read_i16_be_bytes self wa _ _ Hi Pa). }
    assert (Pb : pending self wb = Some (inner ++ bs ++ rest)).
    { apply (pending_advance_app self wa (be_bytes 2 i) _ Pa). }
    assert (Ob : own self wb = (handlers_of self, Some (T, c))).
    { subst wb wa. rewrite !own_advance. exact Ho. }
    destruct (IH1 self wb [] T (bs ++ rest) Ob Hk Pb)
      as (fuel1 & w1 & Hrun1 & O1 & K1 & P1).
    (* the entry in the table *)
    pose proof O1 as O1'. unfold own in O1'. injection O1' as Hh1 Hd1.
    destruct (heap w1 !! self) as [d1|] eqn:Ed1; [|discriminate].
    cbn in Hd1. injection Hd1 as Hs1 Hc1.
    pose proof (record_field_struct self i (VTuple fs_in) w1 d1 Ed1) as Er.
    rewrite Hs1, Hc1 in Er.
    rewrite odict_set_fresh in Er by (rewrite K1; apply struct_name_fresh).
    set (w2 := set_heap _ w1) in Er.
    assert (O2 : own self w2
                 = (handlers_of self,
                    Some ((T ++ tbl_in) ++ [(struct_name c1, VTuple fs_in)],
                          S c1))).
    { subst w2. unfold own. cbn [set_heap heap type_handlers].
      rewrite list_lookup_insert_eq by (eapply lookup_lt_Some; exact Ed1).
      rewrite Hh1. reflexivity. }
    assert (K2 : fst <$> (T ++ tbl_in) ++ [(struct_name c1, VTuple fs_in)]
                 = struct_name <$> seq 0 (S c1)).
    { rewrite fmap_app, K1, seq_S, fmap_app. reflexivity. }
    assert (P2 : pending self w2 = Some (bs ++ rest)).
    { rewrite <- P1. subst w2. rewrite !pending_obs.
      rewrite (obs_set_heap_insert fp self self w1 d1 _ Ed1);
        reflexivity. }
    destruct (IH2 self w2 (acc ++ [(i, 12, VStr (struct_name c1))]) _ rest
                O2 K2 P2) as (fuel2 & w' & Hrun2 & O' & K' & P').
    exists (S (fuel1 `max` fuel2)), w'. split; [|split; [|split]].
    + intros [|fuel] Hfuel; [lia|]. unfold read_fields.
      rewrite (bind_Return _ _ _ _ _ Ea), read_struct_loop_S.
      change (12 =? 0) with false. cbv iota.
      rewrite (bind_Return _ _ _ _ _ Eb).
      rewrite (bind_Return _ _ wb (self, read_struct_m) wb).
      2:{ unfold lookup_handler. injection Ob as -> _.
          rewrite handlers_of_12. reflexivity. }
      rewrite (bind_Return _ _ wb (VTuple fs_in) w1).
      2:{ unfold call_handler. cbn [fst snd].
          erewrite bind_Return; [reflexivity|].
          apply (Hrun1 fuel). lia. }
      rewrite (bind_Return _ _ _ _ _ Er).
      rewrite <- app_assoc in Hrun2. apply (Hrun2 fuel). lia.
    + rewrite O'. do 3 f_equal. rewrite <- !app_assoc. reflexivity.
    + rewrite <- K'. f_equal. rewrite <- !app_assoc. reflexivity.
    + exact P'.
Qed.

(** [read_struct] on a struct in wire format. *)
Lemma read_struct_wire c bs fs tbl c' self w T rest :
  wire c bs fs tbl c' ->
  own self w = (handlers_of self, Some (T, c)) ->
  fst <$> T = struct_name <$> seq 0 c ->
  pending self w = Some (bs ++ rest) ->
  exists w',
    read_struct self w = (Return fs, w')
    /\ own self w' = (handlers_of self, Some (T ++ tbl, c'))
    /\ pending self w' = Some rest.
Proof.
  intros Hw Ho Hk Hp.
  destruct (read_fields_wire _ _ _ _ _ Hw self w [] T rest Ho Hk Hp)
    as (fuel0 & w' & Hrun & Ho' & _ & Hp').
  exists w'. split; [|auto].
  rewrite <- (read_struct_fuel_stable fuel0).
  - apply (Hrun fuel0). lia.
  - change (read_struct_fuel fuel0 self w) with (read_fields fuel0 self [] w).
    rewrite (Hrun fuel0) by lia. discriminate.
Qed.

End Wire.

Section HeaderRuns.

Implicit Types (w : World) (self : nat) (rest : list byte).

(** Setting an attribute of a decoder that has a file. *)
Lemma update_self_runs self (g : ThriftDecoder -> ThriftDecoder) w bs :
  pending self w = Some bs ->
  (forall d, fp (g d) = fp d) ->
  (forall d, structs (g d) = structs d
             /\ struct_name_counter (g d) = struct_name_counter d) ->
  exists w',
    update_self self g w = (Return tt, w')
    /\ pending self w' = Some bs
    /\ own self w' = own self w
    /\ (forall X (p : ThriftDecoder -> X),
          (forall d, p (g d) = p d) -> obs p self w' = obs p self w)
    /\ (forall X (p : ThriftDecoder -> X) (x : X),
          (forall d, p (g d) = x) -> obs p self w' = Some x).
Proof.
  intros Hp Hfp Hown. destruct (pending_Some _ _ _ Hp) as (d & f & Hd & _).
  pose proof (update_self_eq self g w d Hd) as E.
  eexists. split; [exact E|]. split; [|split; [|split]].
  - rewrite <- Hp.
    apply (preserves_at _ _ _ _ _ (pending_update_self self self g Hfp) E).
  - apply (preserves_at _ _ _ _ _ (own_update_self self self g Hown) E).
  - intros X p Hg.
    apply (preserves_at _ _ _ _ _ (obs_update_self p self self g Hg) E).
  - intros X p x Hg. unfold obs. cbn [set_heap heap].
    rewrite list_lookup_insert_eq by (eapply lookup_lt_Some; exact Hd).
    cbn. rewrite Hg. reflexivity.
Qed.

Lemma read_header_version_runs self w v rest :
  - 2 ^ 15 <= v < 2 ^ 15 ->
  pending self w = Some (be_bytes 2 v ++ rest) ->
  exists w',
    read_header_version self w = (Return tt, w')
    /\ pending self w' = Some rest
    /\ own self w' = own self w
    /\ obs version self w' = Some (Some v).
Proof.
  intros Hv Hp. unfold read_header_version.
  rewrite (bind_Return _ _ _ _ _ (read_i16_be_bytes self w v rest Hv Hp)).
  pose proof (pending_advance_app self w (be_bytes 2 v) rest Hp) as P1.
  rewrite length_be_bytes in P1.
  destruct (update_self_runs self (set_version (Some v)) _ _ P1
              (fun _ => eq_refl) (fun _ => conj eq_refl eq_refl))
    as (w2 & E2 & P2 & O2 & _ & V2).
  rewrite (bind_Return _ _ _ _ _ E2).
  rewrite (bind_Return _ _ w2 (-32767) w2) by reflexivity.
  rewrite own_advance in O2.
  specialize (V2 _ version (Some v) (fun _ => eq_refl)).
  destruct (negb (v =? -32767)); eexists; (split; [reflexivity|]); auto.
Qed.

Lemma read_header_type_runs self w mt rest :
  - 2 ^ 15 <= mt < 2 ^ 15 ->
  pending self w = Some (be_bytes 2 mt ++ rest) ->
  exists w',
    read_header_type self w = (Return tt, w')
    /\ pending self w' = Some rest
    /\ own self w' = own self w
    /\ obs message_type self w' = Some (Some mt).
Proof.
  intros Hv Hp. unfold read_header_type.
  rewrite (bind_Return _ _ _ _ _ (read_i16_be_bytes self w mt rest Hv Hp)).
  pose proof (pending_advance_app self w (be_bytes 2 mt) rest Hp) as P1.
  rewrite length_be_bytes in P1.
  destruct (update_self_runs self (set_message_type (Some mt)) _ _ P1
              (fun _ => eq_refl) (fun _ => conj eq_refl eq_refl))
    as (w2 & E2 & P2 & O2 & _ & V2).
  rewrite own_advance in O2.
  exists w2. split; [exact E2|]. split; [exact P2|]. split; [exact O2|].
  apply (V2 _ message_type (Some mt)). reflexivity.
Qed.

Lemma read_string_canonical self w s rest :
  representable (WString s) ->
  pending self w = Some (canonical (WString s) ++ rest) ->
  read_string self w
  = (Return s, advance self (length (canonical (WString s))) w).
Proof.
  intros Hv Hp.
  pose proof (call_handler_canonical (fun _ => ret []) self w (WString s)
                rest Hv Hp) as H.
  unfold call_handler, bind, ret in H. cbn [fst snd reader_of] in H.
  destruct (read_string self w) as [[s'|e|] w1]; [|discriminate..].
  cbn [python_value] in H. injection H as -> ->. reflexivity.
Qed.

Lemma read_header_body_runs self w name sid c bs fs tbl c' T rest :
  representable (WString name) -> - 2 ^ 31 <= sid < 2 ^ 31 ->
  wire c bs fs tbl c' ->
  own self w = (handlers_of self, Some (T, c)) ->
  fst <$> T = struct_name <$> seq 0 c ->
  pending self w
  = Some (canonical (WString name) ++ be_bytes 4 sid ++ bs ++ rest) ->
  exists w',
    read_header_body self w = (Return tt, w')
    /\ pending self w' = Some rest
    /\ own self w' = (handlers_of self, Some (T ++ tbl, c'))
    /\ obs method_name self w' = Some (Some name)
    /\ obs sequence_id self w' = Some (Some sid)
    /\ obs fields self w' = Some fs.
Proof.
  intros Hn Hs Hw Ho Hk Hp. unfold read_header_body.
  (* the method name *)
  rewrite (bind_Return _ _ _ _ _ (read_string_canonical self w name _ Hn Hp)).
  pose proof (pending_advance_app self w _ _ Hp) as P1.
  destruct (update_self_runs self (set_method_name (Some name)) _ _ P1
              (fun _ => eq_refl) (fun _ => conj eq_refl eq_refl))
    as (w2 & E2 & P2 & O2 & _ & N2).
  rewrite (bind_Return _ _ _ _ _ E2). rewrite own_advance in O2.
  specialize (N2 _ method_name (Some name) (fun _ => eq_refl)).
  (* the sequence id *)
  rewrite (bind_Return _ _ _ _ _ (read_i32_be_bytes self w2 sid _ Hs P2)).
  pose proof (pending_advance_app self w2 (be_bytes 4 sid) _ P2) as P3.
  rewrite length_be_bytes in P3.
  destruct (update_self_runs self (set_sequence_id (Some sid)) _ _ P3
              (fun _ => eq_refl) (fun _ => conj eq_refl eq_refl))
    as (w4 & E4 & P4 & O4 & K4 & S4).
  rewrite (bind_Return _ _ _ _ _ E4). rewrite own_advance in O4.
  specialize (S4 _ sequence_id (Some sid) (fun _ => eq_refl)).
  specialize (K4 _ method_name (fun _ => eq_refl)).
  rewrite (obs_advance method_name (fun _ _ => eq_refl)) in K4.
  (* the struct *)
  assert (O4' : own self w4 = (handlers_of self, Some (T, c)))
    by congruence.
  destruct (read_struct_wire _ _ _ _ _ self w4 T rest Hw O4' Hk P4)
    as (w5 & E5 & O5 & P5).
  rewrite (bind_Return _ _ _ _ _ E5).
  pose proof (preserves_at _ _ _ _ _
    (obs_read_struct method_name (fun _ _ => eq_refl) (fun _ _ => eq_refl)
       (fun _ _ => eq_refl) self self) E5) as N5.
  pose proof (preserves_at _ _ _ _ _
    (obs_read_struct sequence_id (fun _ _ => eq_refl) (fun _ _ => eq_refl)
       (fun _ _ => eq_refl) self self) E5) as S5.
  destruct (update_self_runs self (set_fields fs) _ _ P5
              (fun _ => eq_refl) (fun _ => conj eq_refl eq_refl))
    as (w6 & E6 & P6 & O6 & K6 & F6).
  exists w6. split; [exact E6|]. split; [exact P6|].
  split; [congruence|].
  split; [rewrite (K6 _ method_name (fun _ => eq_refl)); congruence|].
  split; [rewrite (K6 _ sequence_id (fun _ => eq_refl)); congruence|].
  apply (F6 _ fields fs). reflexivity.
Qed.

(** [read_header] on a message in wire format. *)
Lemma read_header_wire self w v mt name sid c bs fs tbl c' T rest :
  representable (WI16 v) -> representable (WI16 mt) ->
  representable (WString name) -> representable (WI32 sid) ->
  wire c bs fs tbl c' ->
  own self w = (handlers_of self, Some (T, c)) ->
  fst <$> T = struct_name <$> seq 0 c ->
  pending self w = Some (wire_header v mt name sid ++ bs ++ rest) ->
  exists w' d,
    read_header self w = (Return tt, w')
    /\ heap w' !! self = Some d
    /\ version d = Some v /\ message_type d = Some mt
    /\ method_name d = Some name /\ sequence_id d = Some sid
    /\ fields d = fs /\ structs d = T ++ tbl
    /\ struct_name_counter d = c'
    /\ pending self w' = Some rest.
Proof.
  intros Hv Hmt Hn Hs Hw Ho Hk Hp. unfold wire_header in Hp.
  cbn [canonical representable] in Hp, Hv, Hmt, Hs.
  rewrite <- !app_assoc in Hp.
  destruct (read_header_version_runs self w v _ Hv Hp)
    as (wa & Ea & Pa & Oa & Va).
  destruct (read_header_type_runs self wa mt _ Hmt Pa)
    as (wb & Eb & Pb & Ob & Tb).
  pose proof (preserves_at _ _ _ _ _ (version_read_header_type self self) Eb)
    as Vb.
  assert (Ob' : own self wb = (handlers_of self, Some (T, c)))
    by congruence.
  rewrite app_assoc in Pb.
  destruct (read_header_body_runs self wb name sid c bs fs tbl c' T rest
              Hn Hs Hw Ob' Hk) as (w' & E & P & O & N & S & F).
  { rewrite Pb. cbn [canonical]. rewrite <- !app_assoc. reflexivity. }
  pose proof (preserves_at _ _ _ _ _
    (obs_read_header_body version self self
       (fun _ _ => eq_refl) (fun _ _ => eq_refl) (fun _ _ => eq_refl)
       (fun _ _ => eq_refl) (fun _ _ => eq_refl) (fun _ _ => eq_refl)) E)
    as V.
  pose proof (preserves_at _ _ _ _ _
    (obs_read_header_body message_type self self
       (fun _ _ => eq_refl) (fun _ _ => eq_refl) (fun _ _ => eq_refl)
       (fun _ _ => eq_refl) (fun _ _ => eq_refl) (fun _ _ => eq_refl)) E)
    as Ty.
  unfold own in O. unfold obs in *.
  destruct (heap w' !! self) as [d|] eqn:Hd; [|discriminate].
  cbn in O, N, S, F, V, Ty. injection O as _ Hst Hcn.
  exists w', d. split.
  { rewrite read_header_split.
    rewrite (bind_Return _ _ _ _ _ Ea), (bind_Return _ _ _ _ _ Eb).
    exact E. }
  split; [exact Hd|].
  split; [congruence|]. split; [congruence|]. split; [congruence|].
  split; [congruence|]. split; [congruence|]. auto.
Qed.

End HeaderRuns.

(** X11. The decoder inverts the wire format.  Take a decoder that
    dispatches to itself and a file that holds the canonical header of a
    message followed by a struct in the wire format of the protocol (scalar
    fields of the supported types and struct fields, nested to any depth).
    - Whenever the decode of the file returns, the four header attributes
      and the fields are those that were encoded, every nested struct has
      been added to the table under the next synthetic name when it was
      complete, and the file is left just after the stop byte of the
      message.
    - When the message holds no struct field, the decode does return.
    (A message with struct fields is decoded by calls of [read_struct]
    nested as deep as the structs are; the interpreter bounds that depth,
    the model does not, so for those messages the statement is about the
    decodes that return.) *)
Theorem decode_inverts_wire
    self fn w v mt name sid c bs fs tbl c' T rest :
  representable (WI16 v) -> representable (WI16 mt) ->
  representable (WString name) -> representable (WI32 sid) ->
  wire c bs fs tbl c' ->
  own self w = (handlers_of self, Some (T, c)) ->
  fst <$> T = struct_name <$> seq 0 c ->
  files w !! fn = Some (wire_header v mt name sid ++ bs ++ rest) ->
  (fst (decode self fn w) = Return tt ->
   exists d,
     heap (snd (decode self fn w)) !! self = Some d
     /\ version d = Some v /\ message_type d = Some mt
     /\ method_name d = Some name /\ sequence_id d = Some sid
     /\ fields d = fs /\ structs d = T ++ tbl
     /\ struct_name_counter d = c'
     /\ pending self (snd (decode self fn w)) = Some rest)
  /\ (tbl = [] -> fst (decode self fn w) = Return tt).
Proof.
  intros Hv Hmt Hn Hs Hw Ho Hk Hf. unfold decode.
  rewrite (bind_Return _ _ w (mkReader (wire_header v mt name sid
                                        ++ bs ++ rest) 0) w)
    by (unfold open_rb; rewrite Hf; reflexivity).
  pose proof Ho as Ho'. unfold own in Ho'. injection Ho' as _ Hd0.
  destruct (heap w !! self) as [d0|] eqn:Ed0; [|discriminate]. clear Hd0.
  pose proof (update_self_eq self
                (set_fp (Some (mkReader (wire_header v mt name sid
                                         ++ bs ++ rest) 0))) w d0 Ed0) as E0.
  rewrite (bind_Return _ _ _ _ _ E0).
  set (w0 := set_heap _ w) in *.
  assert (O0 : own self w0 = (handlers_of self, Some (T, c))).
  { rewrite <- Ho.
    match type of E0 with update_self _ ?g _ = _ =>
      apply (preserves_at _ _ _ _ _
               (own_update_self self self g (fun _ => conj eq_refl eq_refl))
               E0)
    end. }
  assert (P0 : pending self w0
               = Some (wire_header v mt name sid ++ bs ++ rest)).
  { subst w0. unfold pending. cbn [set_heap heap].
    rewrite list_lookup_insert_eq by (eapply lookup_lt_Some; exact Ed0).
    reflexivity. }
  destruct (read_header_wire self w0 v mt name sid c bs fs tbl c' T rest
              Hv Hmt Hn Hs Hw O0 Hk P0)
    as (w' & d & E & Hd & H).
  rewrite E. cbn [fst snd]. split; [|reflexivity].
  intros _. exists d. auto.
Qed.

(** A reply with a struct field, which is decoded; and a message with two
    scalar fields. *)
Lemma decode_inverts_wire_witness :
  (exists d,
     heap (snd (decode 0 "in" (constructed sample_message))) !! 0%nat
     = Some d
     /\ version d = Some (-32767) /\ message_type d = Some 2
     /\ method_name d = Some (str_of "get") /\ sequence_id d = Some 5
     /\ fields d
        = [(1, 12, VStr (struct_name 0));
           (2, tag_of (WBool true), python_value (WBool true))]
     /\ structs d
        = [] ++ ([] ++ [(struct_name 0,
                         VTuple [(7, tag_of (WString [104; 233]),
                                  python_value (WString [104; 233]))])])
     /\ struct_name_counter d = 1%nat
     /\ pending 0 (snd (decode 0 "in" (constructed sample_message)))
        = Some [])
  /\ fst (decode 0 "in" (constructed sample_flat)) = Return tt.
Proof.
  split.
  - apply (decode_inverts_wire 0 "in" (constructed sample_message)
             (-32767) 2 (str_of "get") 5 0 sample_struct).
    + cbn; lia.
    + cbn; lia.
    + split; [repeat constructor; cbn; lia|vm_compute; reflexivity].
    + cbn; lia.
    + apply wire_struct; [lia| |].
      * apply wire_scalar; [lia| |apply wire_stop].
        split; [repeat constructor; cbn; lia|vm_compute; reflexivity].
      * apply wire_scalar; [lia|exact I|apply wire_stop].
    + reflexivity.
    + reflexivity.
    + reflexivity.
    + vm_compute. reflexivity.
  - apply (decode_inverts_wire 0 "in" (constructed sample_flat)
             (-32767) 1 (str_of "put") 6 0
             (be_bytes 1 (tag_of (WI16 (-2))) ++ be_bytes 2 1
              ++ canonical (WI16 (-2))
              ++ be_bytes 1 (tag_of (WString [104; 233])) ++ be_bytes 2 2
              ++ canonical (WString [104; 233]) ++ [x00])
             [(1, tag_of (WI16 (-2)), python_value (WI16 (-2)));
              (2, tag_of (WString [104; 233]),
               python_value (WString [104; 233]))]
             [] 0%nat [] []).
    + cbn; lia.
    + cbn; lia.
    + split; [repeat constructor; cbn; lia|vm_compute; reflexivity].
    + cbn; lia.
    + apply wire_scalar; [lia|cbn; lia|].
      apply wire_scalar; [lia| |apply wire_stop].
      split; [repeat constructor; cbn; lia|vm_compute; reflexivity].
    + reflexivity.
    + reflexivity.
    + reflexivity.
    + reflexivity.
Defined.

(** ** How a decode can fail *)

Section Failures.

Implicit Types (w : World) (self : nat).

Lemma keeps_of self {A} (c : M A) :
  preserves tables c -> consumes self c -> keeps self c.
Proof.
  intros Ht Hc w [Hh [bs Hp]]. split.
  - specialize (Ht w). apply tables_eq in Ht as (-> & _). exact Hh.
  - destruct (Hc w bs Hp) as [n Hn]. eauto.
Qed.

Lemma keeps_at self {A} (c : M A) w r w' :
  keeps self c -> c w = (r, w') -> ready self w -> ready self w'.
Proof. intros Hk E Hr. specialize (Hk w Hr). rewrite E in Hk. exact Hk. Qed.

Lemma consumes_read_string self o : consumes self (read_string o).
Proof.
  apply (all_read_string (fun A c => consumes self c)).
  - intros; apply consumes_bind; assumption.
  - intros; apply consumes_lift.
  - intros; apply consumes_self_fp_read.
Qed.

Lemma consumes_update_self self o g :
  (forall d, fp (g d) = fp d) -> consumes self (update_self o g).
Proof.
  intros Hg w bs Hp. exists 0%nat.
  rewrite (pending_update_self self o g Hg w). exact Hp.
Qed.

Lemma keeps_read_int self f : keeps self (read_int f self).
Proof.
  apply keeps_of;
    [apply tables_of_frame, frame_read_int|apply consumes_read_int].
Qed.

Lemma keeps_read_string self : keeps self (read_string self).
Proof.
  apply keeps_of;
    [apply tables_of_frame, frame_read_string|apply consumes_read_string].
Qed.

Lemma keeps_update_self self g :
  (forall d, fp (g d) = fp d) -> keeps self (update_self self g).
Proof.
  intros Hg. apply keeps_of;
    [apply tables_of_frame, frame_update_self
    |apply consumes_update_self, Hg].
Qed.

Lemma keeps_record_field self i t v : keeps self (record_field self i t v).
Proof.
  apply keeps_of;
    [apply tables_of_frame, frame_record_field|apply consumes_record_field].
Qed.

Lemma keeps_call_handler self fuel h :
  keeps self
    (call_handler
       (fun o => t0 <- read_type o ;; read_struct_loop fuel o [] t0) h).
Proof.
  apply keeps_of; [|apply consumes_call_handler].
  apply tables_of_frame, frame_call_handler. intros o.
  apply preserves_bind;
    [apply (frame_read_int fmt_B)|intros; apply frame_read_struct_loop].
Qed.

Lemma errors_bind {A B} (c : M A) (k : A -> M B) w :
  errors_ok (fst (c w)) ->
  (forall a w1, c w = (Return a, w1) -> errors_ok (fst (k a w1))) ->
  errors_ok (fst (bind c k w)).
Proof.
  intros Hc Hk. unfold bind. destruct (c w) as [[a|e|] w1]; cbn in *; auto.
Qed.

Lemma errors_self_fp_read self n w :
  ready self w -> errors_ok (fst (self_fp_read self n w)).
Proof.
  intros [_ [bs Hp]]. rewrite self_fp_read_eq, Hp.
  destruct (n <? -1); exact I.
Qed.

Lemma errors_read_int self f w :
  ready self w -> errors_ok (fst (read_int f self w)).
Proof.
  intros Hr. unfold read_int.
  apply errors_bind; [apply errors_self_fp_read, Hr|intros bs w1 _].
  cbn. unfold unpack_one. destruct (Nat.eqb _ _); exact I.
Qed.

Lemma keeps_self_fp_read self n : keeps self (self_fp_read self n).
Proof.
  apply keeps_of;
    [apply tables_of_frame, frame_self_fp_read|apply consumes_self_fp_read].
Qed.

Lemma errors_read_string self w :
  ready self w -> errors_ok (fst (read_string self w)).
Proof.
  intros Hr. unfold read_string.
  apply errors_bind; [apply (errors_read_int self fmt_i), Hr|].
  intros len w1 E1. apply (keeps_at _ _ _ _ _ (keeps_read_int self fmt_i) E1)
    in Hr.
  apply errors_bind; [apply errors_self_fp_read, Hr|intros bs w2 _].
  apply errors_bind.
  { cbn. unfold unpack_one_s. destruct (len <? 0); [exact I|].
    destruct (_ =? len); exact I. }
  intros s w3 _. cbn. unfold decode_utf8.
  destruct (Utf8.decode _); exact I.
Qed.

(** Only an unregistered tag has no handler. *)
Lemma errors_lookup_handler self t w :
  ready self w -> 0 < t < 256 -> errors_ok (fst (lookup_handler t w)).
Proof.
  intros [Hh _] Ht. unfold lookup_handler. rewrite Hh.
  destruct (handlers_of self !! t) as [h|] eqn:E; [exact I|].
  cbn. split; [exact Ht|]. intros Hin. unfold registered in Hin.
  repeat (apply elem_of_cons in Hin as [->|Hin]);
    [vm_compute in E; discriminate E..|inversion Hin].
Qed.

Lemma errors_record_field self i t v w :
  ready self w -> errors_ok (fst (record_field self i t v w)).
Proof.
  intros [_ [bs Hp]]. destruct (pending_Some _ _ _ Hp) as (d & f & Hd & _).
  destruct (Z.eqb_spec t 12) as [->|Hne].
  - rewrite (record_field_struct _ _ _ _ _ Hd). exact I.
  - unfold record_field. destruct (Z.eqb_spec t 12); [contradiction|exact I].
Qed.

Lemma read_type_range self w t w' :
  read_type self w = (Return t, w') -> 0 <= t < 256.
Proof.
  intros E. apply (read_int_canonical fmt_B) in E as [H _]. exact H.
Qed.

Lemma errors_read_struct_loop fuel self fields t w :
  ready self w -> 0 <= t < 256 ->
  errors_ok (fst (read_struct_loop fuel self fields t w)).
Proof.
  revert self fields t w.
  induction fuel as [|fuel IH]; intros self fields t w Hr Ht.
  { rewrite read_struct_loop_0. destruct (t =? 0); exact I. }
  rewrite read_struct_loop_S. destruct (Z.eqb_spec t 0) as [->|Hne];
    [exact I|].
  apply errors_bind; [apply (errors_read_int self fmt_h), Hr|].
  intros field_id w1 E1.
  apply (keeps_at _ _ _ _ _ (keeps_read_int self fmt_h) E1) in Hr.
  apply errors_bind; [apply (errors_lookup_handler self); [exact Hr|lia]|].
  intros h w2 E2.
  assert (Hh : handlers_of self !! t = Some h /\ w2 = w1).
  { destruct Hr as [Hh _]. unfold lookup_handler in E2. rewrite Hh in E2.
    destruct (handlers_of self !! t); [|discriminate].
    injection E2 as <- <-. auto. }
  destruct Hh as [Hh ->].
  apply handlers_of_cases in Hh as [Ho _]. destruct h as [o m].
  cbn in Ho. subst o.
  apply errors_bind.
  { unfold call_handler. cbn [fst snd].
    destruct m; try exact I;
      (apply errors_bind; [|intros; exact I]).
    - apply errors_bind; [apply (errors_read_int self fmt_B), Hr|].
      intros; exact I.
    - apply (errors_read_int self fmt_B), Hr.
    - apply (errors_read_int self fmt_h), Hr.
    - apply (errors_read_int self fmt_i), Hr.
    - apply (errors_read_int self fmt_q), Hr.
    - apply errors_read_string, Hr.
    - apply errors_bind; [apply (errors_read_int self fmt_B), Hr|].
      intros t0 w0 E0. apply IH.
      + apply (keeps_at _ _ _ _ _ (keeps_read_int self fmt_B) E0), Hr.
      + eapply read_type_range, E0. }
  intros field_data w3 E3.
  apply (keeps_at _ _ _ _ _ (keeps_call_handler self fuel (self, m)) E3)
    in Hr.
  apply errors_bind; [apply errors_record_field, Hr|].
  intros f w4 E4.
  apply (keeps_at _ _ _ _ _ (keeps_record_field self _ _ _) E4) in Hr.
  apply errors_bind; [apply (errors_read_int self fmt_B), Hr|].
  intros t' w5 E5. apply IH.
  - apply (keeps_at _ _ _ _ _ (keeps_read_int self fmt_B) E5), Hr.
  - eapply read_type_range, E5.
Qed.

Lemma consumes_read_struct self o : consumes self (read_struct o).
Proof.
  intros w. unfold read_struct.
  apply (all_read_struct_fuel (fun A c => consumes self c)).
  - intros; apply consumes_bind; assumption.
  - intros; apply consumes_lift.
  - intros; apply consumes_self_fp_read.
  - intros; apply consumes_lookup_handler.
  - intros; apply consumes_record_field.
Qed.

Lemma keeps_read_struct self : keeps self (read_struct self).
Proof.
  apply keeps_of;
    [apply tables_of_frame, frame_read_struct|apply consumes_read_struct].
Qed.

Lemma errors_read_struct self w :
  ready self w -> errors_ok (fst (read_struct self w)).
Proof.
  intros Hr. unfold read_struct, read_struct_fuel.
  apply errors_bind; [apply (errors_read_int self fmt_B), Hr|].
  intros t w1 E1. apply errors_read_struct_loop.
  - apply (keeps_at _ _ _ _ _ (keeps_read_int self fmt_B) E1), Hr.
  - eapply read_type_range, E1.
Qed.

Lemma errors_update_self self g w :
  ready self w -> errors_ok (fst (update_self self g w)).
Proof.
  intros [_ [bs Hp]]. destruct (pending_Some _ _ _ Hp) as (d & f & Hd & _).
  rewrite (update_self_eq _ _ _ _ Hd). exact I.
Qed.

Ltac keep_upd self E Hr :=
  match type of E with
  | update_self _ ?g _ = _ =>
    apply (keeps_at _ _ _ _ _
             (keeps_update_self self g (fun _ => eq_refl)) E) in Hr
  end.

Lemma errors_read_header self w :
  ready self w -> errors_ok (fst (read_header self w)).
Proof.
  intros Hr. unfold read_header.
  apply errors_bind; [apply (errors_read_int self fmt_h), Hr|].
  intros v w1 E1.
  apply (keeps_at _ _ _ _ _ (keeps_read_int self fmt_h) E1) in Hr.
  apply errors_bind; [apply errors_update_self, Hr|]. intros [] w2 E2.
  keep_upd self E2 Hr.
  apply errors_bind; [exact I|]. intros expected w3 [= _ <-].
  apply errors_bind; [destruct (negb _); exact I|]. intros [] w4 E4.
  assert (Hr4 : ready self w4).
  { destruct (negb _); injection E4 as <-; exact Hr. }
  clear Hr E4.
  apply errors_bind; [apply (errors_read_int self fmt_h), Hr4|].
  intros mt w5 E5.
  apply (keeps_at _ _ _ _ _ (keeps_read_int self fmt_h) E5) in Hr4.
  apply errors_bind; [apply errors_update_self, Hr4|]. intros [] w6 E6.
  keep_upd self E6 Hr4.
  apply errors_bind; [apply errors_read_string, Hr4|].
  intros name w7 E7.
  apply (keeps_at _ _ _ _ _ (keeps_read_string self) E7) in Hr4.
  apply errors_bind; [apply errors_update_self, Hr4|]. intros [] w8 E8.
  keep_upd self E8 Hr4.
  apply errors_bind; [apply (errors_read_int self fmt_i), Hr4|].
  intros sid w9 E9.
  apply (keeps_at _ _ _ _ _ (keeps_read_int self fmt_i) E9) in Hr4.
  apply errors_bind; [apply errors_update_self, Hr4|]. intros [] w10 E10.
  keep_upd self E10 Hr4.
  apply errors_bind; [apply errors_read_struct, Hr4|].
  intros fs w11 E11.
  apply (keeps_at _ _ _ _ _ (keeps_read_struct self) E11) in Hr4.
  apply errors_update_self, Hr4.
Qed.

End Failures.

(** X12. What a decode never does.  For a decoder that dispatches to
    itself, [decode] always gives an answer; it never raises
    [AttributeError]; a [KeyError] that it raises carries a tag byte
    between 1 and 255 that is not registered, never a registered tag; and
    it raises [FileNotFoundError] only for a file that is missing.  The
    statement does not bound the other exceptions. *)
Theorem decode_failure_modes self fn w :
  type_handlers w = handlers_of self ->
  is_Some (heap w !! self) ->
  match fst (decode self fn w) with
  | Raise AttributeError => False
  | Raise (KeyError t) => 0 < t < 256 /\ t ∉ registered
  | Raise FileNotFoundError => files w !! fn = None
  | OutOfFuel => False
  | _ => True
  end.
Proof.
  intros Hh [d Hd]. unfold decode. unfold bind at 1, open_rb.
  destruct (files w !! fn) as [buf|] eqn:Hf; [|reflexivity].
  rewrite (bind_Return _ _ _ _ _ (update_self_eq _ _ _ _ Hd)).
  set (w0 := set_heap _ w).
  assert (Hr : ready self w0).
  { split; [exact Hh|]. exists buf. subst w0. unfold pending.
    cbn [set_heap heap].
    rewrite list_lookup_insert_eq by (eapply lookup_lt_Some; exact Hd).
    reflexivity. }
  pose proof (errors_read_header self w0 Hr) as He.
  pose proof (halts_read_header self w0) as Hn.
  destruct (fst (read_header self w0)) as [[]|e|];
    [exact I| |congruence].
  destruct e; cbn in He; try exact I; try exact He; contradiction.
Qed.

(** The tag 7 after the ping header: [KeyError] of a tag that is not
    registered. *)
Lemma decode_failure_modes_witness :
  match fst (decode 0 "in" (constructed (ping_header ++ [x07; x00; x01])))
  with
  | Raise AttributeError => False
  | Raise (KeyError t) => 0 < t < 256 /\ t ∉ registered
  | Raise FileNotFoundError =>
    files (constructed (ping_header ++ [x07; x00; x01])) !! "in"%string
    = None
  | OutOfFuel => False
  | _ => True
  end.
Proof.
  apply (decode_failure_modes 0 "in"
           (constructed (ping_header ++ [x07; x00; x01]))).
  - reflexivity.
  - eexists. reflexivity.
Defined.

(** ** Standard error on the command line *)

Section Stderr.

Variable tuple_str : list field -> str.

Implicit Types (w : World) (self : nat).

Lemma stderr_tables_frame {A} (c : M A) w :
  preserves frame c -> stderr (snd (c w)) = stderr w.
Proof. intros H. apply stderr_frame, H. Qed.

(** What [read_header] writes is decided by the first two bytes. *)
Lemma stderr_read_header self w bs :
  pending self w = Some bs ->
  stderr (snd (read_header self w)) = stderr w ++ warnings_of (Some bs).
Proof.
  intros Hp. destruct bs as [|b0 [|b1 rest]]; cbn [warnings_of].
  3:{ rewrite read_header_split.
      destruct (frame_read_header_version_Return self w b0 b1 rest Hp)
        as (w' & E & Hs).
      rewrite (bind_Return _ _ _ _ _ E), <- Hs.
      apply stderr_frame.
      apply (preserves_bind frame);
        [apply frame_read_header_type
        |intros _; apply frame_read_header_body]. }
  all: rewrite app_nil_r; unfold read_header;
    pose proof (halts_read_int fmt_h self w) as Hh;
    pose proof (frame_read_int fmt_h self w) as Hf;
    change (read_i16 self) with (read_int fmt_h self);
    destruct (read_int fmt_h self w) as [[v|e|] w1] eqn:E;
    [|rewrite (bind_Raise _ _ _ _ _ E); apply stderr_frame, Hf
     |cbn in Hh; congruence];
    apply read_int_Return in E as (xs & r & Hx & Hl & _);
    rewrite Hp in Hx; injection Hx as Hx;
    apply (f_equal length) in Hx; rewrite length_app, Hl in Hx;
    cbn in Hx; lia.
Qed.

Lemma stderr_decode self fn w :
  is_Some (heap w !! self) ->
  stderr (snd (decode self fn w)) = stderr w ++ warnings_of (files w !! fn).
Proof.
  intros [d Hd]. unfold decode. unfold bind at 1, open_rb.
  destruct (files w !! fn) as [buf|] eqn:Hf;
    [|cbn; rewrite app_nil_r; reflexivity].
  rewrite (bind_Return _ _ _ _ _ (update_self_eq _ _ _ _ Hd)).
  set (w0 := set_heap _ w).
  rewrite (stderr_read_header self w0 buf); [reflexivity|].
  subst w0. unfold pending. cbn [set_heap heap].
  rewrite list_lookup_insert_eq by (eapply lookup_lt_Some; exact Hd).
  reflexivity.
Qed.

Lemma stderr_decode_file fn w :
  stderr (snd (decode_file tuple_str fn w))
  = stderr w ++ warnings_of (files w !! fn).
Proof.
  rewrite decode_file_eq. cbn [snd].
  rewrite stderr_decode; [reflexivity|].
  rewrite new_heap, lookup_app_r by lia. rewrite Nat.sub_diag. eauto.
Qed.

Lemma stderr_run_files fs fns decoded w :
  pristine w -> files w = fs ->
  stderr (snd (run_files tuple_str fns decoded w))
  = stderr w
    ++ concat ((fun fn => warnings_of (fs !! fn))
               <$> attempted
                     (fun fn =>
                        fst (decode_file tuple_str fn (initial_world fs)))
                     fns).
Proof.
  revert decoded w. induction fns as [|fn fns IH]; intros decoded w Hp Hf.
  { cbn. rewrite app_nil_r. reflexivity. }
  cbn [run_files attempted fmap list_fmap concat].
  destruct (decode_file_alike tuple_str fn w (initial_world fs) Hp
              (pristine_initial fs) Hf) as (E & Hp' & Hf' & _).
  pose proof (stderr_decode_file fn w) as Hs. rewrite Hf in Hs.
  rewrite <- E.
  destruct (decode_file tuple_str fn w) as [[s|e|] w']; cbn [fst snd] in *.
  - rewrite (IH (decoded ++ [s]) w' Hp') by congruence.
    rewrite Hs, <- app_assoc. reflexivity.
  - rewrite Hs. cbn. rewrite app_nil_r. reflexivity.
  - rewrite Hs. cbn. rewrite app_nil_r. reflexivity.
Qed.

End Stderr.

(** X13. Standard error on the command line.  The tool writes to
    standard error one warning for each file it starts on whose first two
    bytes are there and are not the version marker, in the order of the
    files, and nothing else; it starts on the files up to the first one
    that fails when decoded alone. *)
Theorem warnings_follow_the_files tuple_str prog fns fs :
  fns <> [] -> "-h"%string ∉ fns -> "--help"%string ∉ fns ->
  stderr (snd (main tuple_str (prog :: fns) fs))
  = concat ((fun fn => warnings_of (fs !! fn))
            <$> attempted
                  (fun fn =>
                     fst (decode_file tuple_str fn (initial_world fs)))
                  fns).
Proof.
  intros H0 H1 H2. unfold main, run_app.
  rewrite !bool_decide_eq_false_2 by assumption. cbn [orb].
  pose proof (stderr_run_files tuple_str fs fns [] (initial_world fs)
                (pristine_initial fs) eq_refl) as H.
  destruct (run_files tuple_str fns [] (initial_world fs)) as [[r|e|] w'];
    exact H.
Qed.

Lemma warnings_follow_the_files_witness :
  stderr (snd (main (fun _ => []) ("prog" :: ["a"; "b"; "c"; "a"]%string)
                    {["a"%string := [x00; x01] ++ drop 2 ping;
                      "b"%string := ping;
                      "c"%string := [x80]]}))
  = concat
      ((fun fn =>
          warnings_of
            (({["a"%string := [x00; x01] ++ drop 2 ping;
                "b"%string := ping;
                "c"%string := [x80]]} : gmap string (list byte)) !! fn))
       <$> attempted
             (fun fn =>
                fst (decode_file (fun _ => []) fn
                       (initial_world
                          {["a"%string := [x00; x01] ++ drop 2 ping;
                            "b"%string := ping;
                            "c"%string := [x80]]})))
             ["a"; "b"; "c"; "a"]%string).
Proof.
  apply (warnings_follow_the_files (fun _ => []) "prog"
           ["a"; "b"; "c"; "a"]%string).
  - discriminate.
  - intros H. repeat (apply elem_of_cons in H as [H|H]; [discriminate H|]).
    inversion H.
  - intros H. repeat (apply elem_of_cons in H as [H|H]; [discriminate H|]).
    inversion H.
Defined.

(** ** The dictionaries of the class over a run *)

Section Registry.

Implicit Types (w : World).

Lemma new_message_types_pristine w :
  (forall mt, mt ∉ [1; 2; 3] -> message_types w !! mt = None) ->
  message_types (snd (new_ThriftDecoder w))
  = message_types (constructed []).
Proof.
  intros H. apply map_eq. intros mt.
  rewrite new_message_types. unfold constructed at 2.
  rewrite new_message_types.
  case_bool_decide as Hin; [reflexivity|]. rewrite (H mt Hin).
  symmetry. apply lookup_empty.
Qed.

Lemma reachable_registry fs w :
  reachable fs w ->
  pristine w /\ files w = fs
  /\ (heap w <> [] ->
      type_handlers w = handlers_of (length (heap w) - 1)
      /\ type_names w = type_names (constructed [])
      /\ message_types w = message_types (constructed [])).
Proof.
  induction 1 as [|w Hr (Hp & Hf & IH)|w self fn Hr (Hp & Hf & IH)].
  - split; [apply pristine_initial|]. split; [reflexivity|].
    intros H. contradiction H. reflexivity.
  - split; [apply new_pristine, Hp|]. split; [exact Hf|]. intros _.
    destruct Hp as (H1 & H2 & H3).
    rewrite new_heap, length_app. cbn [length].
    replace (length (heap w) + 1 - 1)%nat with (length (heap w)) by lia.
    split; [apply new_handlers, H1|].
    split; [|apply new_message_types_pristine, H3].
    apply new_names; [exact H2|]. intros t _. apply lookup_empty.
  - pose proof (tables_decode self fn w) as Ht.
    split; [apply (pristine_tables _ _ Ht), Hp|].
    apply tables_eq in Ht as (E1 & E2 & E3 & E4 & E5).
    split; [congruence|]. intros Hne.
    rewrite E1, E2, E3, E5. apply IH. intros E.
    apply Hne. apply length_zero_iff_nil. rewrite E5, E. reflexivity.
Qed.

End Registry.

(** X14. Whom the class dispatches to.  In every state that a program
    reaches by constructing decoders and decoding files, as soon as there
    is a decoder, each of the twelve registered tags is handled by a method
    of the decoder constructed last, and by no other: the handlers of every
    earlier decoder are gone.  The names of the types and of the message
    types are those that one constructor call writes, and the files are
    untouched. *)
Theorem registry_follows_last_constructor fs w :
  reachable fs w -> heap w <> [] ->
  type_handlers w = handlers_of (length (heap w) - 1)
  /\ type_names w = type_names (constructed [])
  /\ message_types w = message_types (constructed [])
  /\ files w = fs.
Proof.
  intros Hr Hne. destruct (reachable_registry fs w Hr) as (_ & Hf & H).
  destruct (H Hne) as (H1 & H2 & H3). auto.
Qed.

(** Two decoders, the first of which then decodes a file: the handlers
    belong to the second. *)
Lemma registry_follows_last_constructor_witness :
  type_handlers
    (snd (decode 0 "in"
            (snd (new_ThriftDecoder (constructed ping)))))
  = handlers_of
      (length (heap (snd (decode 0 "in"
                            (snd (new_ThriftDecoder (constructed ping))))))
       - 1)
  /\ type_names (snd (decode 0 "in"
                        (snd (new_ThriftDecoder (constructed ping)))))
     = type_names (constructed [])
  /\ message_types (snd (decode 0 "in"
                           (snd (new_ThriftDecoder (constructed ping)))))
     = message_types (constructed [])
  /\ files (snd (decode 0 "in"
                   (snd (new_ThriftDecoder (constructed ping)))))
     = input ping.
Proof.
  apply (registry_follows_last_constructor (input ping)).
  - apply reach_decode, reach_new. unfold constructed.
    apply reach_new, reach_start.
  - vm_compute. discriminate.
Defined.

(** ** A field that cannot be read, anywhere in a message *)

Section Upto.

Implicit Types (w : World) (self : nat) (rest tail : list byte).

Lemma type_handlers_advance o n w :
  type_handlers (advance o n w) = type_handlers w.
Proof.
  pose proof (own_advance 0 o n w) as H. unfold own in H.
  injection H as H _. exact H.
Qed.

Lemma handlers_of_unregistered self t :
  t ∉ registered -> handlers_of self !! t = None.
Proof.
  intros H. destruct (handlers_of self !! t) as [h|] eqn:E; [|reflexivity].
  exfalso. apply H. apply handlers_of_cases in E as [_ E].
  unfold registered.
  repeat (apply elem_of_cons in E as [[= -> _]|E]); [..|inversion E];
    compute_done.
Qed.

Lemma handlers_of_unimplemented self t :
  t ∈ unimplemented ->
  exists m, handlers_of self !! t = Some (self, m)
            /\ forall rs w,
                 call_handler rs (self, m) w = (Raise NotImplementedError, w).
Proof.
  intros H. unfold unimplemented in H.
  repeat (apply elem_of_cons in H as [->|H]); [..|inversion H];
    eexists; (split; [vm_compute; reflexivity|intros; reflexivity]).
Qed.

(** The tag and the id of a field whose tag has no handler. *)
Lemma read_fields_unknown fuel self acc w b i0 i1 rest :
  byte_val b <> 0 -> type_handlers w !! byte_val b = None ->
  pending self w = Some (b :: i0 :: i1 :: rest) ->
  read_fields (S fuel) self acc w
  = (Raise (KeyError (byte_val b)), advance self 3 w).
Proof.
  intros Hb Hh Hp. unfold read_fields.
  rewrite (bind_Return _ _ _ _ _ (read_byte_cons self w b _ Hp)).
  rewrite read_struct_loop_S.
  destruct (Z.eqb_spec (byte_val b) 0); [contradiction|].
  pose proof (pending_advance_app self w [b] _ Hp) as Pa.
  erewrite bind_Return
    by (apply (read_int_pending fmt_h self _ [i0; i1] rest Pa eq_refl)).
  rewrite advance_advance. apply bind_Raise. unfold lookup_handler.
  rewrite type_handlers_advance, Hh. reflexivity.
Qed.

(** The tag and the id of a field whose reader is not implemented. *)
Lemma read_fields_unimplemented fuel self acc w b i0 i1 rest :
  byte_val b ∈ unimplemented -> type_handlers w = handlers_of self ->
  pending self w = Some (b :: i0 :: i1 :: rest) ->
  read_fields (S fuel) self acc w
  = (Raise NotImplementedError, advance self 3 w).
Proof.
  intros Hb Hh Hp. unfold read_fields.
  rewrite (bind_Return _ _ _ _ _ (read_byte_cons self w b _ Hp)).
  rewrite read_struct_loop_S.
  destruct (Z.eqb_spec (byte_val b) 0) as [E|_].
  { rewrite E in Hb. exfalso. revert Hb. compute_done. }
  pose proof (pending_advance_app self w [b] _ Hp) as Pa.
  erewrite bind_Return
    by (apply (read_int_pending fmt_h self _ [i0; i1] rest Pa eq_refl)).
  rewrite advance_advance.
  destruct (handlers_of_unimplemented self _ Hb) as (m & Hm & Hr).
  rewrite (bind_Return _ _ _ (self, m) (advance self (1 + calcsize fmt_h) w)).
  2:{ unfold lookup_handler. rewrite type_handlers_advance, Hh, Hm.
      reflexivity. }
  apply bind_Raise. apply Hr.
Qed.

(** An exception raised at a field reaches the caller of the struct it
    is in, however many fields and structs come before it. *)
Lemma read_fields_upto c pre tbl c' k :
  upto c pre tbl c' k ->
  forall (e : exn) tail (n : nat),
    (forall fuel self acc w,
        type_handlers w = handlers_of self ->
        pending self w = Some tail ->
        read_fields (S fuel) self acc w = (Raise e, advance self n w)) ->
    forall self w acc T,
      own self w = (handlers_of self, Some (T, c)) ->
      fst <$> T = struct_name <$> seq 0 c ->
      pending self w = Some (pre ++ tail) ->
      exists fuel0 w',
        (forall fuel, (fuel0 <= fuel)%nat ->
           read_fields fuel self acc w = (Raise e, w'))
        /\ pending self w' = Some (drop n tail).
Proof.
  induction 1 as [c|c i v pre tbl c' k Hi Hv Hu IH
                 |c i inner fs_in tbl_in c1 pre tbl c' k Hi Hw Hu IH
                 |c i pre tbl c' k Hi Hu IH];
    intros e tail n Hbase self w acc T Ho Hk Hp.
  - (* the field itself *)
    exists 1%nat, (advance self n w). split.
    + intros [|fuel] Hfuel; [lia|]. apply Hbase; [|exact Hp].
      unfold own in Ho. injection Ho as Hh _. exact Hh.
    + rewrite pending_advance, Hp. reflexivity.
  - (* after a scalar field *)
    rewrite <- !app_assoc in Hp.
    set (wa := advance self 1 w).
    assert (Ea : read_type self w = (Return (tag_of v), wa)).
    { eapply read_byte_be_bytes; [|exact Hp]. destruct v; cbn [tag_of]; lia. }
    assert (Pa : pending self wa = Some (be_bytes 2 i ++ canonical v
                                         ++ pre ++ tail)).
    { apply (pending_advance_app self w (be_bytes 1 (tag_of v)) _ Hp). }
    set (wb := advance self 2 wa).
    assert (Eb : read_field_id self wa = (Return i, wb)).
    { apply (read_i16_be_bytes self wa _ _ Hi Pa). }
    assert (Pb : pending self wb = Some (canonical v ++ pre ++ tail)).
    { apply (pending_advance_app self wa (be_bytes 2 i) _ Pa). }
    assert (Ob : own self wb = (handlers_of self, Some (T, c))).
    { subst wb wa. rewrite !own_advance. exact Ho. }
    set (wc := advance self (length (canonical v)) wb).
    assert (Pc : pending self wc = Some (pre ++ tail)).
    { apply (pending_advance_app self wb _ _ Pb). }
    assert (Oc : own self wc = (handlers_of self, Some (T, c))).
    { subst wc. rewrite own_advance. exact Ob. }
    destruct (IH e tail n Hbase self wc
                (acc ++ [(i, tag_of v, python_value v)]) T Oc Hk Pc)
      as (fuel0 & w' & Hrun & Hp').
    exists (S fuel0), w'. split; [|exact Hp'].
    intros [|fuel] Hfuel; [lia|]. unfold read_fields.
    rewrite (bind_Return _ _ _ _ _ Ea), read_struct_loop_S.
    replace (tag_of v =? 0) with false by (destruct v; reflexivity).
    rewrite (bind_Return _ _ _ _ _ Eb).
    rewrite (bind_Return _ _ wb (self, reader_of v) wb).
    2:{ unfold lookup_handler. injection Ob as -> _.
        rewrite handlers_of_tag. reflexivity. }
    rewrite (bind_Return _ _ _ _ _
               (call_handler_canonical _ self wb v _ Hv Pb)).
    fold wc.
    rewrite (bind_Return _ _ wc (i, tag_of v, python_value v) wc).
    2:{ unfold record_field.
        replace (tag_of v =? 12) with false by (destruct v; reflexivity).
        reflexivity. }
    apply (Hrun fuel). lia.
  - (* after a complete struct field *)
    rewrite <- !app_assoc in Hp.
    set (wa := advance self 1 w).
    assert (Ea : read_type self w = (Return 12, wa)).
    { eapply read_byte_be_bytes; [|exact Hp]. lia. }
    assert (Pa : pending self wa = Some (be_bytes 2 i ++ inner
                                         ++ pre ++ tail)).
    { apply (pending_advance_app self w (be_bytes 1 12) _ Hp). }
    set (wb := advance self 2 wa).
    assert (Eb : read_field_id self wa = (Return i, wb)).
    { apply (read_i16_be_bytes self wa _ _ Hi Pa). }
    assert (Pb : pending self wb = Some (inner ++ pre ++ tail)).
    { apply (pending_advance_app self wa (be_bytes 2 i) _ Pa). }
    assert (Ob : own self wb = (handlers_of self, Some (T, c))).
    { subst wb wa. rewrite !own_advance. exact Ho. }
    destruct (read_fields_wire _ _ _ _ _ Hw self wb [] T (pre ++ tail)
                Ob Hk Pb) as (fuel1 & w1 & Hrun1 & O1 & K1 & P1).
    pose proof O1 as O1'. unfold own in O1'. injection O1' as Hh1 Hd1.
    destruct (heap w1 !! self) as [d1|] eqn:Ed1; [|discriminate].
    cbn in Hd1. injection Hd1 as Hs1 Hc1.
    pose proof (record_field_struct self i (VTuple fs_in) w1 d1 Ed1) as Er.
    rewrite Hs1, Hc1 in Er.
    rewrite odict_set_fresh in Er by (rewrite K1; apply struct_name_fresh).
    set (w2 := set_heap _ w1) in Er.
    assert (O2 : own self w2
                 = (handlers_of self,
                    Some ((T ++ tbl_in) ++ [(struct_name c1, VTuple fs_in)],
                          S c1))).
    { subst w2. unfold own. cbn [set_heap heap type_handlers].
      rewrite list_lookup_insert_eq by (eapply lookup_lt_Some; exact Ed1).
      rewrite Hh1. reflexivity. }
    assert (K2 : fst <$> (T ++ tbl_in) ++ [(struct_name c1, VTuple fs_in)]
                 = struct_name <$> seq 0 (S c1)).
    { rewrite fmap_app, K1, seq_S, fmap_app. reflexivity. }
    assert (P2 : pending self w2 = Some (pre ++ tail)).
    { rewrite <- P1. subst w2. rewrite !pending_obs.
      rewrite (obs_set_heap_insert fp self self w1 d1 _ Ed1);
        reflexivity. }
    destruct (IH e tail n Hbase self w2
                (acc ++ [(i, 12, VStr (struct_name c1))]) _ O2 K2 P2)
      as (fuel2 & w' & Hrun2 & P').
    exists (S (fuel1 `max` fuel2)), w'. split; [|exact P'].
    intros [|fuel] Hfuel; [lia|]. unfold read_fields.
    rewrite (bind_Return _ _ _ _ _ Ea), read_struct_loop_S.
    change (12 =? 0) with false. cbv iota.
    rewrite (bind_Return _ _ _ _ _ Eb).
    rewrite (bind_Return _ _ wb (self, read_struct_m) wb).
    2:{ unfold lookup_handler. injection Ob as -> _.
        rewrite handlers_of_12. reflexivity. }
    rewrite (bind_Return _ _ wb (VTuple fs_in) w1).
    2:{ unfold call_handler. cbn [fst snd].
        erewrite bind_Return; [reflexivity|].
        apply (Hrun1 fuel). lia. }
    rewrite (bind_Return _ _ _ _ _ Er).
    apply (Hrun2 fuel). lia.
  - (* inside a struct field *)
    rewrite <- !app_assoc in Hp.
    set (wa := advance self 1 w).
    assert (Ea : read_type self w = (Return 12, wa)).
    { eapply read_byte_be_bytes; [|exact Hp]. lia. }
    assert (Pa : pending self wa = Some (be_bytes 2 i ++ pre ++ tail)).
    { apply (pending_advance_app self w (be_bytes 1 12) _ Hp). }
    set (wb := advance self 2 wa).
    assert (Eb : read_field_id self wa = (Return i, wb)).
    { apply (read_i16_be_bytes self wa _ _ Hi Pa). }
    assert (Pb : pending self wb = Some (pre ++ tail)).
    { apply (pending_advance_app self wa (be_bytes 2 i) _ Pa). }
    assert (Ob : own self wb = (handlers_of self, Some (T, c))).
    { subst wb wa. rewrite !own_advance. exact Ho. }
    destruct (IH e tail n Hbase self wb [] T Ob Hk Pb)
      as (fuel0 & w' & Hrun & Hp').
    exists (S fuel0), w'. split; [|exact Hp'].
    intros [|fuel] Hfuel; [lia|]. unfold read_fields.
    rewrite (bind_Return _ _ _ _ _ Ea), read_struct_loop_S.
    change (12 =? 0) with false. cbv iota.
    rewrite (bind_Return _ _ _ _ _ Eb).
    rewrite (bind_Return _ _ wb (self, read_struct_m) wb).
    2:{ unfold lookup_handler. injection Ob as -> _.
        rewrite handlers_of_12. reflexivity. }
    apply bind_Raise. unfold call_handler. cbn [fst snd].
    apply bind_Raise. apply (Hrun fuel). lia.
Qed.

(** The same for [read_struct]. *)
Lemma read_struct_upto c pre tbl c' k e tail n self w T :
  upto c pre tbl c' k ->
  (forall fuel self acc w,
      type_handlers w = handlers_of self ->
      pending self w = Some tail ->
      read_fields (S fuel) self acc w = (Raise e, advance self n w)) ->
  own self w = (handlers_of self, Some (T, c)) ->
  fst <$> T = struct_name <$> seq 0 c ->
  pending self w = Some (pre ++ tail) ->
  exists w',
    read_struct self w = (Raise e, w')
    /\ pending self w' = Some (drop n tail).
Proof.
  intros Hu Hbase Ho Hk Hp.
  destruct (read_fields_upto _ _ _ _ _ Hu e tail n Hbase self w [] T
              Ho Hk Hp) as (fuel0 & w' & Hrun & Hp').
  exists w'. split; [|exact Hp'].
  rewrite <- (read_struct_fuel_stable fuel0).
  - apply (Hrun fuel0). lia.
  - change (read_struct_fuel fuel0 self w) with (read_fields fuel0 self [] w).
    rewrite (Hrun fuel0) by lia. discriminate.
Qed.

(** A canonical header is read, and the struct is read after it. *)
Lemma read_header_reduces self w v mt name sid body :
  representable (WI16 v) -> representable (WI16 mt) ->
  representable (WString name) -> representable (WI32 sid) ->
  pending self w = Some (wire_header v mt name sid ++ body) ->
  exists w1,
    pending self w1 = Some body
    /\ own self w1 = own self w
    /\ read_header self w
       = (fs <- read_struct self ;; update_self self (set_fields fs)) w1.
Proof.
  intros Hv Hmt Hn Hs Hp. unfold wire_header in Hp.
  cbn [canonical representable] in Hp, Hv, Hmt, Hs.
  rewrite <- !app_assoc in Hp.
  destruct (read_header_version_runs self w v _ Hv Hp)
    as (wa & Ea & Pa & Oa & _).
  destruct (read_header_type_runs self wa mt _ Hmt Pa)
    as (wb & Eb & Pb & Ob & _).
  rewrite read_header_split.
  rewrite (bind_Return _ _ _ _ _ Ea), (bind_Return _ _ _ _ _ Eb).
  unfold read_header_body.
  rewrite app_assoc in Pb.
  rewrite (bind_Return _ _ _ _ _
             (read_string_canonical self wb name _ Hn Pb)).
  pose proof (pending_advance_app self wb _ _ Pb) as P1.
  destruct (update_self_runs self (set_method_name (Some name)) _ _ P1
              (fun _ => eq_refl) (fun _ => conj eq_refl eq_refl))
    as (w2 & E2 & P2 & O2 & _).
  rewrite (bind_Return _ _ _ _ _ E2). rewrite own_advance in O2.
  rewrite (bind_Return _ _ _ _ _ (read_i32_be_bytes self w2 sid _ Hs P2)).
  pose proof (pending_advance_app self w2 (be_bytes 4 sid) _ P2) as P3.
  rewrite length_be_bytes in P3.
  destruct (update_self_runs self (set_sequence_id (Some sid)) _ _ P3
              (fun _ => eq_refl) (fun _ => conj eq_refl eq_refl))
    as (w4 & E4 & P4 & O4 & _).
  rewrite (bind_Return _ _ _ _ _ E4). rewrite own_advance in O4.
  exists w4. split; [exact P4|]. split; [congruence|reflexivity].
Qed.

(** A new decoder on a message whose fields stop at one it cannot read. *)
Lemma decode_fresh_upto v mt name sid pre tbl c' k e tail n :
  representable (WI16 v) -> representable (WI16 mt) ->
  representable (WString name) -> representable (WI32 sid) ->
  upto 0 pre tbl c' k ->
  (forall fuel self acc w,
      type_handlers w = handlers_of self ->
      pending self w = Some tail ->
      read_fields (S fuel) self acc w = (Raise e, advance self n w)) ->
  fst (decode_fresh (wire_header v mt name sid ++ pre ++ tail)) = Raise e
  /\ pending 0 (snd (decode_fresh (wire_header v mt name sid ++ pre ++ tail)))
     = Some (drop n tail).
Proof.
  intros Hv Hmt Hn Hs Hu Hbase. rewrite decode_fresh_eq.
  destruct (read_header_reduces 0 (opened (wire_header v mt name sid
                                           ++ pre ++ tail))
              v mt name sid (pre ++ tail) Hv Hmt Hn Hs
              (pending_opened _)) as (w1 & P1 & O1 & ->).
  assert (Ho : own 0 w1 = (handlers_of 0, Some ([], 0%nat))).
  { rewrite O1, opened_explicit. reflexivity. }
  destruct (read_struct_upto _ _ _ _ _ e tail n 0 w1 [] Hu Hbase Ho
              eq_refl P1) as (w' & E & P').
  rewrite (bind_Raise _ _ _ _ _ E). auto.
Qed.

End Upto.

(** * The specification again: fields that cannot be read *)

(** ** Wire types without a reader *)

(** C2, as the code has it: no buffer is read as a double, map, set, list
    or enum.
    - Their five readers raise [NotImplementedError] at once, leaving
      every file where it was, also when they are called through the
      handler table,
    - in which a new decoder registers them under the tags 4, 13, 14, 15
      and 16.
    - [read_struct], for a decoder that dispatches to itself: when the
      first tag byte it reads is one of the five and the two bytes of the
      field id follow, it raises [NotImplementedError], and the file is
      left just after the field id: nothing of the value is read.
    - A whole decode by a new decoder: a field with one of the five tags
      aborts it with [NotImplementedError], the file left just after the
      id of the field, wherever the field stands: after any fields of the
      wire format and inside any number of struct fields, provided that the
      message cut off before the field and closed by stop bytes is one the
      decoder decodes (which leaves out the messages that are nested
      deeper than the interpreter can follow).
    - Conversely a decode that returns has stored fields of the types
      bool, byte, i16, i32, i64, string and struct only. *)
Theorem aggregate_readers_unimplemented :
  (forall rs o w,
      call_handler rs (o, read_double_m) w = (Raise NotImplementedError, w)
      /\ call_handler rs (o, read_map_m) w = (Raise NotImplementedError, w)
      /\ call_handler rs (o, read_set_m) w = (Raise NotImplementedError, w)
      /\ call_handler rs (o, read_list_m) w = (Raise NotImplementedError, w)
      /\ call_handler rs (o, read_enum_m) w = (Raise NotImplementedError, w))
  /\ (forall w,
      let self := length (heap w) in
      let w' := snd (new_ThriftDecoder w) in
      fst (new_ThriftDecoder w) = Return self
      /\ type_handlers w' !! 4 = Some (self, read_double_m)
      /\ type_handlers w' !! 13 = Some (self, read_map_m)
      /\ type_handlers w' !! 14 = Some (self, read_set_m)
      /\ type_handlers w' !! 15 = Some (self, read_list_m)
      /\ type_handlers w' !! 16 = Some (self, read_enum_m))
  /\ (forall self w b i0 i1 rest,
      byte_val b ∈ unimplemented ->
      type_handlers w = handlers_of self ->
      pending self w = Some (b :: i0 :: i1 :: rest) ->
      read_struct self w = (Raise NotImplementedError, advance self 3 w)
      /\ pending self (advance self 3 w) = Some rest)
  /\ (forall v mt name sid pre tbl c' k b i0 i1 rest,
      representable (WI16 v) -> representable (WI16 mt) ->
      representable (WString name) -> representable (WI32 sid) ->
      upto 0 pre tbl c' k ->
      byte_val b ∈ unimplemented ->
      fst (decode_fresh (wire_header v mt name sid ++ pre
                         ++ replicate (S k) x00)) = Return tt ->
      fst (decode_fresh (wire_header v mt name sid ++ pre
                         ++ b :: i0 :: i1 :: rest))
      = Raise NotImplementedError
      /\ pending 0 (snd (decode_fresh (wire_header v mt name sid ++ pre
                                       ++ b :: i0 :: i1 :: rest)))
         = Some rest)
  /\ (forall buf,
      fst (decode_fresh buf) = Return tt ->
      exists d,
        heap (snd (decode_fresh buf)) !! 0%nat = Some d
        /\ Forall well_typed (fields d)
        /\ Forall struct_typed (structs d)).
Proof.
  split; [|split; [|split; [|split]]].
  - intros rs o w. repeat split; reflexivity.
  - intros w. cbn. repeat split;
      repeat first [ rewrite lookup_insert_eq; reflexivity
                   | rewrite lookup_insert_ne by discriminate ].
  - intros self w b i0 i1 rest Hb Hh Hp. split.
    + apply (read_fields_unimplemented _ self [] w b i0 i1 rest Hb Hh Hp).
    + apply (pending_advance_app self w [b; i0; i1] rest Hp).
  - intros v mt name sid pre tbl c' k b i0 i1 rest Hv Hmt Hn Hs Hu Hb _.
    apply (decode_fresh_upto v mt name sid pre tbl c' k
             NotImplementedError (b :: i0 :: i1 :: rest) 3
             Hv Hmt Hn Hs Hu).
    intros fuel self acc w Hh Hp.
    apply (read_fields_unimplemented fuel self acc w b i0 i1 rest Hb Hh Hp).
  - intros buf. change (decode_fresh buf)
      with (decode 0 "in" (constructed buf)).
    destruct (decode 0 "in" (constructed buf)) as [r w] eqn:E.
    cbn [fst snd]. intros ->.
    assert (Ht : typed 0 (constructed buf)).
    { apply (new_typed (initial_world (input buf))).
      intros t _. apply lookup_empty. }
    destruct (decode_typed 0 "in" _ _ Ht E)
      as (_ & d & mt & Hd & _ & Hf & Hst).
    eauto.
Qed.

(** An enum first in a struct; a map as the second field of a struct
    field that follows a bool; and the nested message of C3, which is
    decoded and holds struct fields only. *)
Lemma aggregate_readers_unimplemented_witness :
  (read_struct 0 (opened [x10; x00; x01; x00; x00; x00; x07])
   = (Raise NotImplementedError,
      advance 0 3 (opened [x10; x00; x01; x00; x00; x00; x07]))
   /\ pending 0 (advance 0 3 (opened [x10; x00; x01; x00; x00; x00; x07]))
      = Some [x00; x00; x00; x07])
  /\ (fst (decode_fresh
             (wire_header (-32767) 1 (str_of "ping") 42
              ++ (be_bytes 1 (tag_of (WBool true)) ++ be_bytes 2 1
                  ++ canonical (WBool true)
                  ++ be_bytes 1 12 ++ be_bytes 2 2
                  ++ be_bytes 1 (tag_of (WI32 7)) ++ be_bytes 2 1
                  ++ canonical (WI32 7) ++ [])
              ++ x0d :: x00 :: x02 :: [x0b; x0b]))
      = Raise NotImplementedError
      /\ pending 0
           (snd (decode_fresh
                   (wire_header (-32767) 1 (str_of "ping") 42
                    ++ (be_bytes 1 (tag_of (WBool true)) ++ be_bytes 2 1
                        ++ canonical (WBool true)
                        ++ be_bytes 1 12 ++ be_bytes 2 2
                        ++ be_bytes 1 (tag_of (WI32 7)) ++ be_bytes 2 1
                        ++ canonical (WI32 7) ++ [])
                    ++ x0d :: x00 :: x02 :: [x0b; x0b])))
         = Some [x0b; x0b])
  /\ (exists d,
        heap (snd (decode_fresh nested)) !! 0%nat = Some d
        /\ Forall well_typed (fields d)
        /\ Forall struct_typed (structs d)).
Proof.
  destruct aggregate_readers_unimplemented as (_ & _ & H3 & H4 & H5).
  split; [|split].
  - apply (H3 0%nat _ x10 x00 x01 [x00; x00; x00; x07]);
      [compute_done|reflexivity|reflexivity].
  - apply (H4 (-32767) 1 (str_of "ping") 42 _ [] 0%nat 1%nat
              x0d x00 x02 [x0b; x0b]).
    + cbn; lia.
    + cbn; lia.
    + split; [repeat constructor; cbn; lia|vm_compute; reflexivity].
    + cbn; lia.
    + apply upto_scalar; [lia|exact I|].
      apply upto_inside; [lia|].
      apply upto_scalar; [lia|cbn; lia|apply upto_here].
    + compute_done.
    + vm_compute. reflexivity.
  - apply (H5 nested). vm_compute. reflexivity.
Defined.

(** ** Unknown type tags *)

(** C6, as the code has it.
    - When the loop of [read_struct] holds a tag [t] other than 0 that has
      no handler and the two bytes of the field id can be read, it raises
      [KeyError] with the tag as its key, leaving the file just after the
      field id; the exception carries no offset.
    - For a new decoder the tags without handler are those outside 2, 3,
      4, 6, 8, 10, 11, ..., 16: in particular 1, 5, 7, 9 and everything
      from 17 on.
    - [read_struct] itself: when the first byte it reads is such a tag and
      the two bytes of the field id follow, it raises [KeyError] with the
      value of that byte, and the file is left just after the field id.
    - A whole decode by a new decoder: a field whose tag byte is not 0 and
      not registered makes it fail with [KeyError] of that byte, the file
      left just after the id of the field, wherever the field stands:
      after any fields of the wire format and inside any number of struct
      fields, provided that the message cut off before the field and
      closed by stop bytes is one the decoder decodes (which leaves out the
      messages that are nested deeper than the interpreter can follow). *)
Theorem unknown_tag_KeyError :
  (forall fuel self fields t w i0 i1 rest,
      t <> 0 -> type_handlers w !! t = None ->
      pending self w = Some (i0 :: i1 :: rest) ->
      read_struct_loop (S fuel) self fields t w
      = (Raise (KeyError t), advance self 2 w))
  /\ (forall buf t, t ∉ registered -> type_handlers (opened buf) !! t = None)
  /\ (forall self w b i0 i1 rest,
      byte_val b <> 0 -> type_handlers w !! byte_val b = None ->
      pending self w = Some (b :: i0 :: i1 :: rest) ->
      read_struct self w = (Raise (KeyError (byte_val b)), advance self 3 w)
      /\ pending self (advance self 3 w) = Some rest)
  /\ (forall v mt name sid pre tbl c' k b i0 i1 rest,
      representable (WI16 v) -> representable (WI16 mt) ->
      representable (WString name) -> representable (WI32 sid) ->
      upto 0 pre tbl c' k ->
      byte_val b <> 0 -> byte_val b ∉ registered ->
      fst (decode_fresh (wire_header v mt name sid ++ pre
                         ++ replicate (S k) x00)) = Return tt ->
      fst (decode_fresh (wire_header v mt name sid ++ pre
                         ++ b :: i0 :: i1 :: rest))
      = Raise (KeyError (byte_val b))
      /\ pending 0 (snd (decode_fresh (wire_header v mt name sid ++ pre
                                       ++ b :: i0 :: i1 :: rest)))
         = Some rest).
Proof.
  split; [|split; [apply unregistered_opened|split]].
  - intros fuel self fields t w i0 i1 rest Ht Hh Hp.
    rewrite read_struct_loop_S. destruct (Z.eqb_spec t 0); [contradiction|].
    erewrite bind_Return
      by (apply (read_int_pending fmt_h self w [i0; i1] rest Hp eq_refl)).
    apply bind_Raise. unfold lookup_handler.
    rewrite type_handlers_advance, Hh. reflexivity.
  - intros self w b i0 i1 rest Hb Hh Hp. split.
    + apply (read_fields_unknown _ self [] w b i0 i1 rest Hb Hh Hp).
    + apply (pending_advance_app self w [b; i0; i1] rest Hp).
  - intros v mt name sid pre tbl c' k b i0 i1 rest Hv Hmt Hn Hs Hu Hb Hr _.
    apply (decode_fresh_upto v mt name sid pre tbl c' k
             (KeyError (byte_val b)) (b :: i0 :: i1 :: rest) 3
             Hv Hmt Hn Hs Hu).
    intros fuel self acc w Hh Hp.
    apply (read_fields_unknown fuel self acc w b i0 i1 rest Hb); [|exact Hp].
    rewrite Hh. apply handlers_of_unregistered, Hr.
Qed.

(** The tag 1 held by the loop after the ping header; the tags 1, 5 and
    17 in the table of a new decoder; the tag 1 read by [read_struct]; and
    the tag 7 in a struct field that follows a bool field and a complete
    struct field. *)
Lemma unknown_tag_KeyError_witness :
  (let w := advance 0 17 (opened (ping_header ++ [x01; x00; x01])) in
   read_struct_loop 1 0 [] 1 w = (Raise (KeyError 1), advance 0 2 w))
  /\ type_handlers (opened []) !! 1 = None
  /\ type_handlers (opened []) !! 5 = None
  /\ type_handlers (opened []) !! 17 = None
  /\ (read_struct 0 (opened [x01; x00; x01; xff])
      = (Raise (KeyError (byte_val x01)),
         advance 0 3 (opened [x01; x00; x01; xff]))
      /\ pending 0 (advance 0 3 (opened [x01; x00; x01; xff])) = Some [xff])
  /\ (fst (decode_fresh
             (wire_header (-32767) 1 (str_of "ping") 42
              ++ (be_bytes 1 (tag_of (WBool true)) ++ be_bytes 2 1
                  ++ canonical (WBool true)
                  ++ be_bytes 1 12 ++ be_bytes 2 2 ++ [x00]
                  ++ be_bytes 1 12 ++ be_bytes 2 3 ++ [])
              ++ x07 :: x00 :: x01 :: [xff]))
      = Raise (KeyError (byte_val x07))
      /\ pending 0
           (snd (decode_fresh
                   (wire_header (-32767) 1 (str_of "ping") 42
                    ++ (be_bytes 1 (tag_of (WBool true)) ++ be_bytes 2 1
                        ++ canonical (WBool true)
                        ++ be_bytes 1 12 ++ be_bytes 2 2 ++ [x00]
                        ++ be_bytes 1 12 ++ be_bytes 2 3 ++ [])
                    ++ x07 :: x00 :: x01 :: [xff])))
         = Some [xff]).
Proof.
  destruct unknown_tag_KeyError as (H1 & H2 & H3 & H4).
  split; [|split; [|split; [|split; [|split]]]].
  - apply (H1 0%nat 0%nat [] 1 _ x00 x01 []);
      [discriminate | vm_compute; reflexivity | reflexivity].
  - apply H2. compute_done.
  - apply H2. compute_done.
  - apply H2. compute_done.
  - apply (H3 0%nat _ x01 x00 x01 [xff]);
      [discriminate|vm_compute; reflexivity|reflexivity].
  - apply (H4 (-32767) 1 (str_of "ping") 42 _
              ([] ++ (struct_name 0, VTuple []) :: []) 1%nat 1%nat
              x07 x00 x01 [xff]).
    + cbn; lia.
    + cbn; lia.
    + split; [repeat constructor; cbn; lia|vm_compute; reflexivity].
    + cbn; lia.
    + apply upto_scalar; [lia|exact I|].
      apply (upto_struct 0 2 [x00] [] [] 0); [lia|apply wire_stop|].
      apply upto_inside; [lia|apply upto_here].
    + discriminate.
    + compute_done.
    + vm_compute. reflexivity.
Defined.
